(** * ivy/nodes.py: the parse tree of Node instances

    A shallow embedding of [ivy/nodes.py].  Python objects live in a store
    (a list of nodes indexed by address), so that the aliasing between a
    node, its [parent] back-reference and its parent's [children] dict is
    explicit.  The module-level [cache] and the calls made to the
    collaborators ([hooks.event], [loader.load], [Path.iterdir]) are part
    of the program state.

    The collaborators are outside [nodes.py] and enter as parameters:
    [utils.slugify], the keys of [renderers.callbacks],
    [renderers.render] and the subscribers of [hooks.filter] are
    functions that neither raise nor touch the tree; [hooks.event] is
    logged; a directory that cannot be listed and a file that cannot be
    loaded raise [OSError].  A [pathlib.Path] is taken with the [stem]
    and the [suffix] that pathlib gives it, and the source directory does
    not change while it is scanned.  Strings are byte strings, compared
    byte by byte, which on UTF-8 is the order of the code points. *)

From stdpp Require Import base list gmap strings sorting.
From Stdlib Require Import Ascii Lia.

(** ** Python values and dicts *)

(** The [Any] values kept in a node's [data] dict. *)
Inductive value :=
  | VNone
  | VBool (b : bool)
  | VInt (z : Z)
  | VStr (s : string).

(** A Python [dict] whose iteration order matters: an association list
    in insertion order.  Assigning to a key that is present keeps the
    key's position; a new key goes to the end. *)
Module PyDict.
Section dict.
Context {V : Type}.
Definition t := list (string * V).

Fixpoint get (k : string) (d : t) : option V :=
  match d with
  | [] => None
  | (k', v) :: r => if decide (k = k') then Some v else get k r
  end.

Fixpoint set (k : string) (v : V) (d : t) : t :=
  match d with
  | [] => [(k, v)]
  | (k', v') :: r =>
      if decide (k = k') then (k, v) :: r else (k', v') :: set k v r
  end.

Definition keys (d : t) : list string := d.*1.
Definition values (d : t) : list V := d.*2.
End dict.
Arguments t : clear implicits.
End PyDict.

(** ** str helpers *)

(** [s.strip('.')]: drop the leading and the trailing dots. *)
Fixpoint lstrip_dots (s : string) : string :=
  match s with
  | String "."%char r => lstrip_dots r
  | _ => s
  end.

Definition strip_dots (s : string) : string :=
  String.rev (lstrip_dots (String.rev (lstrip_dots s))).

(** [s.startswith('.')] *)
Definition startswith_dot (s : string) : bool :=
  match s with
  | String "."%char _ => true
  | _ => false
  end.

(** ** The Node class *)

Abbreviation addr := nat.

Module Node.

Record t := mk {
  data : gmap string value;
  parent : option addr;
  children : PyDict.t addr;
  stem : string;
  slug : string;
  ext : string
}.

(** [Node.__init__] *)
Definition new : t :=
  {| data := <["html" := VStr ""]> (<["text" := VStr ""]> ∅);
     parent := None;
     children := [];
     stem := "";
     slug := "";
     ext := "" |}.

Definition with_data (f : gmap string value → gmap string value) (n : t) : t :=
  {| data := f (data n); parent := parent n; children := children n;
     stem := stem n; slug := slug n; ext := ext n |}.
Definition with_parent (p : option addr) (n : t) : t :=
  {| data := data n; parent := p; children := children n;
     stem := stem n; slug := slug n; ext := ext n |}.
Definition with_children (f : PyDict.t addr → PyDict.t addr) (n : t) : t :=
  {| data := data n; parent := parent n; children := f (children n);
     stem := stem n; slug := slug n; ext := ext n |}.
Definition with_stem (s : string) (n : t) : t :=
  {| data := data n; parent := parent n; children := children n;
     stem := s; slug := slug n; ext := ext n |}.
Definition with_slug (s : string) (n : t) : t :=
  {| data := data n; parent := parent n; children := children n;
     stem := stem n; slug := s; ext := ext n |}.
Definition with_ext (s : string) (n : t) : t :=
  {| data := data n; parent := parent n; children := children n;
     stem := stem n; slug := slug n; ext := s |}.

(** The store: every Node object ever created, by address. *)
Abbreviation heap := (list t).

(** [Node.get(key, default)] *)
Definition get (h : heap) (self : addr) (key : string) (dflt : value)
  : option value :=
  n ← h !! self; Some (default dflt (data n !! key)).

(** [Node.inherit(key, default)].  The loop variable [self] ranges over
    [Optional[Node]]; a reader that runs out of fuel or meets a dangling
    address has no result. *)
Fixpoint inherit_loop (fuel : nat) (h : heap) (self : option addr)
    (key : string) (dflt : value) : option value :=
  match fuel with
  | 0 => None
  | S fuel =>
      match self with
      | None => Some dflt
      | Some a =>
          n ← h !! a;
          match data n !! key with
          | Some v => Some v
          | None => inherit_loop fuel h (parent n) key dflt
          end
      end
  end.

Definition inherit (h : heap) (self : addr) (key : string) (dflt : value)
  : option value :=
  inherit_loop (S (S (length h))) h (Some self) key dflt.

(** [Node.path]: the loop appends slugs going up, then reverses. *)
Fixpoint path_loop (fuel : nat) (h : heap) (self : addr)
    (slugs : list string) : option (list string) :=
  match fuel with
  | 0 => None
  | S fuel =>
      n ← h !! self;
      match parent n with
      | None => Some slugs
      | Some p => path_loop fuel h p (slugs ++ [slug n])
      end
  end.

Definition path (h : heap) (self : addr) : option (list string) :=
  reverse <$> path_loop (S (length h)) h self [].

(** [Node.url] *)
Definition url (h : heap) (self : addr) : option string :=
  n ← h !! self;
  match parent n with
  | Some _ =>
      p ← path h self;
      Some ("@root/" +:+ String.concat "/" p +:+ "//")
  | None => Some "@root/"
  end.

(** [sorted(d)] on a dict: its keys in ascending order. *)
Definition sorted (l : list string) : list string :=
  merge_sort String.le l.

(** [Node.childlist] *)
Definition childlist (h : heap) (self : addr) : option (list addr) :=
  n ← h !! self;
  mapM (λ k, PyDict.get k (children n)) (sorted (PyDict.keys (children n))).

(** [Node.has_children] *)
Definition has_children (h : heap) (self : addr) : option bool :=
  n ← h !! self; Some (bool_decide (0 < length (children n))).

(** The descent of [node] (called with the slugs of a path) below a given start node: [None] is a
    dangling address, [Some None] is Python's [None]. *)
Fixpoint descend (h : heap) (nd : addr) (slugs : list string)
  : option (option addr) :=
  match slugs with
  | [] => Some (Some nd)
  | sl :: rest =>
      n ← h !! nd;
      match PyDict.get sl (children n) with
      | None => Some None
      | Some c => descend h c rest
      end
  end.
End Node.

(** ** Program state and effects *)

(** Exceptions.  [OSError] is what [iterdir] and [loader.load] raise on an
    unreadable directory or file; [Stuck] marks states a Python run cannot
    be in (a dangling address, a loop out of fuel). *)
Inductive Exn := OSError | KeyError | Stuck.

Inductive Result (A : Type) :=
  | Ok (a : A)
  | Raise (e : Exn).
Arguments Ok {A} a.
Arguments Raise {A} e.

(** The module global [cache], the store, and the probes on the
    collaborators: the log of [hooks.event] calls and the numbers of
    [iterdir] and [loader.load] calls. *)
Record State := mkState {
  heap : Node.heap;
  cache : option addr;
  events : list (string * addr);
  scans : nat;
  loads : nat
}.

Definition M (A : Type) : Type := State → Result A * State.

Definition ret {A} (a : A) : M A := λ s, (Ok a, s).
Definition raise {A} (e : Exn) : M A := λ s, (Raise e, s).
Definition bind {A B} (m : M A) (k : A → M B) : M B :=
  λ s, match m s with
       | (Ok a, s') => k a s'
       | (Raise e, s') => (Raise e, s')
       end.

Notation "x <- c ;; k" := (bind c (λ x, k))
  (at level 100, c at next level, right associativity).
Notation "c ;;; k" := (bind c (λ _, k))
  (at level 100, right associativity).

(** [for x in l: body x] *)
Definition for_each {A} (body : A → M unit) : list A → M unit :=
  fix loop (l : list A) : M unit :=
    match l with
    | [] => ret tt
    | x :: r => body x ;;; loop r
    end.

(** Run a reader of the store. *)
Definition read {A} (f : Node.heap → option A) : M A :=
  λ s, match f (heap s) with
       | Some a => (Ok a, s)
       | None => (Raise Stuck, s)
       end.

Definition set_heap (h : Node.heap) (s : State) : State :=
  {| heap := h; cache := cache s; events := events s;
     scans := scans s; loads := loads s |}.

(** [Node()] *)
Definition new_node : M addr :=
  λ s, (Ok (length (heap s)), set_heap (heap s ++ [Node.new]) s).

(** An assignment to an attribute of the object at [a]. *)
Definition update_node (a : addr) (f : Node.t → Node.t) : M unit :=
  λ s, match heap s !! a with
       | Some n => (Ok tt, set_heap (<[a := f n]> (heap s)) s)
       | None => (Raise Stuck, s)
       end.

(** [Node.__getitem__] *)
Definition getitem (self : addr) (key : string) : M value :=
  λ s, match heap s !! self with
       | Some n =>
           match Node.data n !! key with
           | Some v => (Ok v, s)
           | None => (Raise KeyError, s)
           end
       | None => (Raise Stuck, s)
       end.

(** [Node.__setitem__] *)
Definition setitem (self : addr) (key : string) (v : value) : M unit :=
  update_node self (Node.with_data (insert key v)).

(** [Node.update(other)] *)
Definition update (self : addr) (other : gmap string value) : M unit :=
  update_node self (Node.with_data (λ d, other ∪ d)).

(** [hooks.event(name, node)] *)
Definition hooks_event (name : string) (a : addr) : M unit :=
  λ s, (Ok tt, {| heap := heap s; cache := cache s;
                  events := events s ++ [(name, a)];
                  scans := scans s; loads := loads s |}).

Definition set_cache (c : option addr) : M unit :=
  λ s, (Ok tt, {| heap := heap s; cache := c; events := events s;
                  scans := scans s; loads := loads s |}).

Definition count_scan : M unit :=
  λ s, (Ok tt, {| heap := heap s; cache := cache s; events := events s;
                  scans := S (scans s); loads := loads s |}).

Definition count_load : M unit :=
  λ s, (Ok tt, {| heap := heap s; cache := cache s; events := events s;
                  scans := scans s; loads := S (loads s) |}).

(** ** The source directory *)

(** What the builder observes of the file system below [site.src()]: a
    [Path] with its [stem] and [suffix], and what [iterdir] and
    [loader.load] give for it ([None] when the call raises).  [EOther] is
    an entry that is neither a directory nor a regular file. *)
#[warnings="-register-all"]
Inductive Entry :=
  | EDir (dstem : string) (listing : option (list Entry))
  | EFile (fstem fsuffix : string)
      (content : option (string * gmap string value))
  | EOther (ostem : string).

(** ** The tree builder, the initializer and the cache *)

Section Builder.

(** The collaborators: [utils.slugify], membership in
    [renderers.callbacks], [hooks.filter] and [renderers.render]. *)
Variable slugify : string → string.
Variable registered : string → bool.
Variable hooks_filter_fn : string → value → Node.heap → addr → value.
Variable render : value → string → value.

(** [hooks.filter(name, value, node)] *)
Definition hooks_filter (name : string) (v : value) (a : addr) : M value :=
  λ s, (Ok (hooks_filter_fn name v (heap s) a), s).

(** [Path(dirpath).iterdir()], fully listed. *)
Definition iterdir (dirpath : option (list Entry)) : M (list Entry) :=
  count_scan ;;;
  match dirpath with
  | Some es => ret es
  | None => raise OSError
  end.

(** [loader.load(filepath)] *)
Definition loader_load (content : option (string * gmap string value))
  : M (string * gmap string value) :=
  count_load ;;;
  match content with
  | Some tm => ret tm
  | None => raise OSError
  end.

(** The call of [root()] made by [node] while the tree is being built.
    The recursion root, parse_node_directory, parse_node_file, node, root
    is cut here: the enclosing [root()] has assigned [cache] before it
    started to parse, so the nested call takes the cached branch. *)
Definition cached_root : M addr :=
  λ s, match cache s with
       | Some c => (Ok c, s)
       | None => (Raise Stuck, s)
       end.

(** [node(slugs)], for the states in which [cache] is set: the call
    of [root()] then returns the cached node.  On an empty cache the
    source would build the tree first; the model stops with [Stuck]. *)
Definition node (slugs : list string) : M (option addr) :=
  r <- cached_root ;;
  read (λ h, Node.descend h r slugs).

(** [parse_node_file(dirnode, filepath)] *)
Definition parse_node_file (dirnode : addr) (fstem fsuffix : string)
    (content : option (string * gmap string value)) : M unit :=
  let sl := slugify fstem in
  filenode <-
    (if decide (sl = "index") then ret dirnode
     else
       p <- read (λ h, Node.path h dirnode) ;;
       found <- node (p ++ [sl]) ;;
       filenode <- match found with
                   | Some a => ret a
                   | None => new_node
                   end ;;
       update_node filenode (Node.with_slug sl) ;;;
       update_node filenode (Node.with_stem fstem) ;;;
       update_node filenode (Node.with_parent (Some dirnode)) ;;;
       update_node dirnode (Node.with_children (PyDict.set sl filenode)) ;;;
       ret filenode) ;;
  tm <- loader_load content ;;
  setitem filenode "text" (VStr tm.1) ;;;
  update filenode tm.2 ;;;
  update_node filenode (Node.with_ext (strip_dots fsuffix)).

(** The body of the loop over the files of a directory; entries that
    are not files are not in the list the loop runs over. *)
Definition file_loop_body (dirnode : addr) (p : Entry) : M unit :=
  match p with
  | EFile fstem fsuffix content =>
      if startswith_dot fstem then ret tt
      else if negb (registered (strip_dots fsuffix)) then ret tt
      else parse_node_file dirnode fstem fsuffix content
  | _ => ret tt
  end.

(** The body of the loop over the subdirectories of a directory,
    with the recursive call of [parse_node_directory] on the child
    written out (see [dir_loop_body_EDir]).  The recursion is
    structural in the source directory; the interpreter's recursion
    limit is no part of the model. *)
Fixpoint dir_loop_body (dirnode : addr) (p : Entry) {struct p} : M unit :=
  match p with
  | EDir dstem listing =>
      let sl := slugify dstem in
      childnode <- new_node ;;
      update_node childnode (Node.with_slug sl) ;;;
      update_node childnode (Node.with_stem dstem) ;;;
      update_node childnode (Node.with_parent (Some dirnode)) ;;;
      update_node dirnode (Node.with_children (PyDict.set sl childnode)) ;;;
      count_scan ;;;
      match listing with
      | None => raise OSError
      | Some es =>
          (fix dirs (l : list Entry) : M unit :=
             match l with
             | [] => ret tt
             | q :: r => dir_loop_body childnode q ;;; dirs r
             end) es ;;;
          count_scan ;;;
          for_each (file_loop_body childnode) es
      end
  | _ => ret tt
  end.

(** [parse_node_directory(dirnode, dirpath)] *)
Definition parse_node_directory (dirnode : addr)
    (dirpath : option (list Entry)) : M unit :=
  es <- iterdir dirpath ;;
  for_each (dir_loop_body dirnode) es ;;;
  _ <- iterdir dirpath ;;
  for_each (file_loop_body dirnode) es.

(** [Node.init()]; the recursion follows the store, so it takes fuel. *)
Fixpoint init (fuel : nat) (self : addr) : M addr :=
  match fuel with
  | 0 => raise Stuck
  | S fuel =>
      t <- getitem self "text" ;;
      t' <- hooks_filter "node_text" t self ;;
      setitem self "text" t' ;;;
      t'' <- getitem self "text" ;;
      e <- read (λ h, Node.ext <$> h !! self) ;;
      html <- hooks_filter "node_html" (render t'' e) self ;;
      setitem self "html" html ;;;
      cs <- read (λ h, PyDict.values <$> (Node.children <$> h !! self)) ;;
      for_each (λ c, init fuel c ;;; ret tt) cs ;;;
      hooks_event "init_node" self ;;;
      ret self
  end.

(** [root()]; [src] is the listing of [site.src()].  The fuel handed to
    [init] is the number of nodes, which is enough on every tree the
    builder makes (see [init_spec] and [root_spec]). *)
Definition root (src : option (list Entry)) : M addr :=
  λ s,
    match cache s with
    | None =>
        (c <- new_node ;;
         set_cache (Some c) ;;;
         parse_node_directory c src ;;;
         fuel <- read (λ h, Some (length h)) ;;
         r <- init fuel c ;;
         hooks_event "init_tree" r ;;;
         cached_root) s
    | Some c => (Ok c, s)
    end.

End Builder.

(** The state of a fresh process. *)
Definition start : State :=
  {| heap := []; cache := None; events := []; scans := 0; loads := 0 |}.

(** ** The other methods of Node *)

(** [Node.__contains__] *)
Definition contains (h : Node.heap) (self : addr) (key : string) : option bool :=
  n ← h !! self; Some (bool_decide (is_Some (Node.data n !! key))).

(** [Node.__repr__] *)
Definition repr (h : Node.heap) (self : addr) : option string :=
  p ← Node.path h self; Some ("<Node /" +:+ String.concat "/" p +:+ ">").

(** The line feed, and the indentation of one level in [Node.str]: a
    middle dot (two bytes in UTF-8) and two spaces. *)
Definition newline : string := String "010"%char "".
Definition indent_unit : string := String "194"%char (String "183"%char "  ").

(** [s * n] on a str *)
Fixpoint str_mul (s : string) (n : nat) : string :=
  match n with
  | 0 => ""
  | S n => s +:+ str_mul s n
  end.

(** The first line that [Node.str] makes for a node. *)
Definition str_line (depth : nat) (p : list string) : string :=
  str_mul indent_unit depth +:+ "/" +:+ String.concat "/" p.

(** [Node.str(depth)]; the recursion follows the store, so it takes
    fuel. *)
Fixpoint str (fuel : nat) (h : Node.heap) (self : addr) (depth : nat)
    : option string :=
  match fuel with
  | 0 => None
  | S fuel =>
      p ← Node.path h self;
      cl ← Node.childlist h self;
      out ← mapM (λ child, str fuel h child (S depth)) cl;
      Some (String.concat newline (str_line depth p :: out))
  end.

(** [Node.walk(callback)]; the callback is any computation on a node.
    The children are taken as the dict holds them when the loop starts:
    Python iterates over the live dict and raises when a callback
    changes its size, so the two agree for the callbacks that leave the
    [children] dicts alone. *)
Fixpoint walk (fuel : nat) (callback : addr → M unit) (self : addr) : M unit :=
  match fuel with
  | 0 => raise Stuck
  | S fuel =>
      cs <- read (λ h, PyDict.values <$> (Node.children <$> h !! self)) ;;
      for_each (walk fuel callback) cs ;;;
      callback self
  end.

(** ** Vocabulary of the specification *)

(** The shape of a store that holds a tree rooted at address 0: parents
    are older than their children (so parent chains end at the root, the
    only node without a parent), a node listed in a [children] dict under
    key [k] has that dict's owner as parent and [k] as slug, dict keys are
    distinct, and every node has a ['text'] entry. *)
Record heap_wf (h : Node.heap) : Prop := {
  wf_nonempty : 0 < length h;
  wf_parent : ∀ a n, h !! a = Some n →
    match Node.parent n with None => a = 0 | Some p => p < a end;
  wf_child : ∀ p n k c, h !! p = Some n →
    PyDict.get k (Node.children n) = Some c →
    ∃ m, h !! c = Some m ∧ Node.parent m = Some p ∧ Node.slug m = k;
  wf_keys : ∀ p n, h !! p = Some n → NoDup (PyDict.keys (Node.children n));
  wf_text : ∀ a n, h !! a = Some n → is_Some (Node.data n !! "text")
}.

(** [c] is listed in the [children] dict of [p]. *)
Definition child_of (h : Node.heap) (p c : addr) : Prop :=
  ∃ n k, h !! p = Some n ∧ (k, c) ∈ Node.children n.

(** The nodes of the tree: those reached from the root through
    [children]. *)
Definition in_tree (h : Node.heap) (a : addr) : Prop := rtc (child_of h) 0 a.

(** [d] is below [a]: reached from [a] in one or more steps. *)
Definition descendant (h : Node.heap) (a d : addr) : Prop := tc (child_of h) a d.

(** The slug of the node at an address. *)
Definition slug_at (h : Node.heap) (a : addr) : string :=
  default "" (Node.slug <$> h !! a).

(** What [inherit] is to find: the value under [key] at the nearest node
    of the parent chain that has one, or nothing when the chain ends at a
    node without a parent. *)
Inductive nearest (h : Node.heap) (key : string) : addr → option value → Prop :=
  | nearest_here a n v :
      h !! a = Some n → Node.data n !! key = Some v →
      nearest h key a (Some v)
  | nearest_up a n p r :
      h !! a = Some n → Node.data n !! key = None →
      Node.parent n = Some p → nearest h key p r →
      nearest h key a r
  | nearest_none a n :
      h !! a = Some n → Node.data n !! key = None →
      Node.parent n = None →
      nearest h key a None.

(** What a processed file leaves on its node: the text under ['text'],
    the metadata merged over it, and the extension. *)
Definition stored (t : string) (m : gmap string value) (e : string)
    (n : Node.t) : Node.t :=
  Node.with_ext e
    (Node.with_data (λ d, m ∪ d)
       (Node.with_data (insert "text" (VStr t)) n)).

(** The state after one more call of [loader.load]. *)
Definition loaded (s : State) : State :=
  {| heap := heap s; cache := cache s; events := events s;
     scans := scans s; loads := S (loads s) |}.

(** The state after one more call of [iterdir]. *)
Definition scanned (s : State) : State :=
  {| heap := heap s; cache := cache s; events := events s;
     scans := S (scans s); loads := loads s |}.

(** The node of a directory or file entry once it is linked: [slug],
    [stem] and [parent] assigned. *)
Definition linked (sl st : string) (d : addr) (n : Node.t) : Node.t :=
  Node.with_parent (Some d) (Node.with_stem st (Node.with_slug sl n)).

(** The node that [parse_node_file] selects for a file with slug [sl] and
    stem [st] in the directory of [d], and the store once that node is
    linked: [d] itself for an index file, else the child of [d] that
    already has the slug, else a new node. *)
Definition file_target (sl st : string) (d : addr) (h : Node.heap)
    : addr * Node.heap :=
  if decide (sl = "index") then (d, h)
  else
    match h !! d with
    | Some nd =>
        match PyDict.get sl (Node.children nd) with
        | Some c => (c, alter (Node.with_stem st) c h)
        | None =>
            (length h,
             <[d := Node.with_children (PyDict.set sl (length h)) nd]>
               (h ++ [linked sl st d Node.new]))
        end
    | None => (d, h)
    end.

(** The slugs that a directory listing gives to the children of its
    node: one per subdirectory, and one per accepted file (no dotfile, a
    registered extension) that is not an index file. *)
Section layout.
Variable slugify : string → string.
Variable registered : string → bool.

Definition accepted (e : Entry) : bool :=
  match e with
  | EFile fstem fsuffix _ =>
      negb (startswith_dot fstem) && registered (strip_dots fsuffix)
  | _ => false
  end.

Definition dir_slug (e : Entry) : option string :=
  match e with
  | EDir dstem _ => Some (slugify dstem)
  | _ => None
  end.

Definition file_slug (e : Entry) : option string :=
  match e with
  | EFile fstem _ _ =>
      if accepted e && negb (bool_decide (slugify fstem = "index"))
      then Some (slugify fstem) else None
  | _ => None
  end.

Definition child_slugs (es : list Entry) : list string :=
  omap dir_slug es ++ omap file_slug es.
End layout.

(** What a phase of the builder that works on the directory node [d]
    does to the store: the store stays well formed, [cache] and the event
    log are as before, nodes older than [d] are untouched, [d] keeps its
    parent and slug, and the keys [ks] are added to its [children]. *)
Definition builder_step (d : addr) (ks : list string) (s s' : State) : Prop :=
  heap_wf (heap s') ∧ cache s' = cache s ∧ events s' = events s ∧
  length (heap s) ≤ length (heap s') ∧
  (∀ a, a < d → heap s' !! a = heap s !! a) ∧
  ∃ n n', heap s !! d = Some n ∧ heap s' !! d = Some n' ∧
    Node.parent n' = Node.parent n ∧ Node.slug n' = Node.slug n ∧
    (∀ k, k ∈ PyDict.keys (Node.children n')
          ↔ k ∈ PyDict.keys (Node.children n) ∨ k ∈ ks).

(** Induction on the source directory: a directory's property may use
    that of every entry of its listing. *)
Fixpoint Entry_nested_ind (P : Entry → Prop)
    (Hnone : ∀ dstem, P (EDir dstem None))
    (Hsome : ∀ dstem es, Forall P es → P (EDir dstem (Some es)))
    (Hfile : ∀ fstem fsuffix content, P (EFile fstem fsuffix content))
    (Hother : ∀ ostem, P (EOther ostem))
    (e : Entry) {struct e} : P e :=
  match e with
  | EDir dstem None => Hnone dstem
  | EDir dstem (Some es) =>
      Hsome dstem es
        ((fix all (l : list Entry) : Forall P l :=
            match l with
            | [] => @List.Forall_nil Entry P
            | x :: r =>
                @List.Forall_cons Entry P x r
                  (Entry_nested_ind P Hnone Hsome Hfile Hother x) (all r)
            end) es)
  | EFile fstem fsuffix content => Hfile fstem fsuffix content
  | EOther ostem => Hother ostem
  end.

(** What one round of the loop over the subdirectories does for the entry
    [e]: nothing if [e] is no directory; else a new node, the newest of
    the store before the round, is the child of [d] under the directory's
    slug, and its children carry the slugs of the directory's listing.
    All other old nodes are untouched. *)
Definition dir_post (slugify : string → string) (registered : string → bool)
    (d : addr) (e : Entry) (s s' : State) : Prop :=
  heap_wf (heap s') ∧ cache s' = cache s ∧ events s' = events s ∧
  length (heap s) ≤ length (heap s') ∧
  (∀ a, a < length (heap s) → a ≠ d → heap s' !! a = heap s !! a) ∧
  ∃ n, heap s !! d = Some n ∧
    match e with
    | EDir dstem lst =>
        heap s' !! d =
          Some (Node.with_children
                  (PyDict.set (slugify dstem) (length (heap s))) n) ∧
        ∃ nc es, lst = Some es ∧ heap s' !! length (heap s) = Some nc ∧
          Node.parent nc = Some d ∧ Node.slug nc = slugify dstem ∧
          (∀ k, k ∈ PyDict.keys (Node.children nc)
                ↔ k ∈ child_slugs slugify registered es)
    | _ => heap s' !! d = Some n
    end.

(** The tree structure of a store: per node, what does not depend on
    [data]. *)
Definition links (h : Node.heap) : list (option addr * string * PyDict.t addr) :=
  (λ n, (Node.parent n, Node.slug n, Node.children n)) <$> h.

(** The order in which [init] reaches the end of its calls: the nodes
    below [a], children first, in the order of the [children] dicts. *)
Fixpoint post_order (fuel : nat) (h : Node.heap) (a : addr) : list addr :=
  match fuel with
  | 0 => []
  | S fuel =>
      match h !! a with
      | Some n =>
          concat (post_order fuel h <$> PyDict.values (Node.children n)) ++ [a]
      | None => []
      end
  end.

(** The state of a fresh process once [root()] has assigned
    [cache = Node()]. *)
Definition boot : State :=
  {| heap := [Node.new]; cache := Some 0; events := []; scans := 0; loads := 0 |}.

(** The states in which the builder works on the directory node [d]: the
    store is well formed, [d] is a node of the tree, and [cache] holds
    the root. *)
Definition builder_pre (d : addr) (s : State) : Prop :=
  heap_wf (heap s) ∧ in_tree (heap s) d ∧ cache s = Some 0.

(** The node [c], with record [nc], is the child of [d] under slug [x]. *)
Definition slot_node (h : Node.heap) (d : addr) (x : string) (c : addr)
    (nc : Node.t) : Prop :=
  ∃ nd, h !! d = Some nd ∧ PyDict.get x (Node.children nd) = Some c
        ∧ h !! c = Some nc.

(** A round of the loop over the subdirectories either raises the
    [OSError] of a collaborator or does what [dir_post] says. *)
Definition dir_loop_body_ok (slugify : string → string)
    (registered : string → bool) (e : Entry) : Prop :=
  ∀ d s, builder_pre d s →
    match dir_loop_body slugify registered d e s with
    | (Ok _, s') => dir_post slugify registered d e s s'
    | (Raise x, _) => x = OSError
    end.

(** The [init_node] event of a node. *)
Definition init_event (a : addr) : string * addr := ("init_node", a).

(** What [init] on the node [a] does to the state. *)
Definition init_post (fuel : nat) (a : addr) (s s' : State) : Prop :=
  heap_wf (heap s') ∧ links (heap s') = links (heap s) ∧
  cache s' = cache s ∧ scans s' = scans s ∧ loads s' = loads s ∧
  events s' = events s ++ (init_event <$> post_order fuel (heap s) a).

(** A computation that leaves [cache] and the event log alone, whether
    it returns or raises. *)
Definition quiet {A} (m : M A) : Prop :=
  ∀ s, cache (m s).2 = cache s ∧ events (m s).2 = events s.

(** A source directory used to run the builder on: [about/] and
    [about.md] are coterminous, [blog/2023/post.md] is three levels deep,
    [.hidden.md] is a dotfile, [notes.txt] has no rendering engine, and
    the directory [drafts/] cannot be listed in [demo_broken]. *)
Definition demo_registered (e : string) : bool := bool_decide (e = "md").

Definition demo_filter (name : string) (v : value) (h : Node.heap) (a : addr)
  : value := v.

Definition demo_render (v : value) (e : string) : value := v.

Definition demo_entries : list Entry :=
  [ EFile "about" ".md" (Some ("About us", {["title" := VStr "About"]}));
    EDir "about" (Some [EFile "team" ".md" (Some ("The team", ∅))]);
    EDir "blog"
      (Some [EDir "2023"
               (Some [EFile "post" ".md"
                        (Some ("Hello", {["author" := VStr "ann"]}))])]);
    EFile "index" ".md" (Some ("Home", {["template" := VStr "base"]}));
    EFile ".hidden" ".md" (Some ("x", ∅));
    EFile "notes" ".txt" (Some ("y", ∅)) ].

Definition demo_src : option (list Entry) := Some demo_entries.

Definition demo_broken : option (list Entry) :=
  Some [EDir "about" (Some []); EDir "drafts" None].

Definition demo_root (src : option (list Entry)) : M addr :=
  root id demo_registered demo_filter demo_render src.

(** The store after [root()] on [demo_src]. *)
Definition demo_state : State := (demo_root demo_src start).2.

(** A source directory with a directory [index/] next to a file
    [index.md]. *)
Definition demo_index_entries : list Entry :=
  [ EDir "index" (Some [EFile "a" ".md" (Some ("A", ∅))]);
    EFile "index" ".md" (Some ("Home", ∅)) ].

(** A source directory the builder can read: every directory can be
    listed and every accepted file can be loaded. *)
Fixpoint readable (registered : string → bool) (e : Entry) : Prop :=
  match e with
  | EDir _ None => False
  | EDir _ (Some es) =>
      (fix all (l : list Entry) : Prop :=
         match l with
         | [] => True
         | x :: r => readable registered x ∧ all r
         end) es
  | EFile fstem fsuffix content =>
      accepted registered (EFile fstem fsuffix content) = true → is_Some content
  | EOther _ => True
  end.

(** A computation that does not raise [OSError]. *)
Definition no_oserror {A} (m : M A) : Prop :=
  ∀ s s', m s ≠ (Raise OSError, s').

(** A source directory with the directories [v1.0/] and [v1.1/]: both
    have the stem [v1], hence the same slug. *)
Definition demo_shadow_entries : list Entry :=
  [ EDir "v1" (Some [EFile "a" ".md" (Some ("A", ∅))]);
    EDir "v1" (Some []) ].

(** The directories below an entry, itself included, and the accepted
    files below it. *)
Fixpoint n_dirs (e : Entry) : nat :=
  match e with
  | EDir _ (Some es) => S (sum_list_with n_dirs es)
  | EDir _ None => 1
  | _ => 0
  end.

Fixpoint n_files (registered : string → bool) (e : Entry) : nat :=
  match e with
  | EDir _ (Some es) => sum_list_with (n_files registered) es
  | EDir _ None => 0
  | EFile _ _ _ => if accepted registered e then 1 else 0
  | EOther _ => 0
  end.

(** The accepted files that the round of the loop over the
    subdirectories, and that of the loop over the files, loads for an
    entry. *)
Definition files_below (registered : string → bool) (e : Entry) : nat :=
  match e with
  | EDir _ _ => n_files registered e
  | _ => 0
  end.

Definition file_here (registered : string → bool) (e : Entry) : nat :=
  match e with
  | EFile _ _ _ => n_files registered e
  | _ => 0
  end.

(** A computation that, when it returns, has called [iterdir] [ds] times
    and [loader.load] [dl] times. *)
Definition counts {A} (ds dl : nat) (m : M A) : Prop :=
  ∀ s a s', m s = (Ok a, s') →
    scans s' = scans s + ds ∧ loads s' = loads s + dl.

(** The default attributes of [Node.__init__] are present. *)
Definition has_defaults (n : Node.t) : Prop :=
  is_Some (Node.data n !! "text") ∧ is_Some (Node.data n !! "html").

(** A computation that keeps a property of all nodes of the store,
    whether it returns or raises. *)
Definition keeps (I : Node.t → Prop) {A} (m : M A) : Prop :=
  ∀ s, Forall I (heap s) → Forall I (heap (m s).2).

(** Two records of a node that differ at most in the ['text'] and
    ['html'] entries of [data]; two stores with the same nodes up to
    that. *)
Definition same_but_rendered (n n' : Node.t) : Prop :=
  Node.parent n' = Node.parent n ∧ Node.children n' = Node.children n ∧
  Node.slug n' = Node.slug n ∧ Node.stem n' = Node.stem n ∧
  Node.ext n' = Node.ext n ∧
  ∀ k, k ≠ "text" → k ≠ "html" → Node.data n' !! k = Node.data n !! k.

Definition rendered (h h' : Node.heap) : Prop := Forall2 same_but_rendered h h'.

(** A computation that does to the store no more than that, whether it
    returns or raises. *)
Definition renders {A} (m : M A) : Prop :=
  ∀ s, rendered (heap s) (heap (m s).2).

(** The entries that the builder looks at: directories and accepted
    files; and a source directory without the others, at every level. *)
Definition kept (registered : string → bool) (e : Entry) : bool :=
  match e with
  | EDir _ _ => true
  | EFile _ _ _ => accepted registered e
  | EOther _ => false
  end.

Fixpoint prune (registered : string → bool) (e : Entry) : Entry :=
  match e with
  | EDir dstem (Some es) =>
      EDir dstem
        (Some (omap (λ x, if kept registered x
                          then Some (prune registered x) else None) es))
  | _ => e
  end.

Definition prune_list (registered : string → bool) (es : list Entry)
  : list Entry :=
  omap (λ x, if kept registered x then Some (prune registered x) else None) es.

(** [walk] from the node [a] does what calling the callback along
    [post_order] does, on every state with the tree structure of [h0]. *)
Definition walk_ok (h0 : Node.heap) (callback : addr → M unit)
    (fuel : nat) (a : addr) : Prop :=
  ∀ s, links (heap s) = links h0 →
    ∃ s', walk fuel callback a s = (Ok tt, s') ∧
          for_each callback (post_order fuel h0 a) s = (Ok tt, s') ∧
          links (heap s') = links h0.

(** What [init] leaves of a node with the record [n] and the text [t],
    when [h1] is the store at the time of its ['node_text'] filter: the
    filter of ['node_html'] sees the store with the filtered text
    already assigned. *)
Definition initialized
    (hooks_filter_fn : string → value → Node.heap → addr → value)
    (render : value → string → value)
    (h1 : Node.heap) (a : addr) (n : Node.t) (t : value) : Node.t :=
  let t' := hooks_filter_fn "node_text" t h1 a in
  let n1 := Node.with_data (insert "text" t') n in
  let html :=
    hooks_filter_fn "node_html" (render t' (Node.ext n)) (<[a := n1]> h1) a in
  Node.with_data (insert "html" html) n1.

(** What [init] on the node [r] does to the store [h]: the nodes that
    are not below [r] stay; every node [a] from [r] downwards is
    [initialized] from its record in [h], its filters having seen a store
    that differs from [h] in ['text'] and ['html'] entries only. *)
Definition init_store
    (hooks_filter_fn : string → value → Node.heap → addr → value)
    (render : value → string → value)
    (r : addr) (h h' : Node.heap) : Prop :=
  (∀ b, ¬ rtc (child_of h) r b → h' !! b = h !! b) ∧
  (∀ a n t, rtc (child_of h) r a → h !! a = Some n →
     Node.data n !! "text" = Some t →
     ∃ h1, rendered h h1 ∧ h1 !! a = Some n ∧
           h' !! a = Some (initialized hooks_filter_fn render h1 a n t)).

(** The nodes from [a] downwards, a node before its children and the
    children in the order of [childlist]. *)
Fixpoint pre_order (fuel : nat) (h : Node.heap) (a : addr) : list addr :=
  match fuel with
  | 0 => []
  | S fuel =>
      a :: concat (pre_order fuel h <$> default [] (Node.childlist h a))
  end.

(** The line of a node [x] in the printout of [a.str(depth)]: the path
    of [x], indented once per level of the call and per level between
    [a] and [x]. *)
Definition str_node_line (h : Node.heap) (a : addr) (depth : nat) (x : addr)
    : string :=
  let px := default [] (Node.path h x) in
  let pa := default [] (Node.path h a) in
  str_line (depth + (length px - length pa)) px.

(** * Properties *)

(** ** Python dicts *)

Section dict_facts.
Context {V : Type}.
Implicit Types (d : PyDict.t V) (k : string) (v : V).

Lemma get_set_eq k v d : PyDict.get k (PyDict.set k v d) = Some v.
Proof.
  induction d as [|[k' v'] d IH]; simpl.
  - by rewrite decide_True.
  - destruct (decide (k = k')) as [->|Hne]; simpl.
    + by rewrite decide_True.
    + by rewrite decide_False.
Qed.

Lemma get_set_ne k k' v d :
  k ≠ k' → PyDict.get k' (PyDict.set k v d) = PyDict.get k' d.
Proof.
  intros Hne. induction d as [|[k1 v1] d IH]; simpl.
  - by rewrite decide_False.
  - destruct (decide (k = k1)) as [->|Hne1]; simpl.
    + by rewrite !decide_False.
    + by rewrite IH.
Qed.

Lemma set_get_id k v d : PyDict.get k d = Some v → PyDict.set k v d = d.
Proof.
  induction d as [|[k1 v1] d IH]; simpl; [done|].
  destruct (decide (k = k1)) as [->|Hne]; [by intros [= ->]|].
  intros H. by rewrite IH.
Qed.

Lemma get_Some_elem k v d : PyDict.get k d = Some v → (k, v) ∈ d.
Proof.
  induction d as [|[k1 v1] d IH]; simpl; [done|].
  destruct (decide (k = k1)) as [->|Hne].
  - intros [= ->]. left.
  - intros H. right. auto.
Qed.

Lemma get_None_keys k d : PyDict.get k d = None ↔ k ∉ PyDict.keys d.
Proof.
  unfold PyDict.keys. induction d as [|[k1 v1] d IH]; simpl.
  - split; [intros _; apply not_elem_of_nil|done].
  - rewrite not_elem_of_cons. destruct (decide (k = k1)) as [->|Hne].
    + split; [done|]. by intros [? _].
    + rewrite IH. tauto.
Qed.

Lemma get_is_Some_keys k d : is_Some (PyDict.get k d) ↔ k ∈ PyDict.keys d.
Proof.
  rewrite <-not_eq_None_Some, get_None_keys.
  destruct (decide (k ∈ PyDict.keys d)); tauto.
Qed.

Lemma elem_get k v d : NoDup (PyDict.keys d) → (k, v) ∈ d → PyDict.get k d = Some v.
Proof.
  unfold PyDict.keys. induction d as [|[k1 v1] d IH]; simpl.
  - intros _ H. by apply elem_of_nil in H.
  - intros Hnd H. apply NoDup_cons in Hnd as [Hk1 Hnd].
    apply elem_of_cons in H as [[= -> ->]|H]; [by rewrite decide_True|].
    destruct (decide (k = k1)) as [->|Hne]; [|auto].
    exfalso. apply Hk1. apply list_elem_of_fmap. by exists (k1, v).
Qed.

Lemma keys_set k v d :
  ∀ k', k' ∈ PyDict.keys (PyDict.set k v d) ↔ k' = k ∨ k' ∈ PyDict.keys d.
Proof.
  intros k'. rewrite <-!get_is_Some_keys.
  destruct (decide (k = k')) as [->|Hne].
  - rewrite get_set_eq. split; eauto.
  - rewrite get_set_ne by done. split; [eauto|]. by intros [->|].
Qed.

Lemma NoDup_keys_set k v d :
  NoDup (PyDict.keys d) → NoDup (PyDict.keys (PyDict.set k v d)).
Proof.
  unfold PyDict.keys. induction d as [|[k1 v1] d IH]; simpl.
  - intros _. apply NoDup_singleton.
  - intros [Hk1 Hnd]%NoDup_cons. destruct (decide (k = k1)) as [->|Hne]; simpl.
    + by apply NoDup_cons.
    + apply NoDup_cons. split; [|auto].
      intros H. apply (keys_set k v d k1) in H as [->|?]; done.
Qed.

Lemma elem_values d v : v ∈ PyDict.values d ↔ ∃ k, (k, v) ∈ d.
Proof.
  unfold PyDict.values. rewrite list_elem_of_fmap. split.
  - intros [[k v'] [-> H]]. by exists k.
  - intros [k H]. by exists (k, v).
Qed.
End dict_facts.

(** ** Readers of a well-formed store *)

Section readers.
Context (h : Node.heap) (Hwf : heap_wf h).

Lemma root_parent n : h !! 0 = Some n → Node.parent n = None.
Proof.
  intros H. pose proof (wf_parent h Hwf 0 n H) as Hp.
  destruct (Node.parent n); [lia|done].
Qed.

Lemma root_exists : ∃ n, h !! 0 = Some n ∧ Node.parent n = None.
Proof.
  destruct (lookup_lt_is_Some_2 h 0 (wf_nonempty h Hwf)) as [n Hn].
  exists n. split; [done|]. by apply root_parent.
Qed.

Lemma parent_lt a n p : h !! a = Some n → Node.parent n = Some p → p < a.
Proof. intros H Hp. pose proof (wf_parent h Hwf a n H) as H'. by rewrite Hp in H'. Qed.

Lemma child_gt p n k c :
  h !! p = Some n → PyDict.get k (Node.children n) = Some c → p < c.
Proof.
  intros H Hk. destruct (wf_child h Hwf p n k c H Hk) as (m & Hm & Hpm & _).
  by eapply parent_lt.
Qed.

(** *** path *)

Lemma path_loop_acc fuel a acc :
  Node.path_loop fuel h a acc = (acc ++.) <$> Node.path_loop fuel h a [].
Proof.
  revert a acc. induction fuel as [|fuel IH]; intros a acc; simpl; [done|].
  destruct (h !! a) as [n|]; simpl; [|done].
  destruct (Node.parent n) as [p|]; simpl.
  - rewrite (IH p (acc ++ _)), (IH p [Node.slug n]).
    rewrite <-option_fmap_compose. apply option_fmap_ext.
    intros l. simpl. by rewrite <-app_assoc.
  - by rewrite app_nil_r.
Qed.

Lemma path_loop_fuel fuel fuel' a :
  a < fuel → a < fuel' →
  Node.path_loop fuel h a [] = Node.path_loop fuel' h a [].
Proof.
  revert fuel' a. induction fuel as [|fuel IH]; intros [|fuel'] a ??; try lia.
  simpl. destruct (h !! a) as [n|] eqn:Hn; simpl; [|done].
  destruct (Node.parent n) as [p|] eqn:Hp; simpl; [|done].
  pose proof (parent_lt a n p Hn Hp).
  rewrite (path_loop_acc fuel), (path_loop_acc fuel').
  f_equal. apply IH; lia.
Qed.

Lemma path_unfold a n :
  h !! a = Some n →
  Node.path h a =
    match Node.parent n with
    | None => Some []
    | Some p => (λ l, l ++ [Node.slug n]) <$> Node.path h p
    end.
Proof.
  intros Hn. unfold Node.path. simpl. rewrite Hn. simpl.
  destruct (Node.parent n) as [p|] eqn:Hp; simpl; [|done].
  pose proof (parent_lt a n p Hn Hp).
  pose proof (lookup_lt_Some _ _ _ Hn).
  rewrite path_loop_acc, (path_loop_fuel (length h) (S (length h))) by lia.
  rewrite <-!option_fmap_compose. apply option_fmap_ext.
  intros l. simpl. by rewrite reverse_cons.
Qed.

Lemma path_total a : a < length h → is_Some (Node.path h a).
Proof.
  induction (lt_wf a) as [a _ IH]. intros Ha.
  destruct (lookup_lt_is_Some_2 h a Ha) as [n Hn].
  rewrite (path_unfold a n Hn).
  destruct (Node.parent n) as [p|] eqn:Hp; [|done].
  pose proof (parent_lt a n p Hn Hp).
  destruct (IH p) as [l ->]; [lia..|]. done.
Qed.

(** *** node lookup *)

Lemma descend_snoc r sl k :
  Node.descend h r (sl ++ [k]) =
    match Node.descend h r sl with
    | Some (Some a) => n ← h !! a; Some (PyDict.get k (Node.children n))
    | o => o
    end.
Proof.
  revert r. induction sl as [|k' sl IH]; intros r; simpl.
  - destruct (h !! r) as [n|]; simpl; [|done].
    by destruct (PyDict.get k (Node.children n)).
  - destruct (h !! r) as [n|]; simpl; [|done].
    destruct (PyDict.get k' (Node.children n)); [apply IH|done].
Qed.

Lemma descend_path sl a :
  Node.descend h 0 sl = Some (Some a) → Node.path h a = Some sl.
Proof.
  revert a. induction sl as [|k sl IH] using rev_ind; intros a.
  - simpl. intros [= <-]. destruct root_exists as (n & Hn & Hp).
    by rewrite (path_unfold 0 n Hn), Hp.
  - rewrite descend_snoc.
    destruct (Node.descend h 0 sl) as [[b|]|] eqn:Hb; [|done..].
    destruct (h !! b) as [nb|] eqn:Hnb; simpl; [|done].
    intros [= Hk]. destruct (wf_child h Hwf b nb k a Hnb Hk) as (m & Hm & Hpm & Hsl).
    rewrite (path_unfold a m Hm), Hpm, (IH b eq_refl). simpl. by rewrite Hsl.
Qed.

Lemma descend_in_tree sl a :
  Node.descend h 0 sl = Some (Some a) → in_tree h a.
Proof.
  revert a. induction sl as [|k sl IH] using rev_ind; intros a.
  - simpl. intros [= <-]. apply rtc_refl.
  - rewrite descend_snoc.
    destruct (Node.descend h 0 sl) as [[b|]|] eqn:Hb; [|done..].
    destruct (h !! b) as [nb|] eqn:Hnb; simpl; [|done].
    intros [= Hk]. eapply rtc_r; [by apply IH|].
    exists nb, k. split; [done|]. by apply get_Some_elem.
Qed.

Lemma in_tree_descend a :
  in_tree h a → ∃ sl, Node.descend h 0 sl = Some (Some a).
Proof.
  revert a. apply rtc_ind_r; [by exists []|].
  intros b a _ (n & k & Hn & Hk) [sl IH].
  - exists (sl ++ [k]). rewrite descend_snoc, IH. simpl. rewrite Hn. simpl.
    f_equal. apply elem_get; [|done]. by eapply wf_keys.
Qed.

Lemma in_tree_path a :
  in_tree h a → ∃ sl, Node.path h a = Some sl ∧ Node.descend h 0 sl = Some (Some a).
Proof.
  intros [sl Hsl]%in_tree_descend. exists sl. split; [|done].
  by apply descend_path.
Qed.

Lemma in_tree_lookup a : in_tree h a → is_Some (h !! a).
Proof.
  revert a. apply rtc_ind_r.
  { destruct root_exists as (n & Hn & _). eauto. }
  intros b a _ (n & k & Hn & Hk) _.
  - apply elem_get in Hk; [|by eapply wf_keys].
    destruct (wf_child h Hwf b n k a Hn Hk) as (m & Hm & _). eauto.
Qed.

(** *** inherit *)

Lemma inherit_loop_step fuel a n key dflt :
  h !! a = Some n →
  Node.inherit_loop (S fuel) h (Some a) key dflt =
    match Node.data n !! key with
    | Some v => Some v
    | None => Node.inherit_loop fuel h (Node.parent n) key dflt
    end.
Proof. intros Hn. simpl. by rewrite Hn. Qed.

Lemma inherit_loop_fuel fuel fuel' a key dflt :
  S a < fuel → S a < fuel' →
  Node.inherit_loop fuel h (Some a) key dflt
  = Node.inherit_loop fuel' h (Some a) key dflt.
Proof.
  revert fuel' a. induction fuel as [|fuel IH]; intros [|fuel'] a ??; try lia.
  simpl. destruct (h !! a) as [n|] eqn:Hn; simpl; [|done].
  destruct (Node.data n !! key); [done|].
  destruct (Node.parent n) as [p|] eqn:Hp.
  - pose proof (parent_lt a n p Hn Hp). apply IH; lia.
  - destruct fuel, fuel'; try lia. done.
Qed.

Lemma inherit_unfold a n key dflt :
  h !! a = Some n →
  Node.inherit h a key dflt =
    match Node.data n !! key with
    | Some v => Some v
    | None =>
        match Node.parent n with
        | Some p => Node.inherit h p key dflt
        | None => Some dflt
        end
    end.
Proof.
  intros Hn. unfold Node.inherit. rewrite (inherit_loop_step _ a n) by done.
  destruct (Node.data n !! key); [done|].
  destruct (Node.parent n) as [p|] eqn:Hp; [|done].
  pose proof (parent_lt a n p Hn Hp).
  pose proof (lookup_lt_Some _ _ _ Hn).
  apply inherit_loop_fuel; lia.
Qed.

Lemma nearest_total key a : a < length h → ∃ r, nearest h key a r.
Proof.
  induction (lt_wf a) as [a _ IH]. intros Ha.
  destruct (lookup_lt_is_Some_2 h a Ha) as [n Hn].
  destruct (Node.data n !! key) as [v|] eqn:Hv.
  { exists (Some v). by eapply nearest_here. }
  destruct (Node.parent n) as [p|] eqn:Hp.
  - pose proof (parent_lt a n p Hn Hp).
    destruct (IH p) as [r Hr]; [lia..|].
    exists r. by eapply nearest_up.
  - exists None. by eapply nearest_none.
Qed.

Lemma nearest_inherit key dflt a r :
  nearest h key a r → Node.inherit h a key dflt = Some (default dflt r).
Proof.
  induction 1 as [a n v Hn Hv|a n p r Hn Hv Hp _ IH|a n Hn Hv Hp];
    rewrite (inherit_unfold a n _ _ Hn), Hv; [done|..]; by rewrite Hp.
Qed.

Lemma nearest_unique key a r r' :
  nearest h key a r → nearest h key a r' → r = r'.
Proof.
  intros H. revert r'.
  induction H as [a n v Hn Hv|a n p r Hn Hv Hp _ IH|a n Hn Hv Hp];
    intros r'; inversion 1; simplify_eq; auto.
Qed.
End readers.

(** *** childlist *)

Lemma StronglySorted_strict {A} (R : relation A) `{!AntiSymm (=) R} (l : list A) :
  StronglySorted R l → NoDup l → StronglySorted (strict R) l.
Proof.
  induction 1 as [|x l Hl IH Hx]; intros Hnd; [constructor|].
  apply NoDup_cons in Hnd as [Hxl Hnd]. constructor; [auto|].
  rewrite Forall_forall in Hx |- *. intros y Hy. split; [auto|].
  intros Hyx. apply Hxl. by rewrite (anti_symm R x y (Hx y Hy) Hyx).
Qed.

Lemma values_by_keys (d : PyDict.t addr) :
  NoDup (PyDict.keys d) →
  PyDict.values d = (λ k, default 0 (PyDict.get k d)) <$> PyDict.keys d.
Proof.
  intros Hnd. unfold PyDict.values, PyDict.keys.
  rewrite <-list_fmap_compose. apply Forall_fmap_ext_1, Forall_forall.
  intros [k v] Hkv. simpl. by rewrite (elem_get k v d Hnd Hkv).
Qed.

Lemma childlist_spec h a n :
  heap_wf h → h !! a = Some n →
  ∃ l, Node.childlist h a = Some l
       ∧ l ≡ₚ PyDict.values (Node.children n)
       ∧ slug_at h <$> l = Node.sorted (PyDict.keys (Node.children n)).
Proof.
  intros Hwf Hn. unfold Node.childlist. rewrite Hn. simpl.
  set (d := Node.children n). set (ks := Node.sorted (PyDict.keys d)).
  assert (Hperm : ks ≡ₚ PyDict.keys d) by apply merge_sort_Permutation.
  assert (Hall : Forall (λ k, is_Some (PyDict.get k d)) ks).
  { apply Forall_forall. intros k Hk. apply get_is_Some_keys. by rewrite <-Hperm. }
  destruct (mapM_is_Some_2 (λ k, PyDict.get k d) ks) as [l Hl].
  { eapply Forall_impl; [exact Hall|]. done. }
  exists l. split; [done|]. apply mapM_Some_1 in Hl.
  assert (Hlk : l = (λ k, default 0 (PyDict.get k d)) <$> ks).
  { clear -Hl. induction Hl as [|k c ks l Hk _ IH]; [done|].
    simpl. rewrite Hk. simpl. by f_equal. }
  split.
  - rewrite Hlk, values_by_keys by (by eapply wf_keys). by rewrite Hperm.
  - clear Hlk Hall Hperm. induction Hl as [|k c ks' l Hk _ IH]; [done|].
    simpl. f_equal; [|done].
    destruct (wf_child h Hwf a n k c Hn Hk) as (m & Hm & _ & Hs).
    unfold slug_at. by rewrite Hm.
Qed.

(** ** Running the builder *)

Lemma bind_Ok {A B} (m : M A) (k : A → M B) s a s' :
  m s = (Ok a, s') → bind m k s = k a s'.
Proof. unfold bind. by intros ->. Qed.

Lemma bind_Raise {A B} (m : M A) (k : A → M B) s e s' :
  m s = (Raise e, s') → bind m k s = (Raise e, s').
Proof. unfold bind. by intros ->. Qed.

Lemma update_node_Ok a f s n :
  heap s !! a = Some n →
  update_node a f s = (Ok tt, set_heap (<[a := f n]> (heap s)) s).
Proof. unfold update_node. by intros ->. Qed.

Lemma set_heap_heap h s : heap (set_heap h s) = h.
Proof. done. Qed.

Lemma set_heap_twice h h' s : set_heap h (set_heap h' s) = set_heap h s.
Proof. done. Qed.

Lemma store_file_run f t m e s n :
  heap s !! f = Some n →
  (setitem f "text" (VStr t) ;;; update f m ;;;
   update_node f (Node.with_ext e)) s
  = (Ok tt, set_heap (<[f := stored t m e n]> (heap s)) s).
Proof.
  intros Hn. pose proof (lookup_lt_Some _ _ _ Hn) as Hlt.
  unfold setitem, update.
  erewrite bind_Ok; [|by apply update_node_Ok].
  erewrite bind_Ok; [|apply update_node_Ok; simpl; by apply list_lookup_insert_eq].
  erewrite update_node_Ok;
    [|simpl; apply list_lookup_insert_eq; by rewrite length_insert].
  unfold set_heap. simpl. by rewrite !list_insert_insert_eq.
Qed.

Lemma attach_run {A} (K : M A) c d sl st s nc nd :
  c ≠ d →
  heap s !! c = Some nc →
  heap s !! d = Some nd →
  (update_node c (Node.with_slug sl) ;;;
   update_node c (Node.with_stem st) ;;;
   update_node c (Node.with_parent (Some d)) ;;;
   update_node d (Node.with_children (PyDict.set sl c)) ;;; K) s
  = K (set_heap (<[d := Node.with_children (PyDict.set sl c) nd]>
                   (<[c := linked sl st d nc]> (heap s))) s).
Proof.
  intros Hcd Hc Hd. pose proof (lookup_lt_Some _ _ _ Hc) as Hlt.
  erewrite bind_Ok; [|by apply update_node_Ok].
  erewrite bind_Ok;
    [|apply update_node_Ok; rewrite set_heap_heap; by apply list_lookup_insert_eq].
  rewrite set_heap_heap, set_heap_twice, list_insert_insert_eq.
  erewrite bind_Ok;
    [|apply update_node_Ok; rewrite set_heap_heap; by apply list_lookup_insert_eq].
  rewrite set_heap_heap, set_heap_twice, list_insert_insert_eq.
  erewrite bind_Ok;
    [|apply update_node_Ok; rewrite set_heap_heap, list_lookup_insert_ne by done;
      exact Hd].
  by rewrite set_heap_heap, set_heap_twice.
Qed.

Lemma new_node_run {A} (K : addr → M A) s :
  bind new_node K s = K (length (heap s)) (set_heap (heap s ++ [Node.new]) s).
Proof. done. Qed.

(** *** Store updates that keep the store well formed *)

Lemma heap_wf_update h a n n' :
  heap_wf h → h !! a = Some n →
  Node.parent n' = Node.parent n → Node.slug n' = Node.slug n →
  Node.children n' = Node.children n → is_Some (Node.data n' !! "text") →
  heap_wf (<[a := n']> h).
Proof.
  intros Hwf Hn Hp Hs Hc Ht. pose proof (lookup_lt_Some _ _ _ Hn) as Hlt.
  assert (Hlk : ∀ b m', <[a := n']> h !! b = Some m' →
            ∃ m, h !! b = Some m ∧ Node.parent m' = Node.parent m
                 ∧ Node.slug m' = Node.slug m ∧ Node.children m' = Node.children m
                 ∧ is_Some (Node.data m' !! "text")).
  { intros b m'. destruct (decide (a = b)) as [<-|Hne].
    - rewrite list_lookup_insert_eq by done. intros [= <-]. eauto 10.
    - rewrite list_lookup_insert_ne by done. intros Hb. exists m'.
      repeat split; [done|]. by eapply wf_text. }
  split.
  - rewrite length_insert. by eapply wf_nonempty.
  - intros b m' (m & Hm & -> & _)%Hlk. by eapply wf_parent.
  - intros b m' k c (m & Hm & _ & _ & -> & _)%Hlk Hk.
    destruct (wf_child h Hwf b m k c Hm Hk) as (mc & Hmc & Hpc & Hsc).
    destruct (decide (a = c)) as [<-|Hne].
    + exists n'. rewrite list_lookup_insert_eq by done. simplify_eq. by rewrite Hp, Hs.
    + exists mc. by rewrite list_lookup_insert_ne.
  - intros b m' (m & Hm & _ & _ & -> & _)%Hlk. by eapply wf_keys.
  - intros b m' (m & Hm & _ & _ & _ & Ht')%Hlk. done.
Qed.

Lemma stored_text t m e n : is_Some (Node.data (stored t m e n) !! "text").
Proof.
  simpl. apply lookup_union_is_Some. right. rewrite lookup_insert_eq. eauto.
Qed.

(** Linking a fresh node below [d]. *)
Lemma heap_wf_attach_new h d nd sl st :
  heap_wf h → h !! d = Some nd →
  heap_wf (<[d := Node.with_children (PyDict.set sl (length h)) nd]>
             (h ++ [linked sl st d Node.new])).
Proof.
  intros Hwf Hd. pose proof (lookup_lt_Some _ _ _ Hd) as Hlt.
  set (c := length h). set (nd' := Node.with_children _ nd).
  set (nc := linked sl st d Node.new).
  assert (Hlk : ∀ b m', <[d := nd']> (h ++ [nc]) !! b = Some m' →
            (b = d ∧ m' = nd') ∨ (b = c ∧ m' = nc) ∨ (b ≠ d ∧ b ≠ c ∧ h !! b = Some m')).
  { intros b m'. destruct (decide (d = b)) as [<-|Hne].
    - rewrite list_lookup_insert_eq by (rewrite length_app; lia). intros [= <-]. by left.
    - rewrite list_lookup_insert_ne by done. destruct (decide (b = c)) as [->|Hnc].
      + unfold c. rewrite lookup_app_r, Nat.sub_diag by lia. intros [= <-]. right. by left.
      + intros Hb. right. right. pose proof (lookup_lt_Some _ _ _ Hb) as Hb'.
        rewrite length_app in Hb'. simpl in Hb'.
        rewrite lookup_app_l in Hb by (unfold c in Hnc; lia). done. }
  assert (Hkl : ∀ b m, h !! b = Some m → b ≠ d →
            <[d := nd']> (h ++ [nc]) !! b = Some m).
  { intros b m Hb Hne. rewrite list_lookup_insert_ne by done.
    by apply lookup_app_l_Some. }
  assert (Hdl : <[d := nd']> (h ++ [nc]) !! d = Some nd').
  { apply list_lookup_insert_eq. rewrite length_app. lia. }
  assert (Hcl : <[d := nd']> (h ++ [nc]) !! c = Some nc).
  { rewrite list_lookup_insert_ne by (unfold c; lia).
    unfold c. by rewrite lookup_app_r, Nat.sub_diag by lia. }
  split.
  - rewrite length_insert, length_app. lia.
  - intros b m' [[-> ->]|[[-> ->]|(_ & _ & Hb)]]%Hlk.
    + apply (wf_parent h Hwf d nd Hd).
    + simpl. unfold c. lia.
    + by eapply wf_parent.
  - intros b m' k x [[-> ->]|[[-> ->]|(Hbd & Hbc & Hb)]]%Hlk Hk.
    + simpl in Hk. destruct (decide (sl = k)) as [->|Hne].
      * rewrite get_set_eq in Hk. injection Hk as <-. by exists nc.
      * rewrite get_set_ne in Hk by done.
        destruct (wf_child h Hwf d nd k x Hd Hk) as (mx & Hmx & Hpx & Hsx).
        exists mx. split; [|done]. apply Hkl; [done|].
        intros ->. pose proof (parent_lt h Hwf d mx d Hmx Hpx). lia.
    + done.
    + destruct (wf_child h Hwf b m' k x Hb Hk) as (mx & Hmx & Hpx & Hsx).
      destruct (decide (x = d)) as [->|Hxd].
      * exists nd'. simplify_eq. done.
      * exists mx. split; [|done]. by apply Hkl.
  - intros b m' [[-> ->]|[[-> ->]|(_ & _ & Hb)]]%Hlk.
    + simpl. apply NoDup_keys_set. by eapply wf_keys.
    + apply NoDup_nil_2.
    + by eapply wf_keys.
  - intros b m' [[-> ->]|[[-> ->]|(_ & _ & Hb)]]%Hlk.
    + simpl. by eapply wf_text.
    + simpl. rewrite lookup_insert_ne by done. rewrite lookup_insert_eq. eauto.
    + by eapply wf_text.
Qed.

Section Builder_facts.
Context (slugify : string → string) (registered : string → bool).

Lemma lookup_run {A} (K : option addr → M A) d sl s nd :
  heap_wf (heap s) → in_tree (heap s) d → cache s = Some 0 →
  heap s !! d = Some nd →
  (p <- read (λ h, Node.path h d) ;; found <- node (p ++ [sl]) ;; K found) s
  = K (PyDict.get sl (Node.children nd)) s.
Proof.
  intros Hwf Hin Hc Hd.
  destruct (in_tree_path _ Hwf d Hin) as (p & Hp & Hdesc).
  unfold bind at 1. unfold read at 1. rewrite Hp.
  unfold bind at 1. unfold node, bind, cached_root, read. rewrite Hc.
  by rewrite descend_snoc, Hdesc; simpl; rewrite Hd.
Qed.

Lemma load_run {A} (K : string * gmap string value → M A) content s :
  (tm <- loader_load content ;; K tm) s =
    match content with
    | Some tm => K tm (loaded s)
    | None => (Raise OSError, loaded s)
    end.
Proof. by destruct content. Qed.

(** [parse_node_file] is: select and link the target node, load, store. *)
Lemma parse_node_file_run d fstem fsuffix content s nd :
  heap_wf (heap s) → in_tree (heap s) d → cache s = Some 0 →
  heap s !! d = Some nd →
  let '(f, h1) := file_target (slugify fstem) fstem d (heap s) in
  ∃ nf, h1 !! f = Some nf ∧
  parse_node_file slugify d fstem fsuffix content s =
    match content with
    | Some (t, m) =>
        (Ok tt, set_heap (<[f := stored t m (strip_dots fsuffix) nf]> h1) (loaded s))
    | None => (Raise OSError, set_heap h1 (loaded s))
    end.
Proof.
  intros Hwf Hin Hc Hd. unfold file_target, parse_node_file.
  destruct (decide (slugify fstem = "index")) as [Hidx|Hidx].
  { exists nd. split; [done|]. unfold bind at 1. unfold ret at 1.
    rewrite load_run. destruct content as [[t m]|]; [|by destruct s].
    rewrite (store_file_run d t m _ _ nd) by done. done. }
  rewrite Hd. set (sl := slugify fstem).
  destruct (PyDict.get sl (Node.children nd)) as [c|] eqn:Hget.
  - destruct (wf_child _ Hwf d nd sl c Hd Hget) as (nc & Hnc & Hpc & Hsc).
    pose proof (parent_lt _ Hwf c nc d Hnc Hpc) as Hlt.
    pose proof (lookup_lt_Some _ _ _ Hnc) as Hclt.
    exists (Node.with_stem fstem nc). split.
    { by rewrite list_lookup_alter_eq, Hnc. }
    unfold bind at 1. rewrite (lookup_run _ d sl s nd) by done.
    rewrite Hget. unfold bind at 1. unfold ret at 1.
    rewrite (attach_run _ c d sl fstem s nc nd) by (done || lia).
    unfold ret at 1.
    assert (Hh : <[d := Node.with_children (PyDict.set sl c) nd]>
                   (<[c := linked sl fstem d nc]> (heap s))
                 = alter (Node.with_stem fstem) c (heap s)).
    { replace (Node.with_children (PyDict.set sl c) nd) with nd
        by (unfold Node.with_children; rewrite (set_get_id sl c _ Hget);
            by destruct nd).
      replace (linked sl fstem d nc) with (Node.with_stem fstem nc)
        by (destruct nc; simpl in *; by subst).
      rewrite list_insert_id by (by rewrite list_lookup_insert_ne by lia).
      apply list_eq. intros i. destruct (decide (i = c)) as [->|Hne].
      - by rewrite list_lookup_insert_eq, list_lookup_alter_eq, Hnc.
      - by rewrite list_lookup_insert_ne, list_lookup_alter_ne. }
    rewrite Hh, load_run. destruct content as [[t m]|]; [|done].
    rewrite (store_file_run c t m _ _ (Node.with_stem fstem nc)); [done|].
    simpl. by rewrite list_lookup_alter_eq, Hnc.
  - pose proof (lookup_lt_Some _ _ _ Hd) as Hdlt.
    set (c := length (heap s)). set (lk := linked sl fstem d Node.new).
    exists lk. split.
    { rewrite list_lookup_insert_ne by (unfold c; lia).
      unfold c. by rewrite lookup_app_r, Nat.sub_diag by lia. }
    unfold bind at 1. rewrite (lookup_run _ d sl s nd) by done.
    rewrite Hget, new_node_run.
    rewrite (attach_run _ c d sl fstem _ Node.new nd).
    + unfold ret at 1. rewrite set_heap_heap, set_heap_twice.
      replace (<[c := linked sl fstem d Node.new]> (heap s ++ [Node.new]))
        with (heap s ++ [lk]).
      2:{ unfold c. rewrite insert_app_r_alt, Nat.sub_diag by lia. done. }
      rewrite load_run. destruct content as [[t m]|]; [|done].
      rewrite (store_file_run c t m _ _ lk); [done|].
      simpl. rewrite list_lookup_insert_ne by (unfold c; lia).
      unfold c. by rewrite lookup_app_r, Nat.sub_diag by lia.
    + unfold c. lia.
    + rewrite set_heap_heap. unfold c. by rewrite lookup_app_r, Nat.sub_diag by lia.
    + rewrite set_heap_heap. by apply lookup_app_l_Some.
Qed.

(** *** Phases of the builder *)

Lemma builder_step_refl d s :
  heap_wf (heap s) → d < length (heap s) → builder_step d [] s s.
Proof.
  intros Hwf Hd. destruct (lookup_lt_is_Some_2 _ _ Hd) as [n Hn].
  unfold builder_step. split_and!; try done.
  exists n, n. split_and!; try done.
  intros k. rewrite elem_of_nil. tauto.
Qed.

Lemma builder_step_trans d ks1 ks2 s1 s2 s3 :
  builder_step d ks1 s1 s2 → builder_step d ks2 s2 s3 →
  builder_step d (ks1 ++ ks2) s1 s3.
Proof.
  intros (_ & Hc1 & He1 & Hl1 & Hf1 & n1 & n2 & Hn1 & Hn2 & Hp1 & Hs1 & Hk1)
         (Hwf & Hc2 & He2 & Hl2 & Hf2 & n2' & n3 & Hn2' & Hn3 & Hp2 & Hs2 & Hk2).
  simplify_eq. unfold builder_step. split_and!; try congruence; [lia|..].
  - intros a Ha. by rewrite Hf2, Hf1.
  - exists n1, n3. split_and!; try congruence.
    intros k. rewrite Hk2, Hk1, elem_of_app. tauto.
Qed.

Lemma builder_step_keys d ks ks' s s' :
  (∀ k, k ∈ ks ↔ k ∈ ks') → builder_step d ks s s' → builder_step d ks' s s'.
Proof.
  intros Hks (Hwf & Hc & He & Hl & Hf & n & n' & Hn & Hn' & Hp & Hs & Hk).
  unfold builder_step. split_and!; try done.
  exists n, n'. split_and!; try done.
  intros k. rewrite Hk, Hks. tauto.
Qed.

(** Counting a call of a collaborator is not seen by [builder_step]. *)
Lemma builder_step_probe_r d ks s s' s'' :
  heap s'' = heap s' → cache s'' = cache s' → events s'' = events s' →
  builder_step d ks s s' → builder_step d ks s s''.
Proof.
  intros Hh Hc He. unfold builder_step. rewrite Hh, Hc, He. done.
Qed.

Lemma builder_step_probe_l d ks s0 s s' :
  heap s0 = heap s → cache s0 = cache s → events s0 = events s →
  builder_step d ks s s' → builder_step d ks s0 s'.
Proof.
  intros Hh Hc He. unfold builder_step. rewrite Hh, Hc, He. done.
Qed.

Lemma in_tree_frame h h' d :
  heap_wf h → in_tree h d → (∀ a, a < d → h' !! a = h !! a) → in_tree h' d.
Proof.
  intros Hwf Hin. revert d Hin. apply (rtc_ind_r (λ d, _ → in_tree h' d)).
  { intros _. apply rtc_refl. }
  intros p d Hp (n & k & Hn & Hk) IH Hfr.
  apply elem_get in Hk; [|by eapply wf_keys].
  pose proof (child_gt h Hwf p n k d Hn Hk) as Hlt.
  eapply rtc_r.
  - apply IH. intros a Ha. apply Hfr. lia.
  - exists n, k. rewrite Hfr by done. split; [done|]. by apply get_Some_elem.
Qed.

Lemma builder_step_in_tree d ks s s' :
  heap_wf (heap s) → in_tree (heap s) d → builder_step d ks s s' →
  in_tree (heap s') d.
Proof.
  intros Hwf Hin (_ & _ & _ & _ & Hf & _). by eapply in_tree_frame.
Qed.

(** *** The loop over the files *)

Lemma file_target_spec sl st d h nd :
  heap_wf h → h !! d = Some nd →
  let '(f, h1) := file_target sl st d h in
  heap_wf h1 ∧ length h ≤ length h1 ∧ (f = d ∨ d < f) ∧
  (∀ a, a < length h → a ≠ d → a ≠ f → h1 !! a = h !! a) ∧
  ∃ nd1, h1 !! d = Some nd1 ∧
    Node.parent nd1 = Node.parent nd ∧ Node.slug nd1 = Node.slug nd ∧
    Node.children nd1 =
      (if decide (sl = "index") then Node.children nd
       else PyDict.set sl f (Node.children nd)).
Proof.
  intros Hwf Hd. unfold file_target.
  pose proof (lookup_lt_Some _ _ _ Hd) as Hdlt.
  destruct (decide (sl = "index")) as [Hidx|Hidx].
  { split_and!; try done; [by left|]. by exists nd. }
  rewrite Hd. destruct (PyDict.get sl (Node.children nd)) as [c|] eqn:Hget.
  - destruct (wf_child _ Hwf d nd sl c Hd Hget) as (nc & Hnc & Hpc & Hsc).
    pose proof (parent_lt _ Hwf c nc d Hnc Hpc) as Hlt.
    assert (Heq : alter (Node.with_stem st) c h = <[c := Node.with_stem st nc]> h).
    { apply list_eq. intros i. destruct (decide (i = c)) as [->|Hne].
      - rewrite list_lookup_alter_eq, Hnc, list_lookup_insert_eq;
          [done|by eapply lookup_lt_Some].
      - by rewrite list_lookup_alter_ne, list_lookup_insert_ne. }
    rewrite Heq. split_and!.
    + eapply heap_wf_update; try done. simpl. by eapply wf_text.
    + by rewrite length_insert.
    + right. done.
    + intros a _ _ Ha. by rewrite list_lookup_insert_ne.
    + exists nd. rewrite list_lookup_insert_ne by lia. split_and!; try done.
      by rewrite (set_get_id sl c).
  - split_and!.
    + by apply heap_wf_attach_new.
    + rewrite length_insert, length_app. lia.
    + right. done.
    + intros a Ha Had _. rewrite list_lookup_insert_ne by done.
      by rewrite lookup_app_l.
    + eexists. split; [apply list_lookup_insert_eq; rewrite length_app; lia|].
      done.
Qed.

Lemma file_loop_body_spec d e s :
  heap_wf (heap s) → in_tree (heap s) d → cache s = Some 0 →
  match file_loop_body slugify registered d e s with
  | (Ok _, s') => builder_step d (option_list (file_slug slugify registered e)) s s'
  | (Raise x, _) => x = OSError
  end.
Proof.
  intros Hwf Hin Hc.
  destruct (in_tree_lookup _ Hwf d Hin) as [nd Hd].
  pose proof (lookup_lt_Some _ _ _ Hd) as Hdlt.
  destruct e as [dstem lst|fstem fsuffix content|ostem]; simpl;
    try (by apply builder_step_refl).
  destruct (startswith_dot fstem); simpl; [by apply builder_step_refl|].
  destruct (registered (strip_dots fsuffix)); simpl; [|by apply builder_step_refl].
  pose proof (parse_node_file_run d fstem fsuffix content s nd Hwf Hin Hc Hd) as Hrun.
  pose proof (file_target_spec (slugify fstem) fstem d (heap s) nd Hwf Hd) as Htgt.
  destruct (file_target (slugify fstem) fstem d (heap s)) as [f h1].
  destruct Hrun as (nf & Hnf & ->).
  destruct content as [[t m]|]; [|done].
  destruct Htgt as (Hwf1 & Hlen & Hfd & Hfr & nd1 & Hd1 & Hp1 & Hs1 & Hch1).
  pose proof (lookup_lt_Some _ _ _ Hnf) as Hflt.
  unfold builder_step. simpl. split_and!; try done.
  - eapply heap_wf_update; try done. apply stored_text.
  - by rewrite length_insert.
  - intros a Ha. rewrite list_lookup_insert_ne by lia. apply Hfr; lia.
  - assert (∃ nd', <[f := stored t m (strip_dots fsuffix) nf]> h1 !! d = Some nd'
              ∧ Node.parent nd' = Node.parent nd1 ∧ Node.slug nd' = Node.slug nd1
              ∧ Node.children nd' = Node.children nd1) as (nd' & Hd' & Hp' & Hs' & Hch').
    { destruct (decide (f = d)) as [->|Hne].
      - rewrite list_lookup_insert_eq by done. simplify_eq. eauto.
      - rewrite list_lookup_insert_ne by done. eauto. }
    exists nd, nd'. split_and!; try congruence.
    intros k. rewrite Hch', Hch1.
    destruct (decide (slugify fstem = "index")) as [Hidx|Hidx].
    + rewrite bool_decide_eq_true_2 by done. simpl. rewrite elem_of_nil. tauto.
    + rewrite bool_decide_eq_false_2 by done. simpl.
      rewrite keys_set, list_elem_of_singleton. tauto.
Qed.

Lemma file_loop_spec d es : ∀ s,
  heap_wf (heap s) → in_tree (heap s) d → cache s = Some 0 →
  match for_each (file_loop_body slugify registered d) es s with
  | (Ok _, s') => builder_step d (omap (file_slug slugify registered) es) s s'
  | (Raise x, _) => x = OSError
  end.
Proof.
  induction es as [|e es IH]; intros s Hwf Hin Hc.
  - simpl. apply builder_step_refl; [done|].
    destruct (in_tree_lookup _ Hwf d Hin) as [nd Hd]. by eapply lookup_lt_Some.
  - simpl. unfold bind.
    pose proof (file_loop_body_spec d e s Hwf Hin Hc) as He.
    destruct (file_loop_body slugify registered d e s) as [[[]|x] s1]; [|done].
    assert (Hwf1 : heap_wf (heap s1)) by apply He.
    assert (Hin1 : in_tree (heap s1) d)
      by apply (builder_step_in_tree d _ s s1 Hwf Hin He).
    assert (Hc1 : cache s1 = Some 0) by (destruct He as (_ & -> & _); done).
    specialize (IH s1 Hwf1 Hin1 Hc1).
    destruct (for_each _ es s1) as [[[]|x] s2]; [|done].
    pose proof (builder_step_trans _ _ _ _ _ _ He IH) as Hs.
    eapply builder_step_keys; [|exact Hs].
    intros k. by destruct (file_slug slugify registered e).
Qed.

(** *** The loop over the subdirectories *)

Lemma bind_ext {A B} (m : M A) (k1 k2 : A → M B) s :
  (∀ a s', k1 a s' = k2 a s') → bind m k1 s = bind m k2 s.
Proof. intros H. unfold bind. destruct (m s) as [[a|e] s']; [apply H|done]. Qed.

(** The round for a directory entry links a new child node and calls
    [parse_node_directory] on it. *)
Lemma dir_loop_body_EDir d dstem lst s :
  dir_loop_body slugify registered d (EDir dstem lst) s =
    (childnode <- new_node ;;
     update_node childnode (Node.with_slug (slugify dstem)) ;;;
     update_node childnode (Node.with_stem dstem) ;;;
     update_node childnode (Node.with_parent (Some d)) ;;;
     update_node d (Node.with_children (PyDict.set (slugify dstem) childnode)) ;;;
     parse_node_directory slugify registered childnode lst) s.
Proof.
  simpl. apply bind_ext. intros c s1.
  do 4 (apply bind_ext; intros _ ?).
  unfold parse_node_directory, iterdir, bind, count_scan, ret, raise.
  by destruct lst.
Qed.

Lemma dir_post_step d e s s' :
  dir_post slugify registered d e s s' →
  builder_step d (option_list (dir_slug slugify e)) s s'.
Proof.
  intros (Hwf & Hc & He & Hl & Hf & n & Hn & Hd).
  pose proof (lookup_lt_Some _ _ _ Hn) as Hdlt.
  unfold builder_step. split_and!; try done.
  { intros a Ha. apply Hf; lia. }
  destruct e as [dstem lst|fstem fsuffix content|ostem]; simpl.
  - destruct Hd as [Hd _]. eexists n, _. split_and!; try done.
    intros k. simpl. rewrite keys_set, list_elem_of_singleton. tauto.
  - exists n, n. split_and!; try done. intros k. rewrite elem_of_nil. tauto.
  - exists n, n. split_and!; try done. intros k. rewrite elem_of_nil. tauto.
Qed.

Lemma dir_loop_spec d es :
  Forall (dir_loop_body_ok slugify registered) es →
  ∀ s, builder_pre d s →
  match for_each (dir_loop_body slugify registered d) es s with
  | (Ok _, s') => builder_step d (omap (dir_slug slugify) es) s s'
  | (Raise x, _) => x = OSError
  end.
Proof.
  induction 1 as [|e es He _ IH]; intros s (Hwf & Hin & Hc).
  - simpl. apply builder_step_refl; [done|].
    destruct (in_tree_lookup _ Hwf d Hin) as [nd Hd]. by eapply lookup_lt_Some.
  - simpl. unfold bind. specialize (He d s (conj Hwf (conj Hin Hc))).
    destruct (dir_loop_body slugify registered d e s) as [[[]|x] s1]; [|done].
    apply dir_post_step in He.
    assert (Hwf1 : heap_wf (heap s1)) by apply He.
    assert (Hin1 : in_tree (heap s1) d)
      by apply (builder_step_in_tree d _ s s1 Hwf Hin He).
    assert (Hc1 : cache s1 = Some 0) by (destruct He as (_ & -> & _); done).
    specialize (IH s1 (conj Hwf1 (conj Hin1 Hc1))).
    destruct (for_each _ es s1) as [[[]|x] s2]; [|done].
    pose proof (builder_step_trans _ _ _ _ _ _ He IH) as Hs.
    eapply builder_step_keys; [|exact Hs].
    intros k. by destruct (dir_slug slugify e).
Qed.

Lemma parse_node_directory_spec d lst s :
  (∀ es, lst = Some es → Forall (dir_loop_body_ok slugify registered) es) →
  builder_pre d s →
  match parse_node_directory slugify registered d lst s with
  | (Ok _, s') =>
      ∃ es, lst = Some es ∧
        builder_step d (child_slugs slugify registered es) s s'
  | (Raise x, _) => x = OSError
  end.
Proof.
  intros Hes (Hwf & Hin & Hc). unfold parse_node_directory.
  unfold bind at 1. unfold iterdir at 1. unfold bind at 1.
  unfold count_scan at 1. destruct lst as [es|]; [|done]. unfold ret at 1.
  specialize (Hes es eq_refl). unfold bind at 1.
  pose proof (dir_loop_spec d es Hes (scanned s) (conj Hwf (conj Hin Hc))) as H1.
  fold (scanned s).
  destruct (for_each (dir_loop_body slugify registered d) es (scanned s))
    as [[[]|x] s1]; [|done].
  assert (Hwf1 : heap_wf (heap s1)) by apply H1.
  assert (Hin1 : in_tree (heap s1) d)
    by apply (builder_step_in_tree d _ (scanned s) s1 Hwf Hin H1).
  assert (Hc1 : cache s1 = Some 0) by (destruct H1 as (_ & -> & _); done).
  unfold bind at 1. unfold iterdir at 1. unfold bind at 1.
  unfold count_scan at 1. unfold ret at 1. fold (scanned s1).
  pose proof (file_loop_spec d es (scanned s1) Hwf1 Hin1 Hc1) as H2.
  destruct (for_each (file_loop_body slugify registered d) es (scanned s1))
    as [[[]|x] s2]; [|done].
  exists es. split; [done|].
  apply (builder_step_probe_l _ _ (scanned s) s) in H1; try done.
  apply (builder_step_probe_l _ _ (scanned s1) s1) in H2; try done.
  by eapply builder_step_trans.
Qed.

Lemma dir_loop_body_EDir_ok dstem lst :
  (∀ es, lst = Some es → Forall (dir_loop_body_ok slugify registered) es) →
  dir_loop_body_ok slugify registered (EDir dstem lst).
Proof.
  intros Hes d s (Hwf & Hin & Hc).
  destruct (in_tree_lookup _ Hwf d Hin) as [nd Hd].
  pose proof (lookup_lt_Some _ _ _ Hd) as Hdlt.
  rewrite dir_loop_body_EDir, new_node_run.
  set (c := length (heap s)). set (sl := slugify dstem).
  rewrite (attach_run _ c d sl dstem _ Node.new nd); cycle 1.
  { unfold c. lia. }
  { rewrite set_heap_heap. unfold c. by rewrite lookup_app_r, Nat.sub_diag by lia. }
  { rewrite set_heap_heap. by apply lookup_app_l_Some. }
  rewrite set_heap_heap, set_heap_twice.
  replace (<[c := linked sl dstem d Node.new]> (heap s ++ [Node.new]))
    with (heap s ++ [linked sl dstem d Node.new])
    by (unfold c; by rewrite insert_app_r_alt, Nat.sub_diag by lia).
  set (nd' := Node.with_children (PyDict.set sl c) nd).
  set (lk := linked sl dstem d Node.new).
  set (s1 := set_heap (<[d := nd']> (heap s ++ [lk])) s).
  assert (Hwf1 : heap_wf (heap s1)) by by apply heap_wf_attach_new.
  assert (Hd1 : heap s1 !! d = Some nd').
  { simpl. apply list_lookup_insert_eq. rewrite length_app. lia. }
  assert (Hc1 : heap s1 !! c = Some lk).
  { simpl. rewrite list_lookup_insert_ne by (unfold c; lia).
    unfold c. by rewrite lookup_app_r, Nat.sub_diag by lia. }
  assert (Hold : ∀ a, a < c → a ≠ d → heap s1 !! a = heap s !! a).
  { intros a Ha Had. simpl. rewrite list_lookup_insert_ne by done.
    by rewrite lookup_app_l. }
  assert (Hin1 : in_tree (heap s1) c).
  { eapply rtc_r.
    - eapply (in_tree_frame (heap s)); [done..|]. intros a Ha. apply Hold; lia.
    - exists nd', sl. split; [done|]. apply get_Some_elem. simpl. apply get_set_eq. }
  pose proof (parse_node_directory_spec c lst s1 Hes (conj Hwf1 (conj Hin1 Hc)))
    as Hp.
  destruct (parse_node_directory slugify registered c lst s1) as [[[]|x] s2];
    [|done].
  destruct Hp as (es & -> & Hwf2 & Hc2 & He2 & Hl2 & Hf2
                  & n & n' & Hn & Hn' & Hp' & Hs' & Hk').
  assert (Hlen1 : length (heap s1) = S c).
  { simpl. rewrite length_insert, length_app. simpl. unfold c. lia. }
  rewrite Hc1 in Hn. injection Hn as <-.
  unfold dir_post. fold c. split_and!; try done.
  - lia.
  - intros a Ha Had. rewrite Hf2 by done. by apply Hold.
  - exists nd. split; [done|]. split.
    + rewrite Hf2 by (unfold c; lia). done.
    + exists n', es. split_and!; try done.
      intros k. rewrite Hk'. simpl. rewrite elem_of_nil. tauto.
Qed.

Lemma dir_loop_body_total e : dir_loop_body_ok slugify registered e.
Proof.
  induction e as [dstem|dstem es IH|fstem fsuffix content|ostem]
    using Entry_nested_ind.
  - apply dir_loop_body_EDir_ok. done.
  - apply dir_loop_body_EDir_ok. by intros ? [= <-].
  - intros d s (Hwf & Hin & Hc). simpl.
    destruct (in_tree_lookup _ Hwf d Hin) as [nd Hd].
    unfold dir_post. split_and!; try done. by exists nd.
  - intros d s (Hwf & Hin & Hc). simpl.
    destruct (in_tree_lookup _ Hwf d Hin) as [nd Hd].
    unfold dir_post. split_and!; try done. by exists nd.
Qed.

(** [parse_node_directory] on a node of the tree either raises the
    [OSError] of a collaborator or completes a phase of the builder. *)
Lemma parse_node_directory_ok d lst s :
  builder_pre d s →
  match parse_node_directory slugify registered d lst s with
  | (Ok _, s') =>
      ∃ es, lst = Some es ∧
        builder_step d (child_slugs slugify registered es) s s'
  | (Raise x, _) => x = OSError
  end.
Proof.
  apply parse_node_directory_spec. intros es _.
  apply Forall_forall. intros e _. apply dir_loop_body_total.
Qed.

(** *** One slot of a directory node through the two loops *)

Lemma for_each_cons_inv {A} (body : A → M unit) x l s s' :
  for_each body (x :: l) s = (Ok tt, s') →
  ∃ s1, body x s = (Ok tt, s1) ∧ for_each body l s1 = (Ok tt, s').
Proof.
  simpl. unfold bind at 1. destruct (body x s) as [[[]|e] s1]; [|done]. eauto.
Qed.

Lemma dir_step_pre d e s s' :
  builder_pre d s →
  dir_loop_body slugify registered d e s = (Ok tt, s') →
  builder_pre d s' ∧ dir_post slugify registered d e s s'.
Proof.
  intros Hpre Hrun. pose proof (dir_loop_body_total e d s Hpre) as H.
  rewrite Hrun in H. split; [|done]. destruct Hpre as (Hwf & Hin & Hc).
  pose proof (dir_post_step d e s s' H) as Hstep.
  split_and!; [apply Hstep|by eapply builder_step_in_tree|].
  destruct Hstep as (_ & -> & _). done.
Qed.

Lemma file_step_pre d e s s' :
  builder_pre d s →
  file_loop_body slugify registered d e s = (Ok tt, s') →
  builder_pre d s'.
Proof.
  intros (Hwf & Hin & Hc) Hrun.
  pose proof (file_loop_body_spec d e s Hwf Hin Hc) as Hstep.
  rewrite Hrun in Hstep.
  split_and!; [apply Hstep|by eapply builder_step_in_tree|].
  destruct Hstep as (_ & -> & _). done.
Qed.

Lemma slot_node_gt h d x c nc : heap_wf h → slot_node h d x c nc → d < c < length h.
Proof.
  intros Hwf (nd & Hd & Hx & Hc). split; [by eapply child_gt|by eapply lookup_lt_Some].
Qed.

Lemma dir_step_keep d e x c nc s s' :
  builder_pre d s →
  dir_loop_body slugify registered d e s = (Ok tt, s') →
  dir_slug slugify e ≠ Some x →
  slot_node (heap s) d x c nc → slot_node (heap s') d x c nc.
Proof.
  intros Hpre Hrun Hne Hslot.
  destruct (dir_step_pre d e s s' Hpre Hrun) as [_ Hpost].
  destruct Hpre as (Hwf & _). destruct (slot_node_gt _ _ _ _ _ Hwf Hslot) as [Hdc Hc].
  destruct Hslot as (nd & Hd & Hx & Hnc).
  destruct Hpost as (_ & _ & _ & _ & Hfr & n & Hn & He). simplify_eq.
  assert (Hc' : heap s' !! c = Some nc) by (rewrite Hfr by lia; done).
  destruct e as [dstem lsting|fstem fsuffix content|ostem]; simpl in *.
  - destruct He as [He _]. eexists. split_and!; [exact He| |done].
    simpl. rewrite get_set_ne by congruence. done.
  - by exists nd.
  - by exists nd.
Qed.

Lemma dir_step_hit d dstem lsting s s' :
  builder_pre d s →
  dir_loop_body slugify registered d (EDir dstem lsting) s = (Ok tt, s') →
  ∃ c nc lst, lsting = Some lst ∧ slot_node (heap s') d (slugify dstem) c nc ∧
    ∀ k, k ∈ PyDict.keys (Node.children nc) ↔ k ∈ child_slugs slugify registered lst.
Proof.
  intros Hpre Hrun.
  destruct (dir_step_pre d _ s s' Hpre Hrun) as [_ Hpost].
  destruct Hpost as (_ & _ & _ & _ & _ & n & Hn & He & nc & lst & -> & Hnc & _ & _ & Hk).
  exists (length (heap s)), nc, lst. split_and!; try done.
  eexists. split_and!; [exact He| |done]. simpl. apply get_set_eq.
Qed.

Lemma file_step_keep d e x c nc s s' :
  builder_pre d s →
  file_loop_body slugify registered d e s = (Ok tt, s') →
  file_slug slugify registered e ≠ Some x →
  slot_node (heap s) d x c nc → slot_node (heap s') d x c nc.
Proof.
  intros (Hwf & Hin & Hc) Hrun Hne Hslot.
  destruct (slot_node_gt _ _ _ _ _ Hwf Hslot) as [Hdc Hclt].
  destruct Hslot as (nd & Hd & Hx & Hnc).
  destruct e as [dstem lsting|fstem fsuffix content|ostem]; simpl in *;
    try (injection Hrun as <-; by exists nd).
  destruct (startswith_dot fstem); simpl in *; [injection Hrun as <-; by exists nd|].
  destruct (registered (strip_dots fsuffix)); simpl in *;
    [|injection Hrun as <-; by exists nd].
  pose proof (parse_node_file_run d fstem fsuffix content s nd Hwf Hin Hc Hd) as H.
  unfold file_target in H. rewrite Hd in H.
  destruct (decide (slugify fstem = "index")) as [Hidx|Hidx].
  { destruct H as (nf & Hnf & H). rewrite Hrun in H.
    destruct content as [[t m]|]; [|done]. injection H as ->. simplify_eq.
    eexists. simpl. split_and!.
    - apply list_lookup_insert_eq. by eapply lookup_lt_Some.
    - done.
    - by rewrite list_lookup_insert_ne by lia. }
  rewrite bool_decide_eq_false_2 in Hne by done. simpl in Hne.
  destruct (PyDict.get (slugify fstem) (Node.children nd)) as [c'|] eqn:Hget.
  - destruct H as (nf & Hnf & H). rewrite Hrun in H.
    destruct content as [[t m]|]; [|done]. injection H as ->.
    pose proof (child_gt _ Hwf d nd _ c' Hd Hget) as Hdc'.
    assert (c' ≠ c).
    { intros ->. destruct (wf_child _ Hwf d nd _ c Hd Hget) as (m1 & Hm1 & _ & Hs1).
      destruct (wf_child _ Hwf d nd _ c Hd Hx) as (m2 & Hm2 & _ & Hs2).
      congruence. }
    exists nd. simpl. split_and!; [|done|].
    + by rewrite list_lookup_insert_ne, list_lookup_alter_ne by lia.
    + by rewrite list_lookup_insert_ne, list_lookup_alter_ne by lia.
  - destruct H as (nf & Hnf & H). rewrite Hrun in H.
    destruct content as [[t m]|]; [|done]. injection H as ->.
    pose proof (lookup_lt_Some _ _ _ Hd) as Hdlt.
    eexists. simpl. split_and!.
    + rewrite list_lookup_insert_ne by lia. apply list_lookup_insert_eq.
      rewrite length_app. lia.
    + simpl. rewrite get_set_ne by congruence. done.
    + rewrite !list_lookup_insert_ne by lia. by apply lookup_app_l_Some.
Qed.

Lemma file_step_hit d fstem fsuffix t m c nc s s' :
  builder_pre d s →
  file_slug slugify registered (EFile fstem fsuffix (Some (t, m)))
    = Some (slugify fstem) →
  file_loop_body slugify registered d (EFile fstem fsuffix (Some (t, m))) s
    = (Ok tt, s') →
  slot_node (heap s) d (slugify fstem) c nc →
  slot_node (heap s') d (slugify fstem) c
    (stored t m (strip_dots fsuffix) (Node.with_stem fstem nc)).
Proof.
  intros (Hwf & Hin & Hc) Hacc Hrun Hslot.
  destruct (slot_node_gt _ _ _ _ _ Hwf Hslot) as [Hdc Hclt].
  destruct Hslot as (nd & Hd & Hx & Hnc). simpl in *.
  destruct (startswith_dot fstem); simpl in *; [done|].
  destruct (registered (strip_dots fsuffix)); simpl in *; [|done].
  destruct (decide (slugify fstem = "index")) as [Hidx|Hidx];
    [by rewrite bool_decide_eq_true_2 in Hacc|].
  pose proof (parse_node_file_run d fstem fsuffix (Some (t, m)) s nd Hwf Hin Hc Hd) as H.
  unfold file_target in H. rewrite Hd, decide_False, Hx in H by done.
  destruct H as (nf & Hnf & H). rewrite Hrun in H. injection H as ->.
  rewrite list_lookup_alter_eq, Hnc in Hnf. injection Hnf as <-.
  exists nd. simpl. split_and!; [|done|].
  - by rewrite list_lookup_insert_ne, list_lookup_alter_ne by lia.
  - apply list_lookup_insert_eq. by rewrite length_alter.
Qed.

(** Whatever the order of the listing, after the loop over the
    subdirectories the slot of the one directory with slug [x] holds
    the node made for it. *)
Lemma dir_loop_slot d x dstem lst (Q : Node.t → Prop) es :
  slugify dstem = x →
  (∀ e, e ∈ es → dir_slug slugify e = Some x → e = EDir dstem (Some lst)) →
  (∀ nc, (∀ k, k ∈ PyDict.keys (Node.children nc)
               ↔ k ∈ child_slugs slugify registered lst) → Q nc) →
  ∀ s s', builder_pre d s →
    for_each (dir_loop_body slugify registered d) es s = (Ok tt, s') →
    (∃ c nc, slot_node (heap s) d x c nc ∧ Q nc) ∨ EDir dstem (Some lst) ∈ es →
    builder_pre d s' ∧ ∃ c nc, slot_node (heap s') d x c nc ∧ Q nc.
Proof.
  intros Hx Huniq HQ. induction es as [|e es IH]; intros s s' Hpre Hrun Hinv.
  - injection Hrun as <-. split; [done|].
    destruct Hinv as [?|[]%elem_of_nil]. done.
  - apply for_each_cons_inv in Hrun as (s1 & Hrun1 & Hrun2).
    destruct (dir_step_pre d e s s1 Hpre Hrun1) as [Hpre1 _].
    apply (IH (λ e' He', Huniq e' (list_elem_of_further _ _ _ He')) s1 s' Hpre1 Hrun2).
    destruct (decide (dir_slug slugify e = Some x)) as [Heq|Hne].
    + left. rewrite (Huniq e (list_elem_of_here _ _) Heq) in Hrun1.
      destruct (dir_step_hit d dstem (Some lst) s s1 Hpre Hrun1)
        as (c & nc & lst' & [= <-] & Hslot & Hk).
      exists c, nc. rewrite <-Hx. split; [done|]. by apply HQ.
    + destruct Hinv as [(c & nc & Hslot & Hq)|[Heq|Hin]%elem_of_cons].
      * left. exists c, nc. split; [|done].
        apply (dir_step_keep d e x c nc s s1 Hpre Hrun1 Hne Hslot).
      * subst e. simpl in Hne. congruence.
      * by right.
Qed.

(** Whatever the order of the listing, the loop over the files keeps the
    node in the slot [x] and what holds of its children, and stores the
    one accepted file with slug [x] on it. *)
Lemma file_loop_slot d x fstem fsuffix t m (Q : Node.t → Prop) es :
  slugify fstem = x →
  file_slug slugify registered (EFile fstem fsuffix (Some (t, m))) = Some x →
  (∀ e, e ∈ es → file_slug slugify registered e = Some x →
        e = EFile fstem fsuffix (Some (t, m))) →
  (∀ nc st t' m' e', Q nc → Q (stored t' m' e' (Node.with_stem st nc))) →
  ∀ s s', builder_pre d s →
    for_each (file_loop_body slugify registered d) es s = (Ok tt, s') →
    (∃ c nc, slot_node (heap s) d x c nc ∧ Q nc ∧
       ((∃ n0, nc = stored t m (strip_dots fsuffix) n0)
        ∨ EFile fstem fsuffix (Some (t, m)) ∈ es)) →
    builder_pre d s' ∧
    ∃ c nc n0, slot_node (heap s') d x c nc ∧ Q nc ∧
      nc = stored t m (strip_dots fsuffix) n0.
Proof.
  intros Hx Hacc Huniq HQ. induction es as [|e es IH]; intros s s' Hpre Hrun Hinv.
  - injection Hrun as <-. split; [done|].
    destruct Hinv as (c & nc & Hslot & Hq & [[n0 ->]|[]%elem_of_nil]). eauto 10.
  - apply for_each_cons_inv in Hrun as (s1 & Hrun1 & Hrun2).
    pose proof (file_step_pre d e s s1 Hpre Hrun1) as Hpre1.
    apply (IH (λ e' He', Huniq e' (list_elem_of_further _ _ _ He')) s1 s' Hpre1 Hrun2).
    destruct Hinv as (c & nc & Hslot & Hq & Hor).
    destruct (decide (file_slug slugify registered e = Some x)) as [Heq|Hne].
    + rewrite (Huniq e (list_elem_of_here _ _) Heq) in Hrun1.
      rewrite <-Hx in Hacc, Hslot.
      pose proof (file_step_hit d fstem fsuffix t m c nc s s1 Hpre Hacc Hrun1 Hslot) as Hs1.
      rewrite Hx in Hs1. eexists c, _. split_and!; [exact Hs1|by apply HQ|].
      left. eauto.
    + exists c, nc. split_and!;
        [apply (file_step_keep d e x c nc s s1 Hpre Hrun1 Hne Hslot)|done|].
      destruct Hor as [?|[Heq|Hin]%elem_of_cons]; [by left|congruence|by right].
Qed.

Lemma parse_node_directory_inv d es s s' :
  parse_node_directory slugify registered d (Some es) s = (Ok tt, s') →
  ∃ s1, for_each (dir_loop_body slugify registered d) es (scanned s) = (Ok tt, s1)
        ∧ for_each (file_loop_body slugify registered d) es (scanned s1) = (Ok tt, s').
Proof.
  unfold parse_node_directory, iterdir, bind, count_scan, ret. fold (scanned s).
  destruct (for_each (dir_loop_body slugify registered d) es (scanned s))
    as [[[]|e] s1]; [|done].
  fold (scanned s1). eauto.
Qed.

(** *** Readable source directories *)

Lemma readable_listing dstem es :
  readable registered (EDir dstem (Some es)) ↔ Forall (readable registered) es.
Proof.
  simpl. induction es as [|e es IH]; [by split; [constructor|]|].
  rewrite Forall_cons, IH. done.
Qed.

Lemma no_oserror_bind {A B} (m : M A) (k : A → M B) :
  no_oserror m → (∀ a, no_oserror (k a)) → no_oserror (bind m k).
Proof.
  intros Hm Hk s s'. unfold bind. specialize (Hm s).
  destruct (m s) as [[a|e] s1]; [apply Hk|]. intros [= -> ->]. by eapply Hm.
Qed.

Lemma no_oserror_ok {A} (m : M A) :
  (∀ s, ∃ a s', m s = (Ok a, s')) → no_oserror m.
Proof. intros H s s'. destruct (H s) as (a & s1 & ->). done. Qed.

Lemma no_oserror_update_node a f : no_oserror (update_node a f).
Proof. intros s s'. unfold update_node. by destruct (heap s !! a). Qed.

Lemma no_oserror_read {A} (f : Node.heap → option A) : no_oserror (read f).
Proof. intros s s'. unfold read. by destruct (f (heap s)). Qed.

Lemma no_oserror_for_each {A} (body : A → M unit) l :
  Forall (λ x, no_oserror (body x)) l → no_oserror (for_each body l).
Proof.
  induction 1 as [|x l Hx _ IH]; [done|].
  apply no_oserror_bind; [done|]. intros _. apply IH.
Qed.

Lemma no_oserror_parse_node_file d fstem fsuffix tm :
  no_oserror (parse_node_file slugify d fstem fsuffix (Some tm)).
Proof.
  assert (Hnode : ∀ sl, no_oserror (node sl)).
  { intros sl. unfold node. apply no_oserror_bind; [|intros ?; apply no_oserror_read].
    intros s s'. unfold cached_root. by destruct (cache s). }
  unfold parse_node_file, setitem, update, loader_load.
  repeat first
    [ apply no_oserror_update_node | apply no_oserror_read | apply Hnode
    | apply no_oserror_bind; [|intros ?]
    | by apply no_oserror_ok; eauto
    | match goal with
      | |- no_oserror (if ?b then _ else _) => destruct b
      | |- no_oserror (match ?x with _ => _ end) => destruct x
      end ].
Qed.

Lemma no_oserror_file_loop_body d e :
  readable registered e → no_oserror (file_loop_body slugify registered d e).
Proof.
  destruct e as [dstem lst|fstem fsuffix content|ostem]; simpl; try done.
  destruct (startswith_dot fstem); simpl; [done|].
  destruct (registered (strip_dots fsuffix)); simpl; [|done].
  intros [tm ->]; [done|]. apply no_oserror_parse_node_file.
Qed.

Lemma no_oserror_dir_loop_body e :
  readable registered e → ∀ d, no_oserror (dir_loop_body slugify registered d e).
Proof.
  induction e as [dstem|dstem es IH|fstem fsuffix content|ostem]
    using Entry_nested_ind; try done.
  intros Hes%readable_listing d. simpl.
  apply no_oserror_bind; [done|intros c].
  do 4 (apply no_oserror_bind; [apply no_oserror_update_node|intros _]).
  apply no_oserror_bind; [done|intros _].
  apply no_oserror_bind; [|intros _; apply no_oserror_bind; [done|intros _]].
  - apply no_oserror_for_each. rewrite Forall_forall in IH, Hes |- *.
    intros e He. by apply IH, Hes.
  - apply no_oserror_for_each. rewrite Forall_forall in Hes |- *.
    intros e He. by apply no_oserror_file_loop_body, Hes.
Qed.

Lemma no_oserror_parse_node_directory d es :
  Forall (readable registered) es →
  no_oserror (parse_node_directory slugify registered d (Some es)).
Proof.
  intros Hes s s' Hrun.
  assert (Hd : no_oserror (for_each (dir_loop_body slugify registered d) es)).
  { apply no_oserror_for_each. rewrite Forall_forall in Hes |- *.
    intros e He. by apply no_oserror_dir_loop_body, Hes. }
  assert (Hf : no_oserror (for_each (file_loop_body slugify registered d) es)).
  { apply no_oserror_for_each. rewrite Forall_forall in Hes |- *.
    intros e He. by apply no_oserror_file_loop_body, Hes. }
  unfold parse_node_directory, iterdir, bind, count_scan, ret in Hrun.
  fold (scanned s) in Hrun.
  destruct (for_each (dir_loop_body slugify registered d) es (scanned s))
    as [[[]|e] s1] eqn:H1.
  - by eapply Hf.
  - injection Hrun as -> ->. by eapply Hd.
Qed.
End Builder_facts.

(** ** The tree below a node *)

Lemma elem_of_list_concat {A} (x : A) (ls : list (list A)) :
  x ∈ concat ls ↔ ∃ l, l ∈ ls ∧ x ∈ l.
Proof.
  induction ls as [|l ls IH]; simpl.
  - split; [by intros ?%elem_of_nil|]. by intros (? & ?%elem_of_nil & _).
  - rewrite elem_of_app, IH. split.
    + intros [H|(l' & Hl' & H)]; [exists l; split; [left|done]|].
      exists l'. split; [by right|done].
    + intros (l' & [->|Hl']%elem_of_cons & H); [by left|]. right. eauto.
Qed.

Section tree.
Context (h : Node.heap) (Hwf : heap_wf h).

Lemma child_of_spec p c :
  child_of h p c ↔
    ∃ n m, h !! p = Some n ∧ h !! c = Some m ∧ Node.parent m = Some p
           ∧ PyDict.get (Node.slug m) (Node.children n) = Some c.
Proof.
  split.
  - intros (n & k & Hn & Hk). apply elem_get in Hk; [|by eapply wf_keys].
    destruct (wf_child h Hwf p n k c Hn Hk) as (m & Hm & Hp & <-). eauto 10.
  - intros (n & m & Hn & Hm & Hp & Hk). exists n, (Node.slug m).
    split; [done|]. by apply get_Some_elem.
Qed.

Lemma child_of_lt p c : child_of h p c → p < c.
Proof.
  intros (n & m & Hn & Hm & Hp & _)%child_of_spec. by eapply parent_lt.
Qed.

Lemma child_of_parent p q c : child_of h p c → child_of h q c → p = q.
Proof.
  intros (? & m & _ & Hm & Hp & _)%child_of_spec
         (? & m' & _ & Hm' & Hp' & _)%child_of_spec. congruence.
Qed.

Lemma reach_le a x : rtc (child_of h) a x → a ≤ x.
Proof.
  induction 1 as [|a b x Hab _ IH]; [done|]. apply child_of_lt in Hab. lia.
Qed.

Lemma descendant_lt a x : descendant h a x → a < x.
Proof.
  induction 1 as [a x Hax|a b x Hab _ IH].
  - by apply child_of_lt.
  - apply child_of_lt in Hab. lia.
Qed.

Lemma child_of_bound p c : child_of h p c → c < length h.
Proof.
  intros (n & m & Hn & Hm & _)%child_of_spec. by eapply lookup_lt_Some.
Qed.

(** Two subtrees that share a node are nested. *)
Lemma reach_nested a b x :
  rtc (child_of h) a x → rtc (child_of h) b x →
  rtc (child_of h) a b ∨ rtc (child_of h) b a.
Proof.
  intros Ha. revert x Ha b.
  apply (rtc_ind_r (λ x, ∀ b, rtc _ b x → rtc _ a b ∨ rtc _ b a)).
  { intros b Hb. by right. }
  intros p x Hap Hpx IH b Hbx.
  apply rtc_inv_r in Hbx as [->|(q & Hbq & Hqx)].
  - left. by eapply rtc_r.
  - rewrite (child_of_parent p q x Hpx Hqx) in *. by apply IH.
Qed.

Lemma siblings_disjoint p c1 c2 x :
  child_of h p c1 → child_of h p c2 → c1 ≠ c2 →
  rtc (child_of h) c1 x → rtc (child_of h) c2 x → False.
Proof.
  assert (Hhalf : ∀ c1 c2, child_of h p c1 → child_of h p c2 → c1 ≠ c2 →
            rtc (child_of h) c1 c2 → False).
  { intros a b Ha Hb Hne Hab.
    apply rtc_inv_r in Hab as [->|(q & Haq & Hqb)]; [done|].
    rewrite <-(child_of_parent p q b Hb Hqb) in Haq.
    apply reach_le in Haq. apply child_of_lt in Ha. lia. }
  intros H1 H2 Hne Hx1 Hx2.
  destruct (reach_nested c1 c2 x Hx1 Hx2); eauto.
Qed.

Lemma values_NoDup a n : h !! a = Some n → NoDup (PyDict.values (Node.children n)).
Proof.
  intros Hn. pose proof (wf_keys h Hwf a n Hn) as Hnd.
  rewrite (values_by_keys _ Hnd). apply NoDup_fmap_2_strong; [|done].
  intros k1 k2 [v1 Hk1]%get_is_Some_keys [v2 Hk2]%get_is_Some_keys.
  rewrite Hk1, Hk2. simpl. intros <-.
  destruct (wf_child h Hwf a n k1 v1 Hn Hk1) as (m & Hm & _ & <-).
  destruct (wf_child h Hwf a n k2 v1 Hn Hk2) as (m' & Hm' & _ & <-).
  congruence.
Qed.

Lemma values_child_of a n c :
  h !! a = Some n → c ∈ PyDict.values (Node.children n) ↔ child_of h a c.
Proof.
  intros Hn. rewrite elem_values. split.
  - intros [k Hk]. by exists n, k.
  - intros (n' & k & Hn' & Hk). simplify_eq. eauto.
Qed.

(** *** post_order *)

Lemma post_order_elem fuel a x :
  a < length h → length h - a ≤ fuel →
  x ∈ post_order fuel h a ↔ rtc (child_of h) a x.
Proof.
  revert a x. induction fuel as [|fuel IH]; intros a x Ha Hf; [lia|].
  simpl. destruct (lookup_lt_is_Some_2 h a Ha) as [n Hn]. rewrite Hn.
  rewrite elem_of_app, list_elem_of_singleton, elem_of_list_concat. split.
  - intros [(l & Hl & Hx)| ->]; [|done].
    apply list_elem_of_fmap in Hl as (c & -> & Hc).
    apply (values_child_of a n c Hn) in Hc.
    pose proof (child_of_lt _ _ Hc). pose proof (child_of_bound _ _ Hc).
    eapply rtc_l; [done|]. apply IH; [done|lia|done].
  - intros Hax. apply rtc_inv in Hax as [->|(c & Hc & Hcx)]; [by right|].
    left. pose proof (child_of_lt _ _ Hc). pose proof (child_of_bound _ _ Hc).
    exists (post_order fuel h c). split.
    + apply list_elem_of_fmap. exists c. split; [done|].
      by apply (values_child_of a n c Hn).
    + apply IH; [done|lia|done].
Qed.

Lemma post_order_NoDup fuel a :
  a < length h → length h - a ≤ fuel → NoDup (post_order fuel h a).
Proof.
  revert a. induction fuel as [|fuel IH]; intros a Ha Hf; [lia|].
  simpl. destruct (lookup_lt_is_Some_2 h a Ha) as [n Hn]. rewrite Hn.
  assert (Hcs : ∀ c, c ∈ PyDict.values (Node.children n) → child_of h a c).
  { intros c. by apply values_child_of. }
  pose proof (values_NoDup a n Hn) as Hnd.
  apply NoDup_app. split_and!.
  - induction (PyDict.values (Node.children n)) as [|c cs IHcs]; simpl.
    { apply NoDup_nil_2. }
    apply NoDup_cons in Hnd as [Hc Hnd].
    assert (Hac : child_of h a c) by (apply Hcs; left).
    pose proof (child_of_lt _ _ Hac). pose proof (child_of_bound _ _ Hac).
    apply NoDup_app. split_and!.
    + apply IH; [done|lia].
    + intros x Hx (l & Hl & Hxl)%elem_of_list_concat.
      apply list_elem_of_fmap in Hl as (c' & -> & Hc').
      assert (Hac' : child_of h a c') by (apply Hcs; by right).
      pose proof (child_of_lt _ _ Hac'). pose proof (child_of_bound _ _ Hac').
      apply post_order_elem in Hx; [|done|lia].
      apply post_order_elem in Hxl; [|done|lia].
      eapply (siblings_disjoint a c c' x); try done. by intros ->.
    + apply IHcs; [|done]. intros c' Hc'. apply Hcs. by right.
  - intros x (l & Hl & Hxl)%elem_of_list_concat ->%list_elem_of_singleton.
    apply list_elem_of_fmap in Hl as (c & -> & Hc). apply Hcs in Hc.
    pose proof (child_of_lt _ _ Hc). pose proof (child_of_bound _ _ Hc).
    apply post_order_elem in Hxl; [|done|lia]. apply reach_le in Hxl. lia.
  - apply NoDup_singleton.
Qed.

(** Bottom-up: a node comes after all the nodes below it. *)
Lemma post_order_below fuel a N D :
  a < length h → length h - a ≤ fuel →
  N ∈ post_order fuel h a → descendant h N D →
  ∃ l1 l2 l3, post_order fuel h a = l1 ++ D :: l2 ++ N :: l3.
Proof.
  revert a. induction fuel as [|fuel IH]; intros a Ha Hf HN HD; [lia|].
  pose proof HN as HN'. apply post_order_elem in HN'; [|done..].
  simpl in *. destruct (lookup_lt_is_Some_2 h a Ha) as [n Hn]. rewrite Hn in *.
  apply elem_of_app in HN as [(l & Hl & HNl)%elem_of_list_concat
                             | ->%list_elem_of_singleton].
  - apply list_elem_of_fmap in Hl as (c & -> & Hc).
    pose proof Hc as Hac. apply (values_child_of a n c Hn) in Hac.
    pose proof (child_of_lt _ _ Hac). pose proof (child_of_bound _ _ Hac).
    destruct (IH c) as (l1 & l2 & l3 & Heq); [done|lia|done..|].
    apply list_elem_of_split in Hc as (cs1 & cs2 & ->).
    rewrite fmap_app, concat_app. simpl. rewrite Heq.
    exists (concat (post_order fuel h <$> cs1) ++ l1), l2,
      (l3 ++ concat (post_order fuel h <$> cs2) ++ [a]).
    repeat first [rewrite <-app_assoc | progress simpl]. done.
  - assert (HD' : D ∈ post_order (S fuel) h a).
    { apply post_order_elem; [done..|]. by apply tc_rtc. }
    simpl in HD'. rewrite Hn in HD'.
    apply elem_of_app in HD' as [HD'| ->%list_elem_of_singleton].
    + apply list_elem_of_split in HD' as (l1 & l2 & ->).
      exists l1, l2, []. by rewrite <-app_assoc.
    + apply descendant_lt in HD. lia.
Qed.
End tree.

(** ** The initializer *)

Lemma links_lookup h a :
  links h !! a = (λ n, (Node.parent n, Node.slug n, Node.children n)) <$> h !! a.
Proof. unfold links. apply list_lookup_fmap. Qed.

Lemma links_update h a n n' :
  h !! a = Some n →
  Node.parent n' = Node.parent n → Node.slug n' = Node.slug n →
  Node.children n' = Node.children n →
  links (<[a := n']> h) = links h.
Proof.
  intros Hn Hp Hs Hc. unfold links. rewrite list_fmap_insert.
  apply list_insert_id. rewrite list_lookup_fmap, Hn. simpl. by rewrite Hp, Hs, Hc.
Qed.

Lemma links_children h h' a n :
  links h = links h' → h !! a = Some n →
  ∃ n', h' !! a = Some n' ∧ Node.children n' = Node.children n
        ∧ Node.parent n' = Node.parent n ∧ Node.slug n' = Node.slug n.
Proof.
  intros Hl Hn. pose proof (links_lookup h a) as H1.
  rewrite Hl, links_lookup, Hn in H1. simpl in H1.
  destruct (h' !! a) as [n'|]; [|done]. injection H1 as ???. eauto.
Qed.

Lemma links_length h h' : links h = links h' → length h = length h'.
Proof. intros H. apply (f_equal length) in H. unfold links in H. by rewrite !length_fmap in H. Qed.

Lemma post_order_links fuel h h' a :
  links h = links h' → post_order fuel h a = post_order fuel h' a.
Proof.
  intros Hl. revert a. induction fuel as [|fuel IH]; intros a; [done|]. simpl.
  destruct (h !! a) as [n|] eqn:Hn.
  - destruct (links_children h h' a n Hl Hn) as (n' & -> & -> & _).
    f_equal. f_equal. apply list_fmap_ext. intros _ c _. apply IH.
  - destruct (h' !! a) as [n'|] eqn:Hn'; [|done].
    destruct (links_children h' h a n' (eq_sym Hl) Hn') as (? & ? & _). congruence.
Qed.

Lemma child_of_links h h' p c : links h = links h' → child_of h p c → child_of h' p c.
Proof.
  intros Hl (n & k & Hn & Hk).
  destruct (links_children h h' p n Hl Hn) as (n' & Hn' & Hc & _).
  exists n', k. by rewrite Hc.
Qed.

Lemma getitem_Ok a k s n v :
  heap s !! a = Some n → Node.data n !! k = Some v → getitem a k s = (Ok v, s).
Proof. unfold getitem. by intros -> ->. Qed.

Lemma read_Ok {A} (f : Node.heap → option A) s x :
  f (heap s) = Some x → read f s = (Ok x, s).
Proof. unfold read. by intros ->. Qed.

Section Init_facts.
Context (hooks_filter_fn : string → value → Node.heap → addr → value).
Context (render : value → string → value).

Lemma init_children_spec fuel cs :
  (∀ a s, heap_wf (heap s) → a < length (heap s) →
     length (heap s) - a ≤ fuel →
     ∃ s', init hooks_filter_fn render fuel a s = (Ok a, s')
           ∧ init_post fuel a s s') →
  ∀ s, heap_wf (heap s) →
    (∀ c, c ∈ cs → c < length (heap s) ∧ length (heap s) - c ≤ fuel) →
    ∃ s', for_each (λ c, init hooks_filter_fn render fuel c ;;; ret tt) cs s
          = (Ok tt, s') ∧
      heap_wf (heap s') ∧ links (heap s') = links (heap s) ∧
      cache s' = cache s ∧ scans s' = scans s ∧ loads s' = loads s ∧
      events s' = events s ++
        (init_event <$> concat (post_order fuel (heap s) <$> cs)).
Proof.
  intros IH. induction cs as [|c cs IHcs]; intros s Hwf Hcs.
  - exists s. simpl. rewrite app_nil_r. done.
  - destruct (Hcs c) as [Hc Hf]; [left|].
    destruct (IH c s Hwf Hc Hf) as (s1 & Hrun & Hwf1 & Hl1 & Hc1 & Hs1 & Hld1 & He1).
    pose proof (links_length _ _ Hl1) as Hlen.
    destruct (IHcs s1 Hwf1) as (s2 & Hrun2 & Hwf2 & Hl2 & Hc2 & Hs2 & Hld2 & He2).
    { intros c' Hc'. rewrite Hlen. apply Hcs. by right. }
    exists s2. split.
    { simpl. erewrite bind_Ok; [exact Hrun2|].
      erewrite bind_Ok; [|exact Hrun]. done. }
    split_and!; try congruence.
    rewrite He2, He1. simpl. rewrite fmap_app, <-app_assoc. do 4 f_equal.
    apply list_fmap_ext. intros _ c' _. by apply post_order_links.
Qed.

Lemma init_spec fuel : ∀ a s,
  heap_wf (heap s) → a < length (heap s) → length (heap s) - a ≤ fuel →
  ∃ s', init hooks_filter_fn render fuel a s = (Ok a, s') ∧ init_post fuel a s s'.
Proof.
  induction fuel as [|fuel IH]; intros a s Hwf Ha Hf; [lia|].
  destruct (lookup_lt_is_Some_2 _ _ Ha) as [n Hn].
  destruct (wf_text _ Hwf a n Hn) as [t Ht].
  set (t' := hooks_filter_fn "node_text" t (heap s) a).
  set (n1 := Node.with_data (insert "text" t') n).
  set (s1 := set_heap (<[a := n1]> (heap s)) s).
  set (html := hooks_filter_fn "node_html" (render t' (Node.ext n)) (heap s1) a).
  set (n2 := Node.with_data (insert "html" html) n1).
  set (s2 := set_heap (<[a := n2]> (heap s)) s).
  assert (Hn1 : heap s1 !! a = Some n1) by (by apply list_lookup_insert_eq).
  assert (Hn2 : heap s2 !! a = Some n2) by (by apply list_lookup_insert_eq).
  assert (Hwf2 : heap_wf (heap s2)).
  { eapply heap_wf_update; try done. simpl.
    rewrite lookup_insert_ne by done. rewrite lookup_insert_eq. eauto. }
  assert (Hl2 : links (heap s2) = links (heap s)) by by eapply links_update.
  destruct (init_children_spec fuel (PyDict.values (Node.children n)) IH s2 Hwf2)
    as (s3 & Hrun3 & Hwf3 & Hl3 & Hc3 & Hs3 & Hld3 & He3).
  { intros c Hc. apply (values_child_of _ a n c Hn) in Hc.
    pose proof (child_of_lt _ Hwf _ _ Hc). pose proof (child_of_bound _ Hwf _ _ Hc).
    simpl. rewrite length_insert. lia. }
  eexists. split.
  - simpl.
    erewrite bind_Ok; [|by eapply getitem_Ok].
    unfold bind at 1. unfold hooks_filter at 1. fold t'.
    erewrite bind_Ok; [|by apply update_node_Ok]. fold n1 s1.
    erewrite bind_Ok; [|eapply getitem_Ok; [exact Hn1|apply lookup_insert_eq]].
    erewrite bind_Ok; [|apply read_Ok; by rewrite Hn1].
    unfold bind at 1. unfold hooks_filter at 1. simpl Node.ext. fold html.
    erewrite bind_Ok; [|apply update_node_Ok; exact Hn1].
    replace (set_heap (<[a := Node.with_data (insert "html" html) n1]> (heap s1)) s1)
      with s2 by (unfold s2, s1; simpl; by rewrite set_heap_twice, list_insert_insert_eq).
    erewrite bind_Ok; [|apply read_Ok; by rewrite Hn2].
    erewrite bind_Ok; [|exact Hrun3].
    unfold bind, hooks_event, ret. reflexivity.
  - unfold init_post. simpl. split_and!;
      [done|congruence|by rewrite Hc3|by rewrite Hs3|by rewrite Hld3|].
    rewrite He3. simpl. rewrite Hn, fmap_app, <-app_assoc. do 4 f_equal.
    apply list_fmap_ext. intros _ c' _. by apply post_order_links.
Qed.
End Init_facts.

(** ** The cache *)

Lemma quiet_bind {A B} (m : M A) (k : A → M B) :
  quiet m → (∀ a, quiet (k a)) → quiet (bind m k).
Proof.
  intros Hm Hk s. unfold bind. specialize (Hm s).
  destruct (m s) as [[a|e] s1]; simpl in *; [|done].
  destruct (Hk a s1) as [-> ->]. done.
Qed.

Lemma quiet_ret {A} (a : A) : quiet (ret a).
Proof. done. Qed.

Lemma quiet_raise {A} e : quiet (@raise A e).
Proof. done. Qed.

Lemma quiet_update_node a f : quiet (update_node a f).
Proof. intros s. unfold update_node. by destruct (heap s !! a). Qed.

Lemma quiet_new_node : quiet new_node.
Proof. done. Qed.

Lemma quiet_read {A} (f : Node.heap → option A) : quiet (read f).
Proof. intros s. unfold read. by destruct (f (heap s)). Qed.

Lemma quiet_for_each {A} (body : A → M unit) l :
  Forall (λ x, quiet (body x)) l → quiet (for_each body l).
Proof.
  induction 1 as [|x l Hx _ IH]; [done|].
  apply quiet_bind; [done|]. intros _. apply IH.
Qed.

Lemma quiet_count_scan : quiet count_scan.
Proof. done. Qed.

Lemma quiet_count_load : quiet count_load.
Proof. done. Qed.

Create HintDb quiet.
#[local] Hint Resolve quiet_ret quiet_raise quiet_update_node quiet_new_node
  quiet_read quiet_count_scan quiet_count_load : quiet.

(** One statement of a block that is quiet. *)
Ltac quiet_step :=
  apply quiet_bind;
  [ solve [ auto with quiet
          | match goal with
            | |- quiet (match ?x with _ => _ end) => destruct x
            end; auto with quiet ]
  | intros ? ].

Ltac quiet_block :=
  repeat quiet_step;
  try solve [ auto with quiet
            | match goal with
              | |- quiet (match ?x with _ => _ end) => destruct x
              end; auto with quiet ].

Section Root_facts.
Context (slugify : string → string) (registered : string → bool).
Context (hooks_filter_fn : string → value → Node.heap → addr → value).
Context (render : value → string → value).

Lemma quiet_node slugs : quiet (node slugs).
Proof.
  unfold node. apply quiet_bind; [|auto with quiet].
  intros s. unfold cached_root. by destruct (cache s) eqn:E.
Qed.

Lemma quiet_loader_load content : quiet (loader_load content).
Proof. unfold loader_load. quiet_block. Qed.

Lemma quiet_parse_node_file d fstem fsuffix content :
  quiet (parse_node_file slugify d fstem fsuffix content).
Proof.
  pose proof quiet_node. pose proof quiet_loader_load.
  unfold parse_node_file, setitem, update. apply quiet_bind.
  - destruct (decide _); [auto with quiet|]. quiet_block.
  - intros f. quiet_block.
Qed.

Lemma quiet_file_loop_body d e : quiet (file_loop_body slugify registered d e).
Proof.
  destruct e; simpl; auto with quiet.
  destruct (startswith_dot _); auto with quiet.
  destruct (negb _); auto with quiet. apply quiet_parse_node_file.
Qed.

Lemma quiet_parse_tail d es :
  Forall (λ e, ∀ d, quiet (dir_loop_body slugify registered d e)) es →
  quiet (for_each (dir_loop_body slugify registered d) es ;;;
         count_scan ;;;
         for_each (file_loop_body slugify registered d) es).
Proof.
  intros Hes. apply quiet_bind.
  { apply quiet_for_each. eapply Forall_impl; [exact Hes|]. auto. }
  intros _. apply quiet_bind; [done|]. intros _.
  apply quiet_for_each, Forall_forall. intros e _. apply quiet_file_loop_body.
Qed.

Lemma quiet_dir_loop_body e : ∀ d, quiet (dir_loop_body slugify registered d e).
Proof.
  induction e as [dstem|dstem es IH|fstem fsuffix content|ostem]
    using Entry_nested_ind; intros d; simpl; auto with quiet.
  - quiet_block.
  - quiet_block. by apply quiet_parse_tail.
Qed.

Lemma quiet_parse_node_directory d lst :
  quiet (parse_node_directory slugify registered d lst).
Proof.
  unfold parse_node_directory, iterdir.
  apply quiet_bind.
  { apply quiet_bind; [done|]. intros _. destruct lst; auto with quiet. }
  intros es. apply quiet_bind.
  { apply quiet_for_each, Forall_forall. intros e _. apply quiet_dir_loop_body. }
  intros _. apply quiet_bind.
  { apply quiet_bind; [done|]. intros _. destruct lst; auto with quiet. }
  intros _. apply quiet_for_each, Forall_forall. intros e _.
  apply quiet_file_loop_body.
Qed.

Lemma heap_wf_boot : heap_wf (heap boot).
Proof.
  split; simpl.
  - lia.
  - intros [|a] n; [by intros [= <-]|done].
  - intros [|p] n k c; [by intros [= <-]|done].
  - intros [|p] n; [intros [= <-]; apply NoDup_nil_2|done].
  - intros [|a] n; [intros [= <-]; simpl; eauto|done].
Qed.

Lemma root_start src :
  root slugify registered hooks_filter_fn render src start =
    match parse_node_directory slugify registered 0 src boot with
    | (Ok _, s1) =>
        (r <- init hooks_filter_fn render (length (heap s1)) 0 ;;
         hooks_event "init_tree" r ;;;
         cached_root) s1
    | (Raise e, s1) => (Raise e, s1)
    end.
Proof. done. Qed.

(** The first [root()] of a process: it raises only the [OSError] of a
    collaborator and then leaves the bare root in [cache]; else the
    tree is built, well formed, and initialized bottom-up. *)
Lemma root_spec src :
  match root slugify registered hooks_filter_fn render src start with
  | (Ok r, s) =>
      r = 0 ∧ cache s = Some 0 ∧ heap_wf (heap s) ∧
      events s =
        (init_event <$> post_order (length (heap s)) (heap s) 0)
        ++ [("init_tree", 0)] ∧
      ∃ es s1, src = Some es ∧
        builder_step 0 (child_slugs slugify registered es) boot s1 ∧
        links (heap s) = links (heap s1)
  | (Raise e, s) => e = OSError ∧ cache s = Some 0 ∧ events s = []
  end.
Proof.
  rewrite root_start.
  assert (Hpre : builder_pre 0 boot).
  { split; [apply heap_wf_boot|]. split; [apply rtc_refl|done]. }
  pose proof (parse_node_directory_ok slugify registered 0 src boot Hpre) as Hp.
  pose proof (quiet_parse_node_directory 0 src boot) as Hq.
  destruct (parse_node_directory slugify registered 0 src boot) as [[[]|e] s1];
    simpl in Hq; [|by destruct Hq].
  destruct Hp as (es & -> & Hstep). destruct Hq as [Hc1 He1].
  assert (Hwf1 : heap_wf (heap s1)) by apply Hstep.
  destruct (init_spec hooks_filter_fn render (length (heap s1)) 0 s1)
    as (s2 & Hrun & Hwf2 & Hl2 & Hc2 & _ & _ & He2);
    [done|by eapply wf_nonempty|lia|].
  erewrite bind_Ok; [|exact Hrun].
  unfold bind, hooks_event, cached_root, ret. simpl. rewrite Hc2, Hc1. simpl.
  split_and!; try done.
  - rewrite He2, He1. simpl. do 2 f_equal.
    rewrite <-(links_length _ _ Hl2). symmetry. by apply post_order_links.
  - by exists es, s1.
Qed.

(** On a readable source directory the first [root()] of the model
    returns.  The model has no recursion limit: the interpreter's, which
    a chain of about a thousand nested directories exceeds in
    [parse_node_directory] or [init], is outside it. *)
Lemma root_returns es :
  Forall (readable registered) es →
  ∃ s, root slugify registered hooks_filter_fn render (Some es) start = (Ok 0, s).
Proof.
  intros Hes. pose proof (root_spec (Some es)) as H.
  destruct (root slugify registered hooks_filter_fn render (Some es) start)
    as [[r|e] s] eqn:Hrun.
  - destruct H as (-> & _). eauto.
  - destruct H as (-> & _). exfalso. rewrite root_start in Hrun.
    pose proof (no_oserror_parse_node_directory slugify registered 0 es Hes boot) as Hp.
    destruct (parse_node_directory slugify registered 0 (Some es) boot)
      as [[[]|e] s1] eqn:Hparse.
    + assert (Hpre : builder_pre 0 boot).
      { split; [apply heap_wf_boot|]. split; [apply rtc_refl|done]. }
      pose proof (parse_node_directory_ok slugify registered 0 (Some es) boot Hpre) as Hok.
      rewrite Hparse in Hok. destruct Hok as (_ & _ & Hwf1 & _).
      destruct (init_spec hooks_filter_fn render (length (heap s1)) 0 s1)
        as (s2 & Hinit & _); [done|by eapply wf_nonempty|lia|].
      erewrite bind_Ok in Hrun; [|exact Hinit].
      unfold bind, hooks_event, cached_root, ret in Hrun. simpl in Hrun.
      by destruct (cache s2).
    + injection Hrun as -> ->. by eapply Hp.
Qed.
End Root_facts.

(** ** How often the collaborators are called *)

Lemma counts_eq {A} ds dl ds' dl' (m : M A) :
  counts ds dl m → ds = ds' → dl = dl' → counts ds' dl' m.
Proof. by intros H <- <-. Qed.

Lemma counts_bind {A B} ds dl ds' dl' (m : M A) (k : A → M B) :
  counts ds dl m → (∀ a, counts ds' dl' (k a)) →
  counts (ds + ds') (dl + dl') (bind m k).
Proof.
  intros Hm Hk s b s'. unfold bind.
  destruct (m s) as [[a|e] s1] eqn:Hms; [|done].
  intros Hks. destruct (Hm s a s1 Hms) as [H1 H2].
  destruct (Hk a s1 b s' Hks) as [H3 H4]. lia.
Qed.

Lemma counts_ret {A} (a : A) : counts 0 0 (ret a).
Proof. intros s b s' [= _ <-]. lia. Qed.

Lemma counts_raise {A} ds dl e : counts ds dl (@raise A e).
Proof. by intros s b s'. Qed.

Lemma counts_update_node a f : counts 0 0 (update_node a f).
Proof.
  intros s b s'. unfold update_node.
  destruct (heap s !! a); [|done]. intros [= _ <-]. simpl. lia.
Qed.

Lemma counts_new_node : counts 0 0 new_node.
Proof. intros s b s' [= _ <-]. simpl. lia. Qed.

Lemma counts_read {A} (f : Node.heap → option A) : counts 0 0 (read f).
Proof.
  intros s b s'. unfold read. destruct (f (heap s)); [|done].
  intros [= _ <-]. lia.
Qed.

Lemma counts_count_scan : counts 1 0 count_scan.
Proof. intros s b s' [= _ <-]. simpl. lia. Qed.

Lemma counts_count_load : counts 0 1 count_load.
Proof. intros s b s' [= _ <-]. simpl. lia. Qed.

Lemma counts_node sl : counts 0 0 (node sl).
Proof.
  apply (counts_bind 0 0 0 0); [|intros ?; apply counts_read].
  intros s b s'. unfold cached_root. destruct (cache s); [|done].
  intros [= _ <-]. lia.
Qed.

Lemma counts_for_each {A} (f g : A → nat) (body : A → M unit) l :
  Forall (λ x, counts (f x) (g x) (body x)) l →
  counts (sum_list_with f l) (sum_list_with g l) (for_each body l).
Proof.
  induction 1 as [|x l Hx _ IH]; [apply counts_ret|].
  simpl. apply counts_bind; [done|]. intros _. apply IH.
Qed.

Lemma sum_list_with_double {A} (f : A → nat) l :
  sum_list_with (λ x, 2 * f x) l = 2 * sum_list_with f l.
Proof.
  induction l as [|x l IH]; [done|].
  change (2 * f x + sum_list_with (λ x, 2 * f x) l
          = 2 * (f x + sum_list_with f l)).
  lia.
Qed.

Lemma sum_list_with_zero {A} (l : list A) : sum_list_with (λ _, 0) l = 0.
Proof. induction l; simpl; lia. Qed.

Section Counting.
Context (slugify : string → string) (registered : string → bool).

Lemma counts_parse_node_file d fstem fsuffix content :
  counts 0 1 (parse_node_file slugify d fstem fsuffix content).
Proof.
  unfold parse_node_file, setitem, update, loader_load.
  apply (counts_bind 0 0 0 1).
  - destruct (decide _); [apply counts_ret|].
    apply (counts_bind 0 0 0 0); [apply counts_read|intros p].
    apply (counts_bind 0 0 0 0); [apply counts_node|intros found].
    apply (counts_bind 0 0 0 0);
      [destruct found; [apply counts_ret|apply counts_new_node]|intros f].
    do 4 (apply (counts_bind 0 0 0 0); [apply counts_update_node|intros _]).
    apply counts_ret.
  - intros f. apply (counts_bind 0 1 0 0).
    + apply (counts_bind 0 1 0 0); [apply counts_count_load|intros _].
      destruct content; [apply counts_ret|apply counts_raise].
    + intros tm.
      do 2 (apply (counts_bind 0 0 0 0); [apply counts_update_node|intros _]).
      apply counts_update_node.
Qed.

Lemma counts_file_loop_body d e :
  counts 0 (file_here registered e) (file_loop_body slugify registered d e).
Proof.
  destruct e as [dstem lst|fstem fsuffix content|ostem]; simpl;
    try apply counts_ret.
  destruct (startswith_dot fstem); simpl; [apply counts_ret|].
  destruct (registered (strip_dots fsuffix)); simpl; [|apply counts_ret].
  apply counts_parse_node_file.
Qed.

Lemma n_files_split es :
  sum_list_with (n_files registered) es
  = sum_list_with (files_below registered) es
    + sum_list_with (file_here registered) es.
Proof.
  induction es as [|e es IH]; [done|]. simpl. rewrite IH.
  destruct e as [dstem [lst|]|fstem fsuffix content|ostem]; simpl; lia.
Qed.

Lemma counts_parse_tail d es :
  Forall (λ e, ∀ d, counts (2 * n_dirs e) (files_below registered e)
                      (dir_loop_body slugify registered d e)) es →
  counts (S (2 * sum_list_with n_dirs es)) (sum_list_with (n_files registered) es)
    (for_each (dir_loop_body slugify registered d) es ;;;
     count_scan ;;;
     for_each (file_loop_body slugify registered d) es).
Proof.
  intros Hes.
  eapply counts_eq.
  - apply counts_bind.
    + apply (counts_for_each (λ e, 2 * n_dirs e) (files_below registered)).
      eapply Forall_impl; [exact Hes|]. auto.
    + intros _. apply counts_bind; [apply counts_count_scan|intros _].
      apply (counts_for_each (λ _, 0) (file_here registered)), Forall_forall.
      intros e _. apply counts_file_loop_body.
  - rewrite sum_list_with_double, sum_list_with_zero. lia.
  - rewrite n_files_split. lia.
Qed.

Lemma counts_dir_loop_body e :
  ∀ d, counts (2 * n_dirs e) (files_below registered e)
         (dir_loop_body slugify registered d e).
Proof.
  induction e as [dstem|dstem es IH|fstem fsuffix content|ostem]
    using Entry_nested_ind; intros d; simpl; try apply counts_ret.
  - eapply counts_eq; [|reflexivity..].
    apply (counts_bind 0 0 2 0); [apply counts_new_node|intros c].
    do 4 (apply (counts_bind 0 0 2 0); [apply counts_update_node|intros _]).
    apply (counts_bind 1 0 1 0); [apply counts_count_scan|intros _].
    apply counts_raise.
  - eapply counts_eq.
    + apply (counts_bind 0 0); [apply counts_new_node|intros c].
      do 4 (apply (counts_bind 0 0); [apply counts_update_node|intros _]).
      apply counts_bind; [apply counts_count_scan|intros _].
      by apply counts_parse_tail.
    + lia.
    + done.
Qed.

Lemma counts_parse_node_directory d es :
  counts (2 * S (sum_list_with n_dirs es)) (sum_list_with (n_files registered) es)
    (parse_node_directory slugify registered d (Some es)).
Proof.
  intros s a s' Hrun. destruct a.
  apply parse_node_directory_inv in Hrun as (s1 & H1 & H2).
  assert (Hd : Forall (λ e, counts (2 * n_dirs e) (files_below registered e)
                              (dir_loop_body slugify registered d e)) es).
  { apply Forall_forall. intros e _. apply counts_dir_loop_body. }
  assert (Hf : Forall (λ e, counts 0 (file_here registered e)
                              (file_loop_body slugify registered d e)) es).
  { apply Forall_forall. intros e _. apply counts_file_loop_body. }
  apply (counts_for_each (λ e, 2 * n_dirs e) (files_below registered)) in Hd.
  apply (counts_for_each (λ _, 0) (file_here registered)) in Hf.
  destruct (Hd _ _ _ H1) as [Hs1 Hl1]. destruct (Hf _ _ _ H2) as [Hs2 Hl2].
  rewrite sum_list_with_double in Hs1. rewrite sum_list_with_zero in Hs2.
  rewrite n_files_split. simpl in Hs1, Hs2, Hl1, Hl2. lia.
Qed.
End Counting.

(** A first [root()] that returns has run the builder once: every
    directory listed twice, once by each loop, and every accepted file
    loaded once. *)
Lemma root_scans_loads (slugify : string → string) (registered : string → bool)
    (hooks_filter_fn : string → value → Node.heap → addr → value)
    (render : value → string → value) es r s :
  root slugify registered hooks_filter_fn render (Some es) start = (Ok r, s) →
  scans s = 2 * S (sum_list_with n_dirs es) ∧
  loads s = sum_list_with (n_files registered) es.
Proof.
  intros Hrun. rewrite root_start in Hrun.
  destruct (parse_node_directory slugify registered 0 (Some es) boot)
    as [[[]|e] s1] eqn:Hparse; [|done].
  destruct (counts_parse_node_directory slugify registered 0 es _ _ _ Hparse)
    as [Hs1 Hl1].
  assert (Hpre : builder_pre 0 boot).
  { split; [apply heap_wf_boot|]. split; [apply rtc_refl|done]. }
  pose proof (parse_node_directory_ok slugify registered 0 (Some es) boot Hpre) as Hok.
  rewrite Hparse in Hok. destruct Hok as (_ & _ & Hwf1 & _).
  destruct (init_spec hooks_filter_fn render (length (heap s1)) 0 s1)
    as (s2 & Hinit & _ & _ & _ & Hs2 & Hl2 & _); [done|by eapply wf_nonempty|lia|].
  erewrite bind_Ok in Hrun; [|exact Hinit].
  unfold bind, hooks_event, cached_root, ret in Hrun. simpl in Hrun.
  destruct (cache s2); [|done]. injection Hrun as _ <-. simpl in *. lia.
Qed.

(** * The claims *)

Lemma demo_root_run : demo_root demo_src start = (Ok 0, demo_state).
Proof. by vm_compute. Qed.

Section Claims.
Context (slugify : string → string) (registered : string → bool).
Context (hooks_filter_fn : string → value → Node.heap → addr → value).
Context (render : value → string → value).

Local Abbreviation run_root := (root slugify registered hooks_filter_fn render).

(** The store of a tree that [root()] has built is well formed. *)
Lemma root_heap_wf src r s : run_root src start = (Ok r, s) → heap_wf (heap s).
Proof.
  intros Hrun. pose proof (root_spec slugify registered hooks_filter_fn render src) as H.
  rewrite Hrun in H. apply H.
Qed.

Lemma root_is_0 src r s : run_root src start = (Ok r, s) → r = 0.
Proof.
  intros Hrun. pose proof (root_spec slugify registered hooks_filter_fn render src) as H.
  rewrite Hrun in H. apply H.
Qed.

(** A call of [root()] that finds the cache filled returns it and does
    nothing else. *)
Lemma root_cached src s c : cache s = Some c → run_root src s = (Ok c, s).
Proof. intros H. unfold root. by rewrite H. Qed.

(** C1 (as amended): when the first [root()] of a process raises, the
    exception is the [OSError] of the scan or of the loader, it reaches
    the caller before any [init_node] or [init_tree] event has fired,
    and the partially built root node stays in [cache]: every later
    [root()] returns that node as it is, without scanning again. *)
Theorem root_error_keeps_partial_tree src e s1 :
  run_root src start = (Raise e, s1) →
  e = OSError ∧ cache s1 = Some 0 ∧ events s1 = [] ∧
  ∀ src', run_root src' s1 = (Ok 0, s1).
Proof.
  intros Hrun. pose proof (root_spec slugify registered hooks_filter_fn render src) as H.
  rewrite Hrun in H. destruct H as (-> & Hc & He).
  split_and!; try done. intros src'. by apply root_cached.
Qed.

(** C3 (as amended): a file whose stem slugifies to ['index'] is
    stored on the node of its directory [d]: after [parse_node_file]
    that node has the file's metadata merged over its data, the file's
    text under ['text'] unless the metadata has a ['text'] key of its
    own, which then wins, and the file's extension; its [children] are
    as before and no node has been created. *)
Theorem index_file_populates_directory_node d fstem fsuffix t m s n :
  slugify fstem = "index" →
  heap s !! d = Some n →
  ∃ s' n',
    parse_node_file slugify d fstem fsuffix (Some (t, m)) s = (Ok tt, s') ∧
    heap s' !! d = Some n' ∧
    Node.data n' = m ∪ <["text" := VStr t]> (Node.data n) ∧
    (∀ k v, m !! k = Some v → Node.data n' !! k = Some v) ∧
    (m !! "text" = None → Node.data n' !! "text" = Some (VStr t)) ∧
    Node.ext n' = strip_dots fsuffix ∧
    Node.children n' = Node.children n ∧
    length (heap s') = length (heap s).
Proof.
  intros Hidx Hn. pose proof (lookup_lt_Some _ _ _ Hn) as Hlt.
  exists (set_heap (<[d := stored t m (strip_dots fsuffix) n]> (heap s)) (loaded s)),
    (stored t m (strip_dots fsuffix) n).
  split.
  { unfold parse_node_file. rewrite Hidx, decide_True by done.
    unfold bind at 1. unfold ret at 1. rewrite load_run.
    by rewrite (store_file_run d t m _ _ n). }
  simpl. split_and!; try done.
  - by apply list_lookup_insert_eq.
  - intros k v Hk. by apply lookup_union_Some_l.
  - intros Hk. rewrite lookup_union_r by done. apply lookup_insert_eq.
  - by rewrite length_insert.
Qed.

(** C10: the index merge changes nothing but the data and the
    extension of the directory node: its slug, stem, parent and
    children, every data key other than ['text'] and the keys of the
    metadata, every other node, the cache and the event log are as
    before. *)
Theorem index_file_frame d fstem fsuffix t m s n :
  slugify fstem = "index" →
  heap s !! d = Some n →
  ∃ s' n',
    parse_node_file slugify d fstem fsuffix (Some (t, m)) s = (Ok tt, s') ∧
    heap s' !! d = Some n' ∧
    Node.slug n' = Node.slug n ∧ Node.stem n' = Node.stem n ∧
    Node.parent n' = Node.parent n ∧ Node.children n' = Node.children n ∧
    (∀ k, k ≠ "text" → m !! k = None → Node.data n' !! k = Node.data n !! k) ∧
    (∀ a, a ≠ d → heap s' !! a = heap s !! a) ∧
    cache s' = cache s ∧ events s' = events s.
Proof.
  intros Hidx Hn. pose proof (lookup_lt_Some _ _ _ Hn) as Hlt.
  exists (set_heap (<[d := stored t m (strip_dots fsuffix) n]> (heap s)) (loaded s)),
    (stored t m (strip_dots fsuffix) n).
  split.
  { unfold parse_node_file. rewrite Hidx, decide_True by done.
    unfold bind at 1. unfold ret at 1. rewrite load_run.
    by rewrite (store_file_run d t m _ _ n). }
  simpl. split_and!; try done.
  - by apply list_lookup_insert_eq.
  - intros k Hk Hm. simpl. rewrite lookup_union_r by done.
    by rewrite lookup_insert_ne.
  - intros a Ha. by rewrite list_lookup_insert_ne.
Qed.

(** C6: [root()] memoizes.  The first call of a process that returns
    has run the build once: every directory of the source tree has
    been listed twice (once by each of the two loops of
    [parse_node_directory]), [loader.load] has been called once per
    accepted file, [init_node] has fired once for each node of the
    tree and for nothing else, and [init_tree] has fired once, on the
    root, as the last event.  Every later call returns the same node
    and leaves the whole state (store, event log, scan and load counts)
    as it is: nothing is scanned, loaded, initialized or fired again. *)
Theorem root_memoizes src r s1 :
  run_root src start = (Ok r, s1) →
  (∃ es, src = Some es ∧
     scans s1 = 2 * S (sum_list_with n_dirs es) ∧
     loads s1 = sum_list_with (n_files registered) es) ∧
  (∃ L, events s1 = (init_event <$> L) ++ [("init_tree", r)] ∧
        NoDup L ∧ ∀ a, a ∈ L ↔ in_tree (heap s1) a) ∧
  ∀ src', run_root src' s1 = (Ok r, s1).
Proof.
  intros Hrun. pose proof (root_spec slugify registered hooks_filter_fn render src) as H.
  rewrite Hrun in H. destruct H as (-> & Hc & Hwf & He & es & _ & -> & _).
  pose proof (wf_nonempty _ Hwf) as Hne.
  split_and!.
  - exists es. split; [done|].
    by apply (root_scans_loads slugify registered hooks_filter_fn render es 0).
  - exists (post_order (length (heap s1)) (heap s1) 0). split_and!; [exact He| |].
    + apply post_order_NoDup; [done|done|lia].
    + intros a. apply post_order_elem; [done|done|lia].
  - intros src'. by apply root_cached.
Qed.

(** C4: bottom-up notification.  After [root()], every node of the
    tree has fired [init_node] exactly once, and the event of a node
    comes strictly after the event of each of its descendants. *)
Theorem init_node_fires_bottom_up src r s :
  run_root src start = (Ok r, s) →
  ∀ N, in_tree (heap s) N →
    (∃ j, events s !! j = Some ("init_node", N) ∧
          ∀ j', events s !! j' = Some ("init_node", N) → j' = j) ∧
    ∀ D, descendant (heap s) N D →
      ∃ i j, i < j ∧ events s !! i = Some ("init_node", D)
             ∧ events s !! j = Some ("init_node", N).
Proof.
  intros Hrun N HN.
  pose proof (root_spec slugify registered hooks_filter_fn render src) as H.
  rewrite Hrun in H. destruct H as (-> & _ & Hwf & He & _).
  set (h := heap s) in *. set (L := post_order (length h) h 0) in *.
  pose proof (wf_nonempty h Hwf) as Hne.
  assert (HL : ∀ x, x ∈ L ↔ in_tree h x).
  { intros x. apply post_order_elem; [done|done|lia]. }
  assert (Hnd : NoDup L) by (apply post_order_NoDup; [done|done|lia]).
  assert (Hlk : ∀ j x, events s !! j = Some ("init_node", x) ↔ L !! j = Some x).
  { intros j x. rewrite He. destruct (decide (j < length L)) as [Hj|Hj].
    - rewrite lookup_app_l by (by rewrite length_fmap).
      rewrite list_lookup_fmap. unfold init_event.
      destruct (L !! j); simpl; split; congruence.
    - rewrite lookup_app_r by (rewrite length_fmap; lia).
      rewrite (lookup_ge_None_2 L j) by lia.
      destruct (j - length (init_event <$> L)) as [|[|?]]; simpl; split; done. }
  split.
  - apply HL in HN. apply list_elem_of_lookup in HN as [j Hj].
    exists j. split; [by apply Hlk|].
    intros j' Hj'%Hlk. by eapply NoDup_lookup.
  - intros D HD. apply HL in HN.
    destruct (post_order_below h Hwf (length h) 0 N D) as (l1 & l2 & l3 & Heq);
      [done|lia|done|done|].
    fold L in Heq. exists (length l1), (length l1 + S (length l2)).
    split; [lia|]. rewrite !Hlk, Heq. split.
    + by rewrite list_lookup_middle.
    + rewrite lookup_app_r by lia.
      replace (length l1 + S (length l2) - length l1) with (S (length l2)) by lia.
      simpl. by rewrite list_lookup_middle.
Qed.

(** C8: the tree that [root()] has built is well formed.  Below every
    node the slugs of the children are pairwise distinct (and so are
    the keys of its [children]); the root is the only node without a
    parent; every other node is listed by its parent, a node of the
    tree, under its own slug; no node is listed by two parents or
    under two keys; no node is below itself. *)
Theorem built_tree_well_formed src r s :
  run_root src start = (Ok r, s) →
  let h := heap s in
  (∀ p n, in_tree h p → h !! p = Some n →
     NoDup (PyDict.keys (Node.children n)) ∧
     NoDup (slug_at h <$> PyDict.values (Node.children n))) ∧
  (∀ a n, in_tree h a → h !! a = Some n → Node.parent n = None ↔ a = r) ∧
  (∀ a n, in_tree h a → h !! a = Some n → a ≠ r →
     ∃ p np, Node.parent n = Some p ∧ in_tree h p ∧ h !! p = Some np ∧
             PyDict.get (Node.slug n) (Node.children np) = Some a) ∧
  (∀ p q kp kq a np nq,
     h !! p = Some np → h !! q = Some nq →
     (kp, a) ∈ Node.children np → (kq, a) ∈ Node.children nq →
     p = q ∧ kp = kq) ∧
  (∀ a, ¬ descendant h a a).
Proof.
  intros Hrun h. pose proof (root_is_0 src r s Hrun) as ->.
  pose proof (root_heap_wf src 0 s Hrun) as Hwf. fold h in Hwf.
  split_and!.
  - intros p n _ Hn. pose proof (wf_keys h Hwf p n Hn) as Hnd.
    split; [done|].
    apply NoDup_fmap_2_strong; [|by eapply values_NoDup].
    intros c1 c2 [k1 H1]%elem_values [k2 H2]%elem_values Heq.
    apply (elem_get _ _ _ Hnd) in H1, H2.
    destruct (wf_child h Hwf p n k1 c1 Hn H1) as (m1 & Hm1 & _ & Hs1).
    destruct (wf_child h Hwf p n k2 c2 Hn H2) as (m2 & Hm2 & _ & Hs2).
    unfold slug_at in Heq. rewrite Hm1, Hm2 in Heq. simpl in Heq. congruence.
  - intros a n _ Hn. pose proof (wf_parent h Hwf a n Hn) as Hp. split.
    + intros Hnone. by rewrite Hnone in Hp.
    + intros ->. by apply (root_parent h Hwf).
  - intros a n Ha Hn Hne. apply rtc_inv_r in Ha as [<-|(p & Hp & Hpa)]; [done|].
    apply (child_of_spec h Hwf) in Hpa as (np & m & Hnp & Hm & Hpm & Hget).
    simplify_eq. eauto 10.
  - intros p q kp kq a np nq Hnp Hnq Hkp Hkq.
    apply elem_get in Hkp; [|by eapply wf_keys].
    apply elem_get in Hkq; [|by eapply wf_keys].
    destruct (wf_child h Hwf p np kp a Hnp Hkp) as (m & Hm & Hpm & Hsm).
    destruct (wf_child h Hwf q nq kq a Hnq Hkq) as (m' & Hm' & Hpm' & Hsm').
    simplify_eq. done.
  - intros a Ha%(descendant_lt h Hwf). lia.
Qed.

(** C2 (as amended): the coterminous merge.  Let a directory listing
    hold a subdirectory and an accepted file (no dotfile, a registered
    extension, loadable) whose stems have the same slug [x], not
    ['index'], and let no other subdirectory and no other accepted file
    of the listing have that slug.  Then, whatever the order of the
    listing, after [parse_node_directory] the directory node has distinct
    keys in [children] and one child under [x]; that node has the
    children of the subdirectory's own listing, the file's metadata, the
    file's text under ['text'] unless the metadata has that key, and the
    file's extension. *)
Theorem coterminous_merge d es dstem lst fstem fsuffix t m s s' :
  builder_pre d s →
  EDir dstem (Some lst) ∈ es →
  EFile fstem fsuffix (Some (t, m)) ∈ es →
  slugify fstem = slugify dstem →
  slugify dstem ≠ "index" →
  startswith_dot fstem = false →
  registered (strip_dots fsuffix) = true →
  (∀ e, e ∈ es → dir_slug slugify e = Some (slugify dstem) →
        e = EDir dstem (Some lst)) →
  (∀ e, e ∈ es → file_slug slugify registered e = Some (slugify dstem) →
        e = EFile fstem fsuffix (Some (t, m))) →
  parse_node_directory slugify registered d (Some es) s = (Ok tt, s') →
  ∃ nd c nc,
    heap s' !! d = Some nd ∧
    NoDup (PyDict.keys (Node.children nd)) ∧
    PyDict.get (slugify dstem) (Node.children nd) = Some c ∧
    heap s' !! c = Some nc ∧
    Node.parent nc = Some d ∧ Node.slug nc = slugify dstem ∧
    (∀ k, k ∈ PyDict.keys (Node.children nc)
          ↔ k ∈ child_slugs slugify registered lst) ∧
    (∀ k v, m !! k = Some v → Node.data nc !! k = Some v) ∧
    (m !! "text" = None → Node.data nc !! "text" = Some (VStr t)) ∧
    Node.ext nc = strip_dots fsuffix.
Proof.
  intros Hpre Hdir Hfile Hsl Hidx Hdot Hreg Hud Huf Hrun.
  set (x := slugify dstem) in *.
  apply parse_node_directory_inv in Hrun as (s1 & Hrun1 & Hrun2).
  set (Q := λ nc : Node.t, ∀ k, k ∈ PyDict.keys (Node.children nc)
                                ↔ k ∈ child_slugs slugify registered lst).
  destruct (dir_loop_slot slugify registered d x dstem lst Q es eq_refl Hud
              (λ nc H, H) (scanned s) s1 Hpre Hrun1 (or_intror Hdir))
    as (Hpre1 & c & nc & Hslot & Hq).
  assert (Hacc : file_slug slugify registered (EFile fstem fsuffix (Some (t, m)))
                 = Some x).
  { simpl. rewrite Hdot, Hreg, Hsl. simpl.
    by rewrite bool_decide_eq_false_2. }
  destruct (file_loop_slot slugify registered d x fstem fsuffix t m Q es Hsl Hacc Huf
              (λ nc _ _ _ _ H, H) (scanned s1) s' Hpre1 Hrun2)
    as ((Hwf & _) & c' & nc' & n0 & (nd & Hd & Hx & Hnc) & Hq' & ->).
  { exists c, nc. split_and!; [done|done|by right]. }
  destruct (wf_child _ Hwf d nd x c' Hd Hx) as (mc & Hmc & Hpc & Hsc).
  simplify_eq. exists nd, c', (stored t m (strip_dots fsuffix) n0).
  split_and!; try done.
  - by eapply wf_keys.
  - intros k v Hk. simpl. by apply lookup_union_Some_l.
  - intros Ht. simpl. rewrite lookup_union_r by done. apply lookup_insert_eq.
Qed.
End Claims.

(** C5: [inherit(key, default)] on a node of a well-formed store returns:
    it gives the value under [key] at the nearest node of the parent
    chain, the node itself included, whose data has [key], and the
    default when the chain ends at the root without one. *)
Theorem inherit_nearest_ancestor h a key dflt :
  heap_wf h → a < length h →
  ∃ r, nearest h key a r ∧ Node.inherit h a key dflt = Some (default dflt r).
Proof.
  intros Hwf Ha. destruct (nearest_total h Hwf key a Ha) as [r Hr].
  exists r. split; [done|]. by apply nearest_inherit.
Qed.

(** C7: the path of a node is the sequence of slugs that leads from the
    root to it, and every node of the tree has one; the url of the root
    (empty path) is ['@root/'], that of any other node is ['@root/'],
    the slugs joined by ['/'], and ['//']. *)
Theorem path_and_url_forms h :
  heap_wf h →
  (∀ a, in_tree h a → ∃ sl, Node.descend h 0 sl = Some (Some a)) ∧
  ∀ sl a, Node.descend h 0 sl = Some (Some a) →
    Node.path h a = Some sl ∧
    Node.url h a =
      Some (match sl with
            | [] => "@root/"
            | _ => "@root/" +:+ String.concat "/" sl +:+ "//"
            end).
Proof.
  intros Hwf. split; [intros a; by apply in_tree_descend|].
  intros sl a Hd. pose proof (descend_path h Hwf sl a Hd) as Hp.
  split; [done|]. unfold Node.url.
  destruct (in_tree_lookup h Hwf a (descend_in_tree h sl a Hd)) as [n Hn].
  rewrite Hn. simpl. pose proof Hp as Hp'.
  rewrite (path_unfold h Hwf a n Hn) in Hp'.
  destruct (Node.parent n) as [p|].
  - rewrite Hp. simpl. destruct (Node.path h p) as [l|]; [|done].
    injection Hp' as <-. by destruct l.
  - by injection Hp' as <-.
Qed.

(** C9: [childlist] of a node of a well-formed store returns the node's
    children, each once, in strictly ascending order of their slugs. *)
Theorem childlist_sorted_by_slug h a n :
  heap_wf h → h !! a = Some n →
  ∃ l, Node.childlist h a = Some l ∧
       l ≡ₚ PyDict.values (Node.children n) ∧
       StronglySorted (strict String.le) (slug_at h <$> l).
Proof.
  intros Hwf Hn. destruct (childlist_spec h a n Hwf Hn) as (l & Hl & Hperm & Hsl).
  exists l. split_and!; try done. rewrite Hsl.
  apply StronglySorted_strict; [apply _|..].
  - apply StronglySorted_merge_sort; apply _.
  - unfold Node.sorted. rewrite merge_sort_Permutation. by eapply wf_keys.
Qed.

(** ** The claims at work on the demo directory *)

(** C1 as stated fails: on [demo_broken] the first [root()] raises, yet
    the root node is cached with the two children linked so far, and the
    next [root()] returns it, never initialized. *)
Lemma failed_root_stays_cached :
  let run := demo_root demo_broken start in
  run.1 = Raise OSError ∧
  cache run.2 = Some 0 ∧
  Node.slug <$> heap run.2 = [""; "about"; "drafts"] ∧
  events run.2 = [] ∧
  demo_root demo_broken run.2 = (Ok 0, run.2).
Proof. by vm_compute. Qed.

Lemma root_error_keeps_partial_tree_witness :
  let s1 := (demo_root demo_broken start).2 in
  demo_root demo_broken start = (Raise OSError, s1) ∧
  (OSError = OSError ∧ cache s1 = Some 0 ∧ events s1 = [] ∧
   ∀ src', demo_root src' s1 = (Ok 0, s1)).
Proof.
  intros s1. split; [by vm_compute|].
  apply (root_error_keeps_partial_tree id demo_registered demo_filter demo_render
           demo_broken OSError s1).
  by vm_compute.
Defined.

(** C3 as stated fails when the metadata of the index file has a
    ['text'] key: [update] runs after the text has been assigned, so
    the node of the directory ends with the metadata's value and the
    text of the file is stored nowhere. *)
Lemma index_text_replaced_by_metadata :
  let run := parse_node_file id 0 "index" ".md"
               (Some ("Home", {["text" := VStr "from meta"]})) boot in
  run.1 = Ok tt ∧
  (λ n, Node.data n !! "text") <$> heap run.2 = [Some (VStr "from meta")].
Proof. by vm_compute. Qed.

Lemma index_file_populates_directory_node_witness :
  heap boot !! 0 = Some Node.new ∧
  ∃ s' n',
    parse_node_file id 0 "index" ".md"
      (Some ("Home", {["template" := VStr "base"]})) boot = (Ok tt, s') ∧
    heap s' !! 0 = Some n' ∧
    Node.data n' = {["template" := VStr "base"]}
                     ∪ <["text" := VStr "Home"]> (Node.data Node.new) ∧
    (∀ k v, ({["template" := VStr "base"]} : gmap string value) !! k = Some v →
            Node.data n' !! k = Some v) ∧
    (({["template" := VStr "base"]} : gmap string value) !! "text" = None →
     Node.data n' !! "text" = Some (VStr "Home")) ∧
    Node.ext n' = strip_dots ".md" ∧
    Node.children n' = Node.children Node.new ∧
    length (heap s') = length (heap boot).
Proof.
  split; [reflexivity|].
  apply (index_file_populates_directory_node id 0 "index" ".md" "Home"
           {["template" := VStr "base"]} boot Node.new);
    reflexivity.
Defined.

Lemma index_file_frame_witness :
  heap boot !! 0 = Some Node.new ∧
  ∃ s' n',
    parse_node_file id 0 "index" ".md" (Some ("Home", ∅)) boot = (Ok tt, s') ∧
    heap s' !! 0 = Some n' ∧
    Node.slug n' = Node.slug Node.new ∧ Node.stem n' = Node.stem Node.new ∧
    Node.parent n' = Node.parent Node.new ∧
    Node.children n' = Node.children Node.new ∧
    (∀ k, k ≠ "text" → (∅ : gmap string value) !! k = None →
          Node.data n' !! k = Node.data Node.new !! k) ∧
    (∀ a, a ≠ 0 → heap s' !! a = heap boot !! a) ∧
    cache s' = cache boot ∧ events s' = events boot.
Proof.
  split; [reflexivity|].
  apply (index_file_frame id 0 "index" ".md" "Home" ∅ boot Node.new); reflexivity.
Defined.

Lemma root_memoizes_witness :
  demo_root demo_src start = (Ok 0, demo_state) ∧
  (∃ es, demo_src = Some es ∧
     scans demo_state = 2 * S (sum_list_with n_dirs es) ∧
     loads demo_state = sum_list_with (n_files demo_registered) es) ∧
  (∃ L, events demo_state = (init_event <$> L) ++ [("init_tree", 0)] ∧
        NoDup L ∧ ∀ a, a ∈ L ↔ in_tree (heap demo_state) a) ∧
  ∀ src', demo_root src' demo_state = (Ok 0, demo_state).
Proof.
  split; [by vm_compute|].
  apply (root_memoizes id demo_registered demo_filter demo_render demo_src 0 demo_state).
  by vm_compute.
Defined.

(** The build of the demo directory: four directories, four accepted
    files, six nodes. *)
Lemma demo_build_counts :
  scans demo_state = 8 ∧ loads demo_state = 4 ∧
  events demo_state =
    [("init_node", 2); ("init_node", 1); ("init_node", 5); ("init_node", 4);
     ("init_node", 3); ("init_node", 0); ("init_tree", 0)].
Proof. by vm_compute. Qed.

Lemma init_node_fires_bottom_up_witness :
  demo_root demo_src start = (Ok 0, demo_state) ∧
  ∀ N, in_tree (heap demo_state) N →
    (∃ j, events demo_state !! j = Some ("init_node", N) ∧
          ∀ j', events demo_state !! j' = Some ("init_node", N) → j' = j) ∧
    ∀ D, descendant (heap demo_state) N D →
      ∃ i j, i < j ∧ events demo_state !! i = Some ("init_node", D)
             ∧ events demo_state !! j = Some ("init_node", N).
Proof.
  split; [by vm_compute|].
  apply (init_node_fires_bottom_up id demo_registered demo_filter demo_render
           demo_src 0 demo_state).
  by vm_compute.
Defined.

Lemma built_tree_well_formed_witness :
  demo_root demo_src start = (Ok 0, demo_state) ∧
  ∀ a, ¬ descendant (heap demo_state) a a.
Proof.
  split; [by vm_compute|].
  apply (built_tree_well_formed id demo_registered demo_filter demo_render
           demo_src 0 demo_state).
  by vm_compute.
Defined.

Lemma demo_heap_wf : heap_wf (heap demo_state).
Proof.
  apply (root_heap_wf id demo_registered demo_filter demo_render demo_src 0).
  by vm_compute.
Qed.

(** The node of [blog/2023/post.md] inherits the template of the index
    file of the source directory. *)
Lemma inherit_nearest_ancestor_witness :
  5 < length (heap demo_state) ∧
  Node.inherit (heap demo_state) 5 "template" VNone = Some (VStr "base") ∧
  ∃ r, nearest (heap demo_state) "template" 5 r ∧
       Node.inherit (heap demo_state) 5 "template" VNone = Some (default VNone r).
Proof.
  split; [vm_compute; lia|]. split; [by vm_compute|].
  apply (inherit_nearest_ancestor (heap demo_state) 5 "template" VNone).
  - apply demo_heap_wf.
  - vm_compute; lia.
Defined.

Lemma path_and_url_forms_witness :
  Node.descend (heap demo_state) 0 ["blog"; "2023"; "post"] = Some (Some 5) ∧
  Node.path (heap demo_state) 5 = Some ["blog"; "2023"; "post"] ∧
  Node.url (heap demo_state) 5 = Some "@root/blog/2023/post//" ∧
  Node.path (heap demo_state) 0 = Some [] ∧
  Node.url (heap demo_state) 0 = Some "@root/".
Proof.
  destruct (path_and_url_forms (heap demo_state) demo_heap_wf) as [_ H].
  assert (H5 : Node.descend (heap demo_state) 0 ["blog"; "2023"; "post"]
               = Some (Some 5)) by by vm_compute.
  assert (H0 : Node.descend (heap demo_state) 0 [] = Some (Some 0)) by done.
  destruct (H _ _ H5) as [Hp5 Hu5]. destruct (H _ _ H0) as [Hp0 Hu0].
  split_and!; done.
Defined.

Lemma childlist_sorted_by_slug_witness :
  Node.childlist (heap demo_state) 0 = Some [1; 3] ∧
  ∃ n, heap demo_state !! 0 = Some n ∧
  ∃ l, Node.childlist (heap demo_state) 0 = Some l ∧
       l ≡ₚ PyDict.values (Node.children n) ∧
       StronglySorted (strict String.le) (slug_at (heap demo_state) <$> l).
Proof.
  split; [by vm_compute|].
  destruct (heap demo_state !! 0) as [n|] eqn:Hn; [|by vm_compute in Hn].
  exists n. split; [done|].
  by apply (childlist_sorted_by_slug (heap demo_state) 0 n demo_heap_wf).
Defined.

(** C2 as stated fails for the slug ['index']: the directory [index/]
    and the file [index.md] lie in the same directory and [md] is
    registered, yet the one node under the slug ['index'] has the
    directory's child and neither the text nor the extension of the
    file, which went to the parent node. *)
Lemma index_directory_not_merged :
  let run := parse_node_directory id demo_registered 0 (Some demo_index_entries) boot in
  run.1 = Ok tt ∧
  (λ n, (Node.slug n, Node.children n, Node.data n !! "text", Node.ext n))
    <$> heap run.2
  = [ ("", [("index", 1)], Some (VStr "Home"), "md");
      ("index", [("a", 2)], Some (VStr ""), "");
      ("a", [], Some (VStr "A"), "md") ].
Proof. by vm_compute. Qed.

Lemma demo_builder_pre : builder_pre 0 boot.
Proof. split; [apply heap_wf_boot|]. split; [apply rtc_refl|done]. Qed.

(** [about.md] comes before [about/] in the listing of the demo. *)
Lemma coterminous_merge_witness :
  let s' := (parse_node_directory id demo_registered 0 demo_src boot).2 in
  parse_node_directory id demo_registered 0 demo_src boot = (Ok tt, s') ∧
  ∃ nd c nc,
    heap s' !! 0 = Some nd ∧
    NoDup (PyDict.keys (Node.children nd)) ∧
    PyDict.get "about" (Node.children nd) = Some c ∧
    heap s' !! c = Some nc ∧
    Node.parent nc = Some 0 ∧ Node.slug nc = "about" ∧
    (∀ k, k ∈ PyDict.keys (Node.children nc)
          ↔ k ∈ child_slugs id demo_registered
                  [EFile "team" ".md" (Some ("The team", ∅))]) ∧
    (∀ k v, ({["title" := VStr "About"]} : gmap string value) !! k = Some v →
            Node.data nc !! k = Some v) ∧
    (({["title" := VStr "About"]} : gmap string value) !! "text" = None →
     Node.data nc !! "text" = Some (VStr "About us")) ∧
    Node.ext nc = strip_dots ".md".
Proof.
  intros s'. split; [by vm_compute|].
  apply (coterminous_merge id demo_registered 0 demo_entries "about"
           [EFile "team" ".md" (Some ("The team", ∅))]
           "about" ".md" "About us" {["title" := VStr "About"]} boot s').
  - apply demo_builder_pre.
  - right. left.
  - left.
  - reflexivity.
  - discriminate.
  - reflexivity.
  - reflexivity.
  - intros e He Hs. unfold demo_entries in He.
    repeat (apply elem_of_cons in He as [->|He]); try discriminate Hs.
    + reflexivity.
    + by apply elem_of_nil in He.
  - intros e He Hs. unfold demo_entries in He.
    repeat (apply elem_of_cons in He as [->|He]); try discriminate Hs.
    + reflexivity.
    + by apply elem_of_nil in He.
  - by vm_compute.
Defined.

(** The invariant of C8 is about the nodes of the tree.  A directory
    whose slug is taken again by a later directory of the same listing
    is replaced in its parent's [children]: its node (address 1 below)
    still names the root as parent but is no node of the tree any more. *)
Lemma shadowed_directory_leaves_tree :
  let run := demo_root (Some demo_shadow_entries) start in
  run.1 = Ok 0 ∧
  links (heap run.2) =
    [ (None, "", [("v1", 3)]);
      (Some 0, "v1", [("a", 2)]);
      (Some 1, "a", []);
      (Some 0, "v1", []) ].
Proof. by vm_compute. Qed.

(** * Further properties of the module *)

(** ** Looking nodes up *)

Lemma descend_app h r l1 l2 :
  Node.descend h r (l1 ++ l2) =
    match Node.descend h r l1 with
    | Some (Some a) => Node.descend h a l2
    | o => o
    end.
Proof.
  revert r. induction l1 as [|k l1 IH]; intros r; simpl; [done|].
  destruct (h !! r) as [n|]; simpl; [|done].
  destruct (PyDict.get k (Node.children n)); [apply IH|done].
Qed.

Lemma descend_total h r sl :
  heap_wf h → r < length h → is_Some (Node.descend h r sl).
Proof.
  intros Hwf. revert r. induction sl as [|k sl IH]; intros r Hr; simpl; [done|].
  destruct (lookup_lt_is_Some_2 h r Hr) as [n Hn]. rewrite Hn. simpl.
  destruct (PyDict.get k (Node.children n)) as [c|] eqn:Hk; [|done].
  destruct (wf_child h Hwf r n k c Hn Hk) as (m & Hm & _).
  apply IH. by eapply lookup_lt_Some.
Qed.

Lemma node_run sl s :
  cache s = Some 0 →
  node sl s =
    match Node.descend (heap s) 0 sl with
    | Some o => (Ok o, s)
    | None => (Raise Stuck, s)
    end.
Proof. intros Hc. unfold node, bind, cached_root, read. by rewrite Hc. Qed.

(** X1: [node] undoes [path]: called with the path of a node of the
    tree it returns that very node, and leaves the state alone. *)
Theorem node_of_path s a :
  heap_wf (heap s) → cache s = Some 0 → in_tree (heap s) a →
  ∃ sl, Node.path (heap s) a = Some sl ∧ node sl s = (Ok (Some a), s).
Proof.
  intros Hwf Hc Ha. destruct (in_tree_path _ Hwf a Ha) as (sl & Hp & Hd).
  exists sl. split; [done|]. by rewrite node_run, Hd.
Qed.

(** X2: on a well-formed store [node] never raises and changes nothing;
    what it returns is a node of the tree or [None], and once a path
    gives [None] every longer path does. *)
Theorem node_returns_tree_node_or_none s sl :
  heap_wf (heap s) → cache s = Some 0 →
  ∃ o, node sl s = (Ok o, s) ∧
    (∀ a, o = Some a → in_tree (heap s) a) ∧
    (o = None → ∀ sl', node (sl ++ sl') s = (Ok None, s)).
Proof.
  intros Hwf Hc.
  destruct (descend_total (heap s) 0 sl Hwf (wf_nonempty _ Hwf)) as [o Ho].
  exists o. rewrite node_run, Ho by done. split_and!; [done|..].
  - intros a ->. by eapply descend_in_tree.
  - intros -> sl'. by rewrite node_run, descend_app, Ho.
Qed.

(** X3: the sequence of slugs identifies the node: two paths on which
    [node] returns the same node are equal. *)
Theorem node_path_unique s sl sl' a :
  heap_wf (heap s) → cache s = Some 0 →
  node sl s = (Ok (Some a), s) → node sl' s = (Ok (Some a), s) →
  sl = sl'.
Proof.
  intros Hwf Hc. rewrite !node_run by done.
  destruct (Node.descend (heap s) 0 sl) as [o|] eqn:H1; [|done].
  destruct (Node.descend (heap s) 0 sl') as [o'|] eqn:H2; [|done].
  intros [= ->] [= ->].
  pose proof (descend_path _ Hwf _ _ H1). pose proof (descend_path _ Hwf _ _ H2).
  congruence.
Qed.

(** ** Reading and writing attributes *)

(** X4: plain access raises [KeyError] exactly when [in] says that the
    key is absent; [get] never raises: it gives what plain access gives,
    and the default for an absent key. *)
Theorem getitem_contains_get s a n key dflt :
  heap s !! a = Some n →
  ∃ b, contains (heap s) a key = Some b ∧
    (b = true →
       ∃ v, getitem a key s = (Ok v, s) ∧ Node.get (heap s) a key dflt = Some v) ∧
    (b = false →
       getitem a key s = (Raise KeyError, s) ∧
       Node.get (heap s) a key dflt = Some dflt).
Proof.
  intros Hn. unfold contains, getitem, Node.get. rewrite Hn. simpl.
  eexists. split; [done|].
  destruct (Node.data n !! key) as [v|] eqn:Hv; split.
  - intros _. eauto.
  - intros Hb. apply bool_decide_eq_false in Hb. destruct Hb. eauto.
  - intros Hb. apply bool_decide_eq_true in Hb. by destruct Hb.
  - done.
Qed.

(** X5: an attribute that was written is read back, by plain access and
    by [get]; the other keys of the node and all other nodes read as
    before, and the tree structure is untouched. *)
Theorem setitem_getitem s a n key v :
  heap s !! a = Some n →
  ∃ s', setitem a key v s = (Ok tt, s') ∧
    getitem a key s' = (Ok v, s') ∧
    (∀ b k d, (b, k) ≠ (a, key) →
       Node.get (heap s') b k d = Node.get (heap s) b k d) ∧
    links (heap s') = links (heap s).
Proof.
  intros Hn. pose proof (lookup_lt_Some _ _ _ Hn) as Hlt.
  eexists. split; [by apply update_node_Ok|]. split_and!.
  - eapply getitem_Ok; [by apply list_lookup_insert_eq|]. apply lookup_insert_eq.
  - intros b k d Hne. unfold Node.get. simpl.
    destruct (decide (a = b)) as [<-|Hab].
    + rewrite list_lookup_insert_eq, Hn by done. simpl.
      rewrite lookup_insert_ne by congruence. done.
    + by rewrite list_lookup_insert_ne.
  - simpl. by eapply links_update.
Qed.

(** X6: [has_children] says whether [childlist] is non-empty, and
    [childlist] has as many nodes as the [children] dict has keys. *)
Theorem has_children_childlist h a n :
  heap_wf h → h !! a = Some n →
  ∃ l, Node.childlist h a = Some l ∧
    length l = length (Node.children n) ∧
    Node.has_children h a = Some (bool_decide (l ≠ [])).
Proof.
  intros Hwf Hn. destruct (childlist_spec h a n Hwf Hn) as (l & Hl & Hperm & _).
  exists l. split; [done|].
  assert (Hlen : length l = length (Node.children n)).
  { rewrite Hperm. unfold PyDict.values. by rewrite length_fmap. }
  split; [done|]. unfold Node.has_children. rewrite Hn. simpl. f_equal.
  apply bool_decide_ext. rewrite <-Hlen. destruct l; simpl; split; (done || lia).
Qed.

(** ** Invariants of the builder and of the initializer *)

Lemma keeps_bind (I : Node.t → Prop) {A B} (m : M A) (k : A → M B) :
  keeps I m → (∀ a, keeps I (k a)) → keeps I (bind m k).
Proof.
  intros Hm Hk s Hs. unfold bind. specialize (Hm s Hs).
  destruct (m s) as [[a|e] s1]; simpl in *; [by apply Hk|done].
Qed.

Lemma keeps_same_heap (I : Node.t → Prop) {A} (m : M A) :
  (∀ s, heap (m s).2 = heap s) → keeps I m.
Proof. intros H s Hs. by rewrite H. Qed.

Lemma keeps_update_node (I : Node.t → Prop) a f :
  (∀ n, I n → I (f n)) → keeps I (update_node a f).
Proof.
  intros Hf s Hs. unfold update_node.
  destruct (heap s !! a) as [n|] eqn:Hn; simpl; [|done].
  apply Forall_insert; [done|]. apply Hf. by eapply Forall_lookup_1.
Qed.

Lemma keeps_new_node (I : Node.t → Prop) : I Node.new → keeps I new_node.
Proof. intros Hnew s Hs. simpl. apply Forall_app. split; [done|]. by constructor. Qed.

Lemma keeps_read (I : Node.t → Prop) {A} (f : Node.heap → option A) :
  keeps I (read f).
Proof. apply keeps_same_heap. intros s. unfold read. by destruct (f (heap s)). Qed.

Lemma keeps_getitem (I : Node.t → Prop) a k : keeps I (getitem a k).
Proof.
  apply keeps_same_heap. intros s. unfold getitem.
  destruct (heap s !! a) as [n|]; [|done]. by destruct (Node.data n !! k).
Qed.

Lemma keeps_cached_root (I : Node.t → Prop) : keeps I cached_root.
Proof. apply keeps_same_heap. intros s. unfold cached_root. by destruct (cache s). Qed.

Lemma keeps_for_each (I : Node.t → Prop) {A} (body : A → M unit) l :
  Forall (λ x, keeps I (body x)) l → keeps I (for_each body l).
Proof.
  induction 1 as [|x l Hx _ IH]; [by intros s|].
  apply keeps_bind; [done|]. intros _. apply IH.
Qed.

Lemma has_defaults_insert k v n :
  has_defaults n → has_defaults (Node.with_data (insert k v) n).
Proof.
  intros [Ht Hh]. split; simpl; apply lookup_insert_is_Some'; by right.
Qed.

Lemma has_defaults_union m n :
  has_defaults n → has_defaults (Node.with_data (λ d, m ∪ d) n).
Proof.
  intros [Ht Hh]. split; simpl; apply lookup_union_is_Some; by right.
Qed.

Lemma has_defaults_new : has_defaults Node.new.
Proof.
  split; simpl.
  - rewrite lookup_insert_ne by done. rewrite lookup_insert_eq. eauto.
  - rewrite lookup_insert_eq. eauto.
Qed.

(** The steps of a block that keeps the default attributes. *)
Ltac keeps_block :=
  repeat first
    [ apply keeps_read | apply keeps_getitem | apply keeps_cached_root
    | apply keeps_new_node, has_defaults_new
    | apply keeps_update_node; first
        [ apply has_defaults_insert | apply has_defaults_union | by intros ? ]
    | by apply keeps_same_heap
    | apply keeps_bind; [|intros ?]
    | match goal with
      | |- keeps _ (if ?b then _ else _) => destruct b
      | |- keeps _ (match ?x with _ => _ end) => destruct x
      end ].

(** The relation [rendered] *)

Lemma same_but_rendered_refl n : same_but_rendered n n.
Proof. by repeat split. Qed.

Lemma same_but_rendered_trans n1 n2 n3 :
  same_but_rendered n1 n2 → same_but_rendered n2 n3 → same_but_rendered n1 n3.
Proof.
  intros (?&?&?&?&?&Hd1) (?&?&?&?&?&Hd2).
  split_and!; try congruence. intros k ??. by rewrite Hd2, Hd1.
Qed.

Lemma rendered_refl h : rendered h h.
Proof. apply Forall_Forall2_diag, Forall_forall. intros n _. apply same_but_rendered_refl. Qed.

Lemma rendered_trans h1 h2 h3 : rendered h1 h2 → rendered h2 h3 → rendered h1 h3.
Proof.
  intros H12 H23. eapply Forall2_trans; [|exact H12|exact H23].
  apply same_but_rendered_trans.
Qed.

Lemma rendered_insert h a n k v :
  h !! a = Some n → (k = "text" ∨ k = "html") →
  rendered h (<[a := Node.with_data (insert k v) n]> h).
Proof.
  intros Hn Hk. rewrite <-(list_insert_id h a n Hn) at 1.
  apply Forall2_insert; [apply rendered_refl|].
  split_and!; try done. intros k' ??. simpl.
  apply lookup_insert_ne. destruct Hk; congruence.
Qed.

Lemma renders_bind {A B} (m : M A) (k : A → M B) :
  renders m → (∀ a, renders (k a)) → renders (bind m k).
Proof.
  intros Hm Hk s. unfold bind. specialize (Hm s).
  destruct (m s) as [[a|e] s1]; simpl in *; [|done].
  eapply rendered_trans; [exact Hm|apply Hk].
Qed.

Lemma renders_same_heap {A} (m : M A) :
  (∀ s, heap (m s).2 = heap s) → renders m.
Proof. intros H s. rewrite H. apply rendered_refl. Qed.

Lemma renders_setitem a k v :
  (k = "text" ∨ k = "html") → renders (setitem a k v).
Proof.
  intros Hk s. unfold setitem, update_node.
  destruct (heap s !! a) as [n|] eqn:Hn; simpl; [|apply rendered_refl].
  by apply rendered_insert.
Qed.

Lemma renders_for_each {A} (body : A → M unit) l :
  (∀ x, renders (body x)) → renders (for_each body l).
Proof.
  intros Hb. induction l as [|x l IH]; [apply renders_same_heap; done|].
  apply renders_bind; [apply Hb|]. intros _. apply IH.
Qed.

Section Building.
Context (slugify : string → string) (registered : string → bool).
Context (hooks_filter_fn : string → value → Node.heap → addr → value).
Context (render : value → string → value).

Lemma keeps_node sl : keeps has_defaults (node sl).
Proof. unfold node. keeps_block. Qed.

Lemma keeps_parse_node_file d fstem fsuffix content :
  keeps has_defaults (parse_node_file slugify d fstem fsuffix content).
Proof.
  pose proof keeps_node.
  unfold parse_node_file, setitem, update, loader_load. keeps_block.
Qed.

Lemma keeps_file_loop_body d e :
  keeps has_defaults (file_loop_body slugify registered d e).
Proof.
  destruct e as [dstem lst|fstem fsuffix content|ostem]; simpl;
    try (by intros s).
  destruct (startswith_dot fstem); [by intros s|].
  destruct (negb (registered (strip_dots fsuffix))); [by intros s|].
  apply keeps_parse_node_file.
Qed.

Lemma keeps_dir_loop_body e :
  ∀ d, keeps has_defaults (dir_loop_body slugify registered d e).
Proof.
  induction e as [dstem|dstem es IH|fstem fsuffix content|ostem]
    using Entry_nested_ind; intros d; simpl; try (by intros s).
  - keeps_block.
  - keeps_block.
    + apply (keeps_for_each has_defaults (dir_loop_body slugify registered a)).
      eapply Forall_impl; [exact IH|]. auto.
    + apply keeps_for_each, Forall_forall. intros e _. apply keeps_file_loop_body.
Qed.

Lemma keeps_parse_node_directory d lst :
  keeps has_defaults (parse_node_directory slugify registered d lst).
Proof.
  unfold parse_node_directory, iterdir. keeps_block.
  - apply keeps_for_each, Forall_forall. intros e _. apply keeps_dir_loop_body.
  - apply keeps_for_each, Forall_forall. intros e _. apply keeps_file_loop_body.
Qed.

Lemma keeps_init fuel : ∀ a, keeps has_defaults (init hooks_filter_fn render fuel a).
Proof.
  induction fuel as [|fuel IH]; intros a; simpl; [by intros s|].
  unfold setitem, hooks_filter. keeps_block.
  apply keeps_for_each, Forall_forall. intros c _.
  apply keeps_bind; [apply IH|by intros ? s].
Qed.

Lemma keeps_root src :
  keeps has_defaults (root slugify registered hooks_filter_fn render src).
Proof.
  intros s Hs. unfold root. destruct (cache s); [done|].
  match goal with
  | |- Forall _ (heap (?m s).2) =>
      cut (keeps has_defaults m); [intros Hk; by apply Hk|]
  end.
  keeps_block.
  - apply keeps_for_each, Forall_forall. intros e _. apply keeps_dir_loop_body.
  - apply keeps_for_each, Forall_forall. intros e _. apply keeps_file_loop_body.
  - apply keeps_init.
Qed.

(** X7: whatever [root()] does on a fresh process, return or raise,
    every node that exists afterwards has the attributes ['text'] and
    ['html']: plain access to them does not raise. *)
Theorem nodes_have_text_and_html src res s :
  root slugify registered hooks_filter_fn render src start = (res, s) →
  ∀ a n, heap s !! a = Some n →
    ∃ t h, getitem a "text" s = (Ok t, s) ∧ getitem a "html" s = (Ok h, s).
Proof.
  intros Hrun a n Hn.
  pose proof (keeps_root src start (Forall_nil_2 _)) as H. rewrite Hrun in H.
  destruct (Forall_lookup_1 _ _ _ _ H Hn) as [[t Ht] [h Hh]].
  exists t, h. split; by eapply getitem_Ok.
Qed.

(** *** init *)

Lemma renders_init fuel : ∀ a, renders (init hooks_filter_fn render fuel a).
Proof.
  induction fuel as [|fuel IH]; intros a; simpl; [by apply renders_same_heap|].
  assert (Hget : ∀ k, renders (getitem a k)).
  { intros k. apply renders_same_heap. intros s. unfold getitem.
    destruct (heap s !! a) as [n|]; [|done]. by destruct (Node.data n !! k). }
  assert (Hread : ∀ A (f : Node.heap → option A), renders (read f)).
  { intros A f. apply renders_same_heap. intros s. unfold read.
    by destruct (f (heap s)). }
  apply renders_bind; [apply Hget|intros t].
  apply renders_bind; [by apply renders_same_heap|intros t'].
  apply renders_bind; [apply renders_setitem; by left|intros _].
  apply renders_bind; [apply Hget|intros t''].
  apply renders_bind; [apply Hread|intros e].
  apply renders_bind; [by apply renders_same_heap|intros html].
  apply renders_bind; [apply renders_setitem; by right|intros _].
  apply renders_bind; [apply Hread|intros cs].
  apply renders_bind; [|intros _; apply renders_bind;
                         [by apply renders_same_heap|by intros _; apply renders_same_heap]].
  apply renders_for_each. intros c.
  apply renders_bind; [apply IH|by intros _; apply renders_same_heap].
Qed.

(** X8: [init], whether it returns or raises, creates no node and
    changes of no node anything but the ['text'] and ['html'] entries
    of [data]: parent, children, slug, stem, extension and all metadata
    stay. *)
Theorem init_changes_text_and_html_only fuel a s :
  let s' := (init hooks_filter_fn render fuel a s).2 in
  length (heap s') = length (heap s) ∧
  ∀ b n, heap s !! b = Some n →
    ∃ n', heap s' !! b = Some n' ∧ same_but_rendered n n'.
Proof.
  intros s'. pose proof (renders_init fuel a s) as H. fold s' in H. split.
  - symmetry. by eapply Forall2_length.
  - intros b n Hn. destruct (Forall2_lookup_l _ _ _ _ _ H Hn) as (n' & Hn' & Hr).
    eauto.
Qed.

(** *** Call counts and top-level slugs of a built tree *)

(** X9: a first [root()] that returns has listed the source directory
    and every directory below it exactly twice, and has called
    [loader.load] exactly once for every accepted file. *)
Theorem root_call_counts es r s :
  root slugify registered hooks_filter_fn render (Some es) start = (Ok r, s) →
  scans s = 2 * S (sum_list_with n_dirs es) ∧
  loads s = sum_list_with (n_files registered) es.
Proof. apply root_scans_loads. Qed.

(** X10: after [root()], [node] finds a node under a single slug
    exactly when the source directory has a subdirectory with that slug
    or an accepted file with it that is no index file. *)
Theorem root_children_slugs es r s x :
  root slugify registered hooks_filter_fn render (Some es) start = (Ok r, s) →
  (∃ c, node [x] s = (Ok (Some c), s)) ↔ x ∈ child_slugs slugify registered es.
Proof.
  intros Hrun.
  pose proof (root_spec slugify registered hooks_filter_fn render (Some es)) as H.
  rewrite Hrun in H.
  destruct H as (-> & Hc & Hwf & _ & es' & s1 & [= <-] & Hstep & Hl).
  destruct Hstep as (_ & _ & _ & _ & _ & n & n' & Hn & Hn' & _ & _ & Hk).
  injection Hn as <-.
  destruct (links_children _ _ 0 n' (eq_sym Hl) Hn') as (n'' & Hn'' & Hch & _).
  rewrite node_run by done. simpl. rewrite Hn''. simpl. rewrite Hch.
  split.
  - intros [c Hget].
    assert (Hx : x ∈ PyDict.keys (Node.children n')).
    { apply get_is_Some_keys.
      destruct (PyDict.get x (Node.children n')); [eauto|done]. }
    apply Hk in Hx as [Hx|Hx]; [by apply elem_of_nil in Hx|done].
  - intros Hx.
    assert (is_Some (PyDict.get x (Node.children n'))) as [c Hget]
      by (apply get_is_Some_keys, Hk; by right).
    exists c. by rewrite Hget.
Qed.
End Building.

(** ** walk *)

Lemma bind_Ok_assoc {A B C} (m : M A) (k : A → M B) (k' : B → M C) s :
  bind (bind m k) k' s = bind m (λ a, bind (k a) k') s.
Proof. unfold bind. by destruct (m s) as [[a|e] s1]. Qed.

Lemma for_each_app {A} (body : A → M unit) l1 l2 s :
  for_each body (l1 ++ l2) s = (for_each body l1 ;;; for_each body l2) s.
Proof.
  revert s. induction l1 as [|x l1 IH]; intros s; [done|].
  simpl. unfold bind at 1. rewrite (bind_Ok_assoc (body x)).
  unfold bind at 1. destruct (body x s) as [[[]|e] s1]; [|done].
  apply IH.
Qed.

Section Walk.
Context (h0 : Node.heap) (Hwf : heap_wf h0).
Context (callback : addr → M unit).
Context (Hcb : ∀ a s, links (heap s) = links h0 →
           ∃ s', callback a s = (Ok tt, s') ∧ links (heap s') = links h0).

Lemma for_each_callback l : ∀ s,
  links (heap s) = links h0 →
  ∃ s', for_each callback l s = (Ok tt, s') ∧ links (heap s') = links h0.
Proof.
  induction l as [|x l IH]; intros s Hs; [by exists s|].
  destruct (Hcb x s Hs) as (s1 & Hrun & Hs1).
  destruct (IH s1 Hs1) as (s2 & Hrun2 & Hs2).
  exists s2. split; [|done]. simpl. by erewrite bind_Ok.
Qed.

Lemma walk_children fuel cs :
  Forall (walk_ok h0 callback fuel) cs →
  ∀ s, links (heap s) = links h0 →
    ∃ s', for_each (walk fuel callback) cs s = (Ok tt, s') ∧
          for_each callback (concat (post_order fuel h0 <$> cs)) s = (Ok tt, s') ∧
          links (heap s') = links h0.
Proof.
  induction 1 as [|c cs Hc _ IH]; intros s Hs; [by exists s|].
  destruct (Hc s Hs) as (s1 & Hw & Hf & Hs1).
  destruct (IH s1 Hs1) as (s2 & Hw2 & Hf2 & Hs2).
  exists s2. split_and!; [|  |done].
  - simpl. by erewrite bind_Ok.
  - simpl. rewrite for_each_app. by erewrite bind_Ok.
Qed.

Lemma walk_spec fuel : ∀ a,
  a < length h0 → length h0 - a ≤ fuel → walk_ok h0 callback fuel a.
Proof.
  induction fuel as [|fuel IH]; intros a Ha Hf s Hs; [lia|].
  destruct (lookup_lt_is_Some_2 h0 a Ha) as [n0 Hn0].
  destruct (links_children h0 (heap s) a n0 (eq_sym Hs) Hn0) as (n & Hn & Hch & _).
  destruct (walk_children fuel (PyDict.values (Node.children n0))) with (s := s)
    as (s1 & Hw & Hfe & Hs1); [|done|].
  { apply Forall_forall. intros c Hc. apply (values_child_of h0 a n0 c Hn0) in Hc.
    pose proof (child_of_lt _ Hwf _ _ Hc). pose proof (child_of_bound _ Hwf _ _ Hc).
    apply IH; lia. }
  destruct (Hcb a s1 Hs1) as (s2 & Hrun & Hs2).
  exists s2. split_and!; [| |done].
  - simpl. erewrite bind_Ok;
      [|apply read_Ok; rewrite Hn; simpl; rewrite Hch; reflexivity].
    by erewrite bind_Ok.
  - simpl. rewrite Hn0, for_each_app. erewrite bind_Ok; [|exact Hfe].
    simpl. by erewrite bind_Ok.
Qed.
End Walk.

(** X11: [walk] calls the callback once on every node below the start
    node, the start node included, and on a node only after all nodes
    below it, for every callback that returns and leaves parents, slugs
    and [children] alone. *)
Theorem walk_calls_bottom_up (callback : addr → M unit) s a :
  heap_wf (heap s) → a < length (heap s) →
  (∀ b s1, links (heap s1) = links (heap s) →
     ∃ s2, callback b s1 = (Ok tt, s2) ∧ links (heap s2) = links (heap s)) →
  ∃ L s',
    walk (length (heap s)) callback a s = (Ok tt, s') ∧
    for_each callback L s = (Ok tt, s') ∧
    NoDup L ∧
    (∀ x, x ∈ L ↔ rtc (child_of (heap s)) a x) ∧
    (∀ N D, N ∈ L → descendant (heap s) N D →
       ∃ l1 l2 l3, L = l1 ++ D :: l2 ++ N :: l3).
Proof.
  intros Hwf Ha Hcb.
  destruct (walk_spec (heap s) Hwf callback Hcb (length (heap s)) a Ha) with (s := s)
    as (s' & Hw & Hf & _); [lia|done|].
  exists (post_order (length (heap s)) (heap s) a), s'. split_and!; try done.
  - apply post_order_NoDup; [done..|lia].
  - intros x. apply post_order_elem; [done..|lia].
  - intros N D. apply post_order_below; [done..|lia].
Qed.

(** ** Entries that the builder skips *)

Section Pruning.
Context (slugify : string → string) (registered : string → bool).

Lemma bind_head {A B} (m m' : M A) (k : A → M B) s :
  m s = m' s → bind m k s = bind m' k s.
Proof. unfold bind. by intros ->. Qed.

Lemma prune_list_cons e es :
  prune_list registered (e :: es) =
    if kept registered e then prune registered e :: prune_list registered es
    else prune_list registered es.
Proof. unfold prune_list. simpl. by destruct (kept registered e). Qed.

Lemma for_each_cons {A} (body : A → M unit) x l s :
  for_each body (x :: l) s = (body x ;;; for_each body l) s.
Proof. done. Qed.

Lemma skipped_dir_round d e s :
  kept registered e = false →
  dir_loop_body slugify registered d e s = (Ok tt, s).
Proof. by destruct e. Qed.

Lemma skipped_file_round d e s :
  kept registered e = false →
  file_loop_body slugify registered d e s = (Ok tt, s).
Proof.
  destruct e as [dstem lst|fstem fsuffix content|ostem]; simpl; try done.
  destruct (startswith_dot fstem); simpl; [done|].
  by destruct (registered (strip_dots fsuffix)).
Qed.

Lemma prune_file_round d e s :
  file_loop_body slugify registered d (prune registered e) s
  = file_loop_body slugify registered d e s.
Proof. by destruct e as [dstem [lst|]|fstem fsuffix content|ostem]. Qed.

Lemma prune_dir_loop d es :
  Forall (λ e, ∀ d s, dir_loop_body slugify registered d (prune registered e) s
                      = dir_loop_body slugify registered d e s) es →
  ∀ s, for_each (dir_loop_body slugify registered d) (prune_list registered es) s
       = for_each (dir_loop_body slugify registered d) es s.
Proof.
  induction 1 as [|e es He _ IH]; intros s; [done|].
  rewrite prune_list_cons, (for_each_cons _ e).
  destruct (kept registered e) eqn:Hk.
  - rewrite for_each_cons, (bind_head _ _ _ _ (He d s)). by apply bind_ext.
  - erewrite (bind_Ok _ _ s); [|by apply skipped_dir_round]. apply IH.
Qed.

Lemma prune_file_loop d es s :
  for_each (file_loop_body slugify registered d) (prune_list registered es) s
  = for_each (file_loop_body slugify registered d) es s.
Proof.
  revert s. induction es as [|e es IH]; intros s; [done|].
  rewrite prune_list_cons, (for_each_cons _ e).
  destruct (kept registered e) eqn:Hk.
  - rewrite for_each_cons, (bind_head _ _ _ _ (prune_file_round d e s)).
    by apply bind_ext.
  - erewrite (bind_Ok _ _ s); [|by apply skipped_file_round]. apply IH.
Qed.

Lemma prune_parse_node_directory d es s :
  Forall (λ e, ∀ d s, dir_loop_body slugify registered d (prune registered e) s
                      = dir_loop_body slugify registered d e s) es →
  parse_node_directory slugify registered d (Some (prune_list registered es)) s
  = parse_node_directory slugify registered d (Some es) s.
Proof.
  intros Hes. unfold parse_node_directory, iterdir, bind, count_scan, ret.
  rewrite (prune_dir_loop d es Hes).
  destruct (for_each (dir_loop_body slugify registered d) es _) as [[[]|e] s2];
    [|done].
  apply prune_file_loop.
Qed.

Lemma prune_dir_loop_body e :
  ∀ d s, dir_loop_body slugify registered d (prune registered e) s
         = dir_loop_body slugify registered d e s.
Proof.
  induction e as [dstem|dstem es IH|fstem fsuffix content|ostem]
    using Entry_nested_ind; intros d s; try done.
  change (prune registered (EDir dstem (Some es)))
    with (EDir dstem (Some (prune_list registered es))).
  rewrite !dir_loop_body_EDir. apply bind_ext. intros c s1.
  do 4 (apply bind_ext; intros _ ?).
  by apply prune_parse_node_directory.
Qed.
End Pruning.

(** X12: entries that are neither directories nor accepted files
    (dotfiles, files with an unregistered extension, other entries) have
    no effect at any level of the source directory: [root()] gives the
    same result and the same state, event log and call counts included,
    as on the source directory without them. *)
Theorem root_ignores_skipped_entries
    (slugify : string → string) (registered : string → bool)
    (hooks_filter_fn : string → value → Node.heap → addr → value)
    (render : value → string → value) es s :
  root slugify registered hooks_filter_fn render (Some (prune_list registered es)) s
  = root slugify registered hooks_filter_fn render (Some es) s.
Proof.
  unfold root. destruct (cache s); [done|].
  apply bind_ext. intros c s1. apply bind_ext. intros _ s2.
  apply bind_head. apply prune_parse_node_directory, Forall_forall.
  intros e _. apply prune_dir_loop_body.
Qed.

(** ** Files that are not index files *)

Section Files.
Variable slugify : string → string.

(** X13: a loadable file whose slug is not ['index'], parsed in the
    directory of a node [d] of the tree.  [parse_node_file] returns; the
    slug is then a key of [d.children], the node under it has [d] as
    parent, the file's slug, stem and extension, the file's metadata and,
    unless the metadata has a ['text'] key, the file's text.  When [d]
    had a child under the slug, that node is used: no node is created,
    the order of [d.children] stays, the node keeps its own children and
    the data the file does not set.  Otherwise a new node goes to the
    end of [d.children], without children.  No other node changes, and
    the store stays well formed. *)
Theorem file_makes_or_reuses_child d fstem fsuffix t m s nd :
  builder_pre d s → heap s !! d = Some nd → slugify fstem ≠ "index" →
  ∃ s' f nf nd',
    parse_node_file slugify d fstem fsuffix (Some (t, m)) s = (Ok tt, s') ∧
    heap_wf (heap s') ∧ loads s' = S (loads s) ∧
    heap s' !! d = Some nd' ∧ heap s' !! f = Some nf ∧
    PyDict.get (slugify fstem) (Node.children nd') = Some f ∧
    Node.parent nf = Some d ∧ Node.slug nf = slugify fstem ∧
    Node.stem nf = fstem ∧ Node.ext nf = strip_dots fsuffix ∧
    (∀ k v, m !! k = Some v → Node.data nf !! k = Some v) ∧
    (m !! "text" = None → Node.data nf !! "text" = Some (VStr t)) ∧
    (∀ a, a < length (heap s) → a ≠ d → a ≠ f → heap s' !! a = heap s !! a) ∧
    match PyDict.get (slugify fstem) (Node.children nd) with
    | Some c =>
        f = c ∧ length (heap s') = length (heap s) ∧
        Node.children nd' = Node.children nd ∧
        ∃ nc, heap s !! c = Some nc ∧ Node.children nf = Node.children nc ∧
          ∀ k, k ≠ "text" → m !! k = None → Node.data nf !! k = Node.data nc !! k
    | None =>
        f = length (heap s) ∧ length (heap s') = S (length (heap s)) ∧
        Node.children nd' = Node.children nd ++ [(slugify fstem, f)] ∧
        Node.children nf = [] ∧
        ∀ k, k ≠ "text" → m !! k = None → Node.data nf !! k = Node.data Node.new !! k
    end.
Proof.
  intros (Hwf & Hin & Hc) Hd Hidx.
  pose proof (lookup_lt_Some _ _ _ Hd) as Hdlt.
  pose proof (parse_node_file_run slugify d fstem fsuffix (Some (t, m)) s nd
                Hwf Hin Hc Hd) as Hrun.
  pose proof (file_target_spec (slugify fstem) fstem d (heap s) nd Hwf Hd) as Htgt.
  unfold file_target in Hrun, Htgt.
  rewrite decide_False in Hrun, Htgt by done. rewrite Hd in Hrun, Htgt.
  destruct (PyDict.get (slugify fstem) (Node.children nd)) as [c|] eqn:Hget.
  - destruct (wf_child _ Hwf d nd _ c Hd Hget) as (nc & Hnc & Hpc & Hsc).
    pose proof (parent_lt _ Hwf c nc d Hnc Hpc) as Hlt.
    pose proof (lookup_lt_Some _ _ _ Hnc) as Hclt.
    destruct Hrun as (nf & Hnf & Hrun).
    destruct Htgt as (Hwf1 & _ & _ & Hfr & nd1 & Hd1 & _ & _ & Hch1).
    rewrite list_lookup_alter_eq, Hnc in Hnf. simpl in Hnf. simplify_eq.
    rewrite list_lookup_alter_ne, Hd in Hd1 by lia. simplify_eq.
    eexists _, c, _, nd1. split; [exact Hrun|]. simpl.
    rewrite list_lookup_insert_ne by lia.
    rewrite list_lookup_alter_ne by lia.
    rewrite list_lookup_insert_eq by (by rewrite length_alter).
    split_and!; try done.
    + apply (heap_wf_update _ c (Node.with_stem fstem nc)); try done.
      * by rewrite list_lookup_alter_eq, Hnc.
      * apply stored_text.
    + simpl. intros k v Hk. by apply lookup_union_Some_l.
    + simpl. intros Hk. rewrite lookup_union_r by done. apply lookup_insert_eq.
    + intros a _ Had Hac. rewrite list_lookup_insert_ne by done.
      by rewrite list_lookup_alter_ne.
    + by rewrite length_insert, length_alter.
    + exists nc. split_and!; try done. simpl. intros k Hk Hm.
      rewrite lookup_union_r by done. by rewrite lookup_insert_ne.
  - destruct Hrun as (nf & Hnf & Hrun).
    destruct Htgt as (Hwf1 & _ & _ & Hfr & nd1 & Hd1 & _ & _ & Hch1).
    rewrite list_lookup_insert_ne in Hnf by lia.
    rewrite lookup_app_r, Nat.sub_diag in Hnf by lia. simpl in Hnf. simplify_eq.
    rewrite list_lookup_insert_eq in Hd1 by (rewrite length_app; lia).
    simplify_eq.
    eexists _, (length (heap s)), _, _. split; [exact Hrun|]. simpl.
    rewrite list_lookup_insert_ne by lia.
    rewrite list_lookup_insert_eq by (rewrite length_app; lia).
    rewrite list_lookup_insert_eq
      by (rewrite length_insert, length_app; simpl; lia).
    split_and!; try done.
    + apply (heap_wf_update _ (length (heap s))
               (linked (slugify fstem) fstem d Node.new)); try done.
      * rewrite list_lookup_insert_ne by lia.
        by rewrite lookup_app_r, Nat.sub_diag by lia.
      * apply stored_text.
    + simpl. apply get_set_eq.
    + simpl. intros k v Hk. by apply lookup_union_Some_l.
    + simpl. intros Hk. rewrite lookup_union_r by done. apply lookup_insert_eq.
    + intros a Ha Had Hac. rewrite !list_lookup_insert_ne by done.
      by rewrite lookup_app_l.
    + rewrite !length_insert, length_app. simpl. lia.
    + simpl. clear -Hget. induction (Node.children nd) as [|[k' v'] r IH]; [done|].
      simpl in *. destruct (decide (slugify fstem = k')); [done|].
      by rewrite IH.
    + simpl. intros k Hk Hm. rewrite lookup_union_r by done.
      by rewrite lookup_insert_ne.
Qed.

(** X14: a file that [loader.load] cannot read, with a slug that is not
    ['index'] and not yet a key of [d.children].  [parse_node_file]
    raises the loader's [OSError] after the node of the file has been
    made and linked: [d] has one more child, a node with the slug and
    the stem of the file and the attributes of [Node.__init__], and the
    store is a well-formed tree all the same. *)
Theorem unreadable_file_leaves_blank_child d fstem fsuffix s nd :
  builder_pre d s → heap s !! d = Some nd → slugify fstem ≠ "index" →
  PyDict.get (slugify fstem) (Node.children nd) = None →
  ∃ s',
    parse_node_file slugify d fstem fsuffix None s = (Raise OSError, s') ∧
    heap_wf (heap s') ∧ loads s' = S (loads s) ∧
    length (heap s') = S (length (heap s)) ∧
    heap s' !! d =
      Some (Node.with_children
              (λ cs, cs ++ [(slugify fstem, length (heap s))]) nd) ∧
    heap s' !! length (heap s) =
      Some (linked (slugify fstem) fstem d Node.new) ∧
    in_tree (heap s') (length (heap s)) ∧
    (∀ a, a < length (heap s) → a ≠ d → heap s' !! a = heap s !! a).
Proof.
  intros (Hwf & Hin & Hc) Hd Hidx Hget.
  pose proof (lookup_lt_Some _ _ _ Hd) as Hdlt.
  pose proof (parse_node_file_run slugify d fstem fsuffix None s nd
                Hwf Hin Hc Hd) as Hrun.
  pose proof (file_target_spec (slugify fstem) fstem d (heap s) nd Hwf Hd) as Htgt.
  unfold file_target in Hrun, Htgt.
  rewrite decide_False in Hrun, Htgt by done. rewrite Hd, Hget in Hrun, Htgt.
  destruct Hrun as (nf & Hnf & Hrun).
  destruct Htgt as (Hwf1 & _ & _ & Hfr & _).
  assert (Hset : PyDict.set (slugify fstem) (length (heap s)) (Node.children nd)
                 = Node.children nd ++ [(slugify fstem, length (heap s))]).
  { clear -Hget. induction (Node.children nd) as [|[k' v'] r IH]; [done|].
    simpl in *. destruct (decide (slugify fstem = k')); [done|]. by rewrite IH. }
  eexists. split; [exact Hrun|]. simpl.
  assert (Hd' : <[d:=Node.with_children (PyDict.set (slugify fstem) (length (heap s))) nd]>
      (heap s ++ [linked (slugify fstem) fstem d Node.new]) !! d =
    Some (Node.with_children (λ cs, cs ++ [(slugify fstem, length (heap s))]) nd)).
  { rewrite list_lookup_insert_eq by (rewrite length_app; lia).
    unfold Node.with_children. by rewrite Hset. }
  assert (Hc' : <[d:=Node.with_children (PyDict.set (slugify fstem) (length (heap s))) nd]>
      (heap s ++ [linked (slugify fstem) fstem d Node.new]) !! length (heap s) =
    Some (linked (slugify fstem) fstem d Node.new)).
  { rewrite list_lookup_insert_ne by lia.
    by rewrite lookup_app_r, Nat.sub_diag by lia. }
  split_and!; try done.
  - rewrite length_insert, length_app. simpl. lia.
  - eapply rtc_r.
    + apply (in_tree_frame (heap s)); [done|done|].
      intros a Ha. rewrite list_lookup_insert_ne by lia.
      apply lookup_app_l. lia.
    + eexists _, (slugify fstem). split; [exact Hd'|]. simpl.
      apply elem_of_app. right. apply list_elem_of_here.
  - intros a Ha Had. rewrite list_lookup_insert_ne by done.
    by rewrite lookup_app_l.
Qed.

End Files.

(** ** What init stores *)

Lemma reach_links h h' a b :
  links h = links h' → rtc (child_of h) a b → rtc (child_of h') a b.
Proof.
  intros Hl. induction 1 as [|a c b Hac _ IH]; [apply rtc_refl|].
  eapply rtc_l; [|exact IH]. by eapply child_of_links.
Qed.

Section Init_store.
Context (hooks_filter_fn : string → value → Node.heap → addr → value).
Context (render : value → string → value).

Local Abbreviation run_init := (init hooks_filter_fn render).

(** The first half of [init]: the two assignments. *)
Lemma init_unfold fuel a s n t :
  heap s !! a = Some n → Node.data n !! "text" = Some t →
  run_init (S fuel) a s =
    (for_each (λ c, run_init fuel c ;;; ret tt)
       (PyDict.values (Node.children n)) ;;;
     hooks_event "init_node" a ;;;
     ret a)
      (set_heap (<[a := initialized hooks_filter_fn render (heap s) a n t]> (heap s)) s).
Proof.
  intros Hn Ht.
  set (t' := hooks_filter_fn "node_text" t (heap s) a).
  set (n1 := Node.with_data (insert "text" t') n).
  set (s1 := set_heap (<[a := n1]> (heap s)) s).
  assert (Hn1 : heap s1 !! a = Some n1).
  { apply list_lookup_insert_eq. by eapply lookup_lt_Some. }
  simpl.
  erewrite bind_Ok; [|by eapply getitem_Ok].
  unfold bind at 1. unfold hooks_filter at 1. fold t'.
  erewrite bind_Ok; [|by apply update_node_Ok]. fold n1 s1.
  erewrite bind_Ok; [|eapply getitem_Ok; [exact Hn1|apply lookup_insert_eq]].
  erewrite bind_Ok; [|apply read_Ok; by rewrite Hn1].
  unfold bind at 1. unfold hooks_filter at 1. simpl Node.ext.
  erewrite bind_Ok; [|apply update_node_Ok; exact Hn1].
  unfold s1 at 2 3. simpl heap. rewrite set_heap_twice, list_insert_insert_eq.
  erewrite bind_Ok; [reflexivity|].
  apply read_Ok. simpl.
  rewrite list_lookup_insert_eq by (by eapply lookup_lt_Some). done.
Qed.

Lemma init_children_store fuel :
  (∀ a s s', heap_wf (heap s) → a < length (heap s) →
     length (heap s) - a ≤ fuel →
     run_init fuel a s = (Ok a, s') →
     init_store hooks_filter_fn render a (heap s) (heap s')) →
  ∀ cs s s', heap_wf (heap s) → NoDup cs →
    (∀ c, c ∈ cs → c < length (heap s) ∧ length (heap s) - c ≤ fuel) →
    (∀ c1 c2 x, c1 ∈ cs → c2 ∈ cs → c1 ≠ c2 →
       rtc (child_of (heap s)) c1 x → rtc (child_of (heap s)) c2 x → False) →
    for_each (λ c, run_init fuel c ;;; ret tt) cs s = (Ok tt, s') →
    (∀ b, (∀ c, c ∈ cs → ¬ rtc (child_of (heap s)) c b) →
       heap s' !! b = heap s !! b) ∧
    (∀ c a n t, c ∈ cs → rtc (child_of (heap s)) c a →
       heap s !! a = Some n → Node.data n !! "text" = Some t →
       ∃ h1, rendered (heap s) h1 ∧ h1 !! a = Some n ∧
             heap s' !! a = Some (initialized hooks_filter_fn render h1 a n t)).
Proof.
  intros IH. induction cs as [|c cs IHcs]; intros s s' Hwf Hnd Hcs Hdis Hrun.
  { simpl in Hrun. injection Hrun as <-. split; [done|].
    intros c a n t Hc. by apply elem_of_nil in Hc. }
  apply NoDup_cons in Hnd as [Hc Hnd].
  destruct (Hcs c) as [Hlt Hf]; [left|].
  destruct (init_spec hooks_filter_fn render fuel c s Hwf Hlt Hf)
    as (s1 & Hrun1 & Hwf1 & Hl1 & _).
  pose proof (IH c s s1 Hwf Hlt Hf Hrun1) as [Hout1 Hin1].
  pose proof (links_length _ _ Hl1) as Hlen.
  simpl in Hrun. erewrite bind_Ok in Hrun; [|erewrite bind_Ok; [|exact Hrun1]; done].
  destruct (IHcs s1 s' Hwf1 Hnd) as [Hout2 Hin2]; [| |done|].
  { intros c' Hc'. rewrite Hlen. apply Hcs. by right. }
  { intros c1 c2 x H1 H2 Hne Hx1 Hx2.
    apply (Hdis c1 c2 x); try done; try (by right);
      eapply reach_links; try eassumption. }
  split.
  - intros b Hb. rewrite Hout2, Hout1; [done| |].
    + apply Hb. left.
    + intros c' Hc' Hr. apply (Hb c'); [by right|].
      by eapply reach_links.
  - intros c' a n t Hc' Hr Hn Ht.
    apply elem_of_cons in Hc' as [->|Hc'].
    + destruct (Hin1 a n t Hr Hn Ht) as (h1 & Hh1 & Hn1 & Ha1).
      exists h1. split_and!; try done. rewrite Hout2; [done|].
      intros c2 Hc2 Hr2. apply (Hdis c c2 a); try done; [left|by right| |].
      * intros ->. done.
      * by eapply reach_links.
    + assert (Hne : c ≠ c') by (intros ->; done).
      assert (Ha1 : heap s1 !! a = heap s !! a).
      { apply Hout1. intros Hr1. apply (Hdis c c' a); try done; [left|by right]. }
      destruct (Hin2 c' a n t Hc') as (h1 & Hh1 & Hn1 & Ha2); try done.
      * by eapply reach_links.
      * congruence.
      * exists h1. split_and!; try done.
        eapply rendered_trans; [|exact Hh1].
        pose proof (renders_init hooks_filter_fn render fuel c s) as Hr1.
        by rewrite Hrun1 in Hr1.
Qed.

Lemma init_store_spec fuel : ∀ a s s',
  heap_wf (heap s) → a < length (heap s) → length (heap s) - a ≤ fuel →
  run_init fuel a s = (Ok a, s') →
  init_store hooks_filter_fn render a (heap s) (heap s').
Proof.
  induction fuel as [|fuel IH]; intros a s s' Hwf Ha Hf Hrun; [lia|].
  destruct (lookup_lt_is_Some_2 _ _ Ha) as [n Hn].
  destruct (wf_text _ Hwf a n Hn) as [t Ht].
  rewrite (init_unfold fuel a s n t Hn Ht) in Hrun.
  set (n2 := initialized hooks_filter_fn render (heap s) a n t) in *.
  set (s2 := set_heap (<[a := n2]> (heap s)) s) in *.
  assert (Hwf2 : heap_wf (heap s2)).
  { apply (heap_wf_update _ a n); try done. simpl.
    rewrite lookup_insert_ne by done. rewrite lookup_insert_eq. eauto. }
  assert (Hl2 : links (heap s2) = links (heap s)) by by eapply links_update.
  assert (Hr2 : rendered (heap s) (heap s2)).
  { simpl. rewrite <-(list_insert_id (heap s) a n Hn) at 1.
    apply Forall2_insert; [apply rendered_refl|].
    split_and!; try done. intros k ??. simpl.
    by rewrite !lookup_insert_ne by done. }
  destruct (for_each (λ c, run_init fuel c ;;; ret tt)
              (PyDict.values (Node.children n)) s2) as [[[]|e] s3] eqn:Hloop.
  2:{ by erewrite bind_Raise in Hrun by exact Hloop. }
  assert (heap s' = heap s3) as ->.
  { erewrite bind_Ok in Hrun by exact Hloop.
    unfold bind, hooks_event, ret in Hrun. by injection Hrun as <-. }
  assert (Hch : ∀ c, c ∈ PyDict.values (Node.children n) ↔ child_of (heap s) a c).
  { intros c. by apply values_child_of. }
  destruct (init_children_store fuel IH (PyDict.values (Node.children n))
              s2 s3 Hwf2) as [Hout Hin]; try done.
  { exact (values_NoDup (heap s) Hwf a n Hn). }
  { intros c Hc%Hch. pose proof (child_of_lt _ Hwf _ _ Hc).
    pose proof (child_of_bound _ Hwf _ _ Hc). simpl. rewrite length_insert. lia. }
  { intros c1 c2 x H1%Hch H2%Hch Hne Hx1 Hx2.
    apply (siblings_disjoint (heap s) Hwf a c1 c2 x); try done;
      eapply reach_links; try eassumption. }
  split.
  - intros b Hb. rewrite Hout.
    + simpl. apply list_lookup_insert_ne. intros ->. apply Hb, rtc_refl.
    + intros c Hc%Hch Hr. apply Hb. eapply rtc_l; [exact Hc|].
      by eapply reach_links.
  - intros x nx tx Hr Hnx Htx.
    apply rtc_inv in Hr as [<-|(c & Hc & Hr)].
    + simplify_eq. exists (heap s). split_and!; [apply rendered_refl|done|].
      rewrite Hout; [by apply list_lookup_insert_eq|].
      intros c Hc%Hch Hr%(reach_links _ _ _ _ Hl2)%(reach_le _ Hwf).
      apply (child_of_lt _ Hwf) in Hc. lia.
    + pose proof (child_of_lt _ Hwf _ _ Hc) as Hlt.
      pose proof (reach_le _ Hwf _ _ Hr) as Hle.
      destruct (Hin c x nx tx) as (h1 & Hh1 & Hn1 & Hx); try done.
      * by apply Hch.
      * eapply reach_links; [|exact Hr]. done.
      * simpl. rewrite list_lookup_insert_ne by lia. done.
      * exists h1. split_and!; try done. by eapply rendered_trans.
Qed.

(** X15: [init] on a node [r] of a well-formed store returns [r].  The
    nodes that are not below [r] are as before.  On every node [a] from
    [r] downwards, with record [n] and text [t] before the call,
    ['text'] is the ['node_text'] filter of [t] and ['html'] the
    ['node_html'] filter of [render] of the filtered text with the
    extension of [n], and the rest of the record is that of [n]; the
    filters of [a] have seen the node record [n] (and, for
    ['node_html'], the text already filtered) in a store that differs
    from the one before the call in ['text'] and ['html'] entries
    only. *)
Theorem init_filters_and_renders_each_node r s :
  heap_wf (heap s) → r < length (heap s) →
  ∃ s', run_init (length (heap s)) r s = (Ok r, s') ∧
    (∀ b, ¬ rtc (child_of (heap s)) r b → heap s' !! b = heap s !! b) ∧
    (∀ a n t, rtc (child_of (heap s)) r a → heap s !! a = Some n →
       Node.data n !! "text" = Some t →
       ∃ h1, rendered (heap s) h1 ∧ h1 !! a = Some n ∧
         let t' := hooks_filter_fn "node_text" t h1 a in
         let n1 := Node.with_data (insert "text" t') n in
         let html :=
           hooks_filter_fn "node_html" (render t' (Node.ext n))
             (<[a := n1]> h1) a in
         heap s' !! a = Some (Node.with_data (insert "html" html) n1)).
Proof.
  intros Hwf Hr.
  destruct (init_spec hooks_filter_fn render (length (heap s)) r s Hwf Hr)
    as (s' & Hrun & _); [lia|].
  exists s'. split; [done|].
  apply (init_store_spec (length (heap s)) r s s'); try done. lia.
Qed.

End Init_store.

(** ** The printout of a tree *)

Lemma string_app_assoc (s1 s2 s3 : string) :
  (s1 +:+ s2) +:+ s3 = s1 +:+ (s2 +:+ s3).
Proof.
  induction s1 as [|c s1 IH]; [done|].
  change (String c ((s1 +:+ s2) +:+ s3) = String c (s1 +:+ s2 +:+ s3)).
  by rewrite IH.
Qed.

Lemma str_join_app (sep : string) (l1 l2 : list string) :
  l1 ≠ [] → l2 ≠ [] →
  String.concat sep (l1 ++ l2)
  = String.concat sep l1 +:+ sep +:+ String.concat sep l2.
Proof.
  intros H1 H2. induction l1 as [|x l1 IH]; [done|].
  destruct l1 as [|y l1].
  - simpl. by destruct l2.
  - change (String.concat sep ((x :: y :: l1) ++ l2))
      with (x +:+ sep +:+ String.concat sep ((y :: l1) ++ l2)).
    rewrite IH by done.
    change (String.concat sep (x :: y :: l1))
      with (x +:+ sep +:+ String.concat sep (y :: l1)).
    by rewrite !string_app_assoc.
Qed.

(** Joining joined blocks is joining their lines. *)
Lemma str_join_concat (sep : string) (l : list string) (ls : list (list string)) :
  l ≠ [] → Forall (λ b, b ≠ []) ls →
  String.concat sep (l ++ (String.concat sep <$> ls))
  = String.concat sep (l ++ concat ls).
Proof.
  intros Hl Hls. revert l Hl.
  induction Hls as [|b ls Hb _ IH]; intros l Hl; [done|].
  simpl. specialize (IH (l ++ b)).
  rewrite <-(app_assoc l b (concat ls)) in IH. rewrite <-IH by (by destruct l).
  destruct ls as [|b' ls].
  - simpl. rewrite !app_nil_r, !str_join_app by done.
    simpl. done.
  - rewrite (cons_middle (String.concat sep b)), !app_assoc.
    rewrite (str_join_app _ (l ++ [_])) by (done || by destruct l).
    rewrite (str_join_app _ (l ++ b)) by (done || by destruct l).
    by rewrite !str_join_app by done.
Qed.

Lemma fmap_concat {A B} (f : A → B) (ls : list (list A)) :
  f <$> concat ls = concat ((λ l : list A, f <$> l) <$> ls).
Proof. induction ls as [|l ls IH]; [done|]. simpl. by rewrite fmap_app, IH. Qed.

Section Printout.
Context (h : Node.heap) (Hwf : heap_wf h).

Lemma childlist_child_of a :
  a < length h →
  ∃ cl, Node.childlist h a = Some cl ∧ NoDup cl ∧
        ∀ c, c ∈ cl ↔ child_of h a c.
Proof.
  intros Ha. destruct (lookup_lt_is_Some_2 h a Ha) as [n Hn].
  destruct (childlist_spec h a n Hwf Hn) as (cl & Hcl & Hperm & _).
  exists cl. split_and!; [done| |].
  - rewrite Hperm. by eapply values_NoDup.
  - intros c. rewrite Hperm. by apply values_child_of.
Qed.

Lemma pre_order_elem fuel a x :
  a < length h → length h - a ≤ fuel →
  x ∈ pre_order fuel h a ↔ rtc (child_of h) a x.
Proof.
  revert a x. induction fuel as [|fuel IH]; intros a x Ha Hf; [lia|].
  simpl. destruct (childlist_child_of a Ha) as (cl & -> & _ & Hcl). simpl.
  rewrite elem_of_cons, elem_of_list_concat. split.
  - intros [->|(l & Hl & Hx)]; [done|].
    apply list_elem_of_fmap in Hl as (c & -> & Hc%Hcl).
    pose proof (child_of_lt _ Hwf _ _ Hc). pose proof (child_of_bound _ Hwf _ _ Hc).
    eapply rtc_l; [done|]. apply IH; [done|lia|done].
  - intros Hax. apply rtc_inv in Hax as [->|(c & Hc & Hcx)]; [by left|].
    right. pose proof (child_of_lt _ Hwf _ _ Hc).
    pose proof (child_of_bound _ Hwf _ _ Hc).
    exists (pre_order fuel h c). split.
    + apply list_elem_of_fmap. exists c. split; [done|]. by apply Hcl.
    + apply IH; [done|lia|done].
Qed.

Lemma pre_order_NoDup fuel a :
  a < length h → length h - a ≤ fuel → NoDup (pre_order fuel h a).
Proof.
  revert a. induction fuel as [|fuel IH]; intros a Ha Hf; [lia|].
  simpl. destruct (childlist_child_of a Ha) as (cl & -> & Hnd & Hcl). simpl.
  assert (Hcs : ∀ c, c ∈ cl → child_of h a c) by (intros c; apply Hcl).
  clear Hcl. apply NoDup_cons. split.
  - intros (l & Hl & Hxl)%elem_of_list_concat.
    apply list_elem_of_fmap in Hl as (c & -> & Hc). apply Hcs in Hc.
    pose proof (child_of_lt _ Hwf _ _ Hc). pose proof (child_of_bound _ Hwf _ _ Hc).
    apply pre_order_elem in Hxl; [|done|lia]. apply (reach_le _ Hwf) in Hxl. lia.
  - induction cl as [|c cs IHcs]; simpl; [apply NoDup_nil_2|].
    apply NoDup_cons in Hnd as [Hc Hnd].
    assert (Hac : child_of h a c) by (apply Hcs; left).
    pose proof (child_of_lt _ Hwf _ _ Hac). pose proof (child_of_bound _ Hwf _ _ Hac).
    apply NoDup_app. split_and!.
    + apply IH; [done|lia].
    + intros x Hx (l & Hl & Hxl)%elem_of_list_concat.
      apply list_elem_of_fmap in Hl as (c' & -> & Hc').
      assert (Hac' : child_of h a c') by (apply Hcs; by right).
      pose proof (child_of_lt _ Hwf _ _ Hac').
      pose proof (child_of_bound _ Hwf _ _ Hac').
      apply pre_order_elem in Hx; [|done|lia].
      apply pre_order_elem in Hxl; [|done|lia].
      eapply (siblings_disjoint h Hwf a c c' x); try done. by intros ->.
    + apply IHcs; [done|]. intros c' Hc'. apply Hcs. by right.
Qed.

Lemma pre_order_above fuel a N D :
  a < length h → length h - a ≤ fuel →
  N ∈ pre_order fuel h a → descendant h N D →
  ∃ l1 l2 l3, pre_order fuel h a = l1 ++ N :: l2 ++ D :: l3.
Proof.
  revert a. induction fuel as [|fuel IH]; intros a Ha Hf HN HD; [lia|].
  pose proof HN as HN'. apply pre_order_elem in HN'; [|done..].
  assert (HD' : D ∈ pre_order (S fuel) h a).
  { apply pre_order_elem; [done..|]. etrans; [exact HN'|]. by apply tc_rtc. }
  simpl in *. destruct (childlist_child_of a Ha) as (cl & Hcl & _ & Hch).
  rewrite Hcl in *. simpl in *.
  apply elem_of_cons in HN as [->|(l & Hl & HNl)%elem_of_list_concat].
  - apply elem_of_cons in HD' as [->|HD'].
    { apply descendant_lt in HD; [lia|done]. }
    apply list_elem_of_split in HD' as (l1 & l2 & ->).
    by exists [], l1, l2.
  - apply list_elem_of_fmap in Hl as (c & -> & Hc).
    pose proof Hc as Hac. apply Hch in Hac.
    pose proof (child_of_lt _ Hwf _ _ Hac). pose proof (child_of_bound _ Hwf _ _ Hac).
    destruct (IH c) as (l1 & l2 & l3 & Heq); [done|lia|done..|].
    apply list_elem_of_split in Hc as (cs1 & cs2 & ->).
    rewrite fmap_app, concat_app. simpl. rewrite Heq.
    exists (a :: concat (pre_order fuel h <$> cs1) ++ l1), l2,
      (l3 ++ concat (pre_order fuel h <$> cs2)).
    repeat first [rewrite <-app_assoc | progress simpl]. done.
Qed.

(** The path of a node below [a] extends the path of [a]. *)
Lemma reach_path a x :
  a < length h → rtc (child_of h) a x →
  ∃ pa suf, Node.path h a = Some pa ∧ Node.path h x = Some (pa ++ suf).
Proof.
  intros Ha Hax. destruct (path_total h Hwf a Ha) as [pa Hpa].
  exists pa. revert x Hax.
  apply (rtc_ind_r (λ x, ∃ suf, Node.path h a = Some pa ∧
                               Node.path h x = Some (pa ++ suf))).
  - exists []. by rewrite app_nil_r.
  - intros p c _ (n & m & Hn & Hm & Hp & _)%(child_of_spec h Hwf) (suf & _ & Hsuf).
    exists (suf ++ [Node.slug m]). split; [done|].
    rewrite (path_unfold h Hwf c m Hm), Hp, Hsuf. simpl. by rewrite app_assoc.
Qed.

Lemma str_step fuel a depth p cl out :
  Node.path h a = Some p → Node.childlist h a = Some cl →
  mapM (λ child, str fuel h child (S depth)) cl = Some out →
  str (S fuel) h a depth = Some (String.concat newline (str_line depth p :: out)).
Proof. intros H1 H2 H3. simpl. rewrite H1. simpl. rewrite H2. simpl. by rewrite H3. Qed.

Lemma pre_order_step fuel a cl :
  Node.childlist h a = Some cl →
  pre_order (S fuel) h a = a :: concat (pre_order fuel h <$> cl).
Proof. intros H. simpl. by rewrite H. Qed.

Lemma str_spec fuel : ∀ a depth,
  a < length h → length h - a ≤ fuel →
  str fuel h a depth =
    Some (String.concat newline
            (str_node_line h a depth <$> pre_order fuel h a)).
Proof.
  induction fuel as [|fuel IH]; intros a depth Ha Hf; [lia|].
  destruct (path_total h Hwf a Ha) as [pa Hpa].
  destruct (childlist_child_of a Ha) as (cl & Hclist & _ & Hcl).
  assert (Hkids : ∀ c, c ∈ cl →
            a < c ∧ c < length h ∧ length h - c ≤ fuel ∧
            ∃ n, h !! c = Some n ∧ Node.path h c = Some (pa ++ [Node.slug n])).
  { intros c Hc%Hcl. pose proof (child_of_lt _ Hwf _ _ Hc).
    pose proof (child_of_bound _ Hwf _ _ Hc). split_and!; [lia..|].
    apply (child_of_spec h Hwf) in Hc as (n & m & Hn & Hm & Hp & _).
    exists m. split; [done|]. by rewrite (path_unfold h Hwf c m Hm), Hp, Hpa. }
  assert (Hout : mapM (λ child, str fuel h child (S depth)) cl
            = Some ((λ c, String.concat newline
                            (str_node_line h a depth <$> pre_order fuel h c))
                    <$> cl)).
  { apply mapM_Some, Forall2_fmap_r, Forall_Forall2_diag, Forall_forall.
    intros c Hc. destruct (Hkids c Hc) as (Hac & Hlt & Hfc & n & Hn & Hpc).
    rewrite IH by done. do 2 f_equal.
    apply list_fmap_ext. intros _ x Hx%list_elem_of_lookup_2.
    apply pre_order_elem in Hx; [|done..].
    destruct (reach_path c x Hlt Hx) as (pc & suf & Hpc' & Hpx).
    unfold str_node_line. rewrite Hpa, Hpc, Hpx. simplify_eq. simpl.
    f_equal. rewrite !length_app. simpl. lia. }
  rewrite (str_step fuel a depth pa cl _ Hpa Hclist Hout).
  rewrite (pre_order_step fuel a cl Hclist). f_equal.
  assert (Hself : str_line depth pa = str_node_line h a depth a).
  { unfold str_node_line. rewrite Hpa. simpl. f_equal. lia. }
  rewrite Hself. set (x := str_node_line h a depth a).
  set (blocks := (λ c, str_node_line h a depth <$> pre_order fuel h c) <$> cl).
  trans (String.concat newline ([x] ++ (String.concat newline <$> blocks))).
  { unfold blocks. by rewrite <-list_fmap_compose. }
  rewrite str_join_concat.
  - unfold blocks. by rewrite fmap_cons, fmap_concat, <-list_fmap_compose.
  - done.
  - apply Forall_fmap, Forall_forall. intros c Hc. simpl.
    destruct (Hkids c Hc) as (_ & Hlt & Hfc & _).
    destruct fuel; [lia|]. simpl. done.
Qed.

End Printout.

(** X16: [str(depth)] on a node [a] of a well-formed store returns the
    lines of the nodes from [a] downwards, joined by line feeds: one
    line per node and no other, a node before all nodes below it, the
    children of a node in [childlist] order.  The line of a node is its
    path after a slash, indented once per level of [depth] and once per
    level between [a] and the node. *)
Theorem str_prints_subtree_in_pre_order h a depth :
  heap_wf h → a < length h →
  let L := pre_order (length h) h a in
  str (length h) h a depth
    = Some (String.concat newline (str_node_line h a depth <$> L)) ∧
  NoDup L ∧
  (∀ x, x ∈ L ↔ rtc (child_of h) a x) ∧
  (∀ N D, N ∈ L → descendant h N D → ∃ l1 l2 l3, L = l1 ++ N :: l2 ++ D :: l3).
Proof.
  intros Hwf Ha L. split_and!.
  - apply str_spec; [done..|lia].
  - apply pre_order_NoDup; [done..|lia].
  - intros x. apply pre_order_elem; [done..|lia].
  - intros N D. apply pre_order_above; [done..|lia].
Qed.

(** ** When the builder returns *)

Lemma bind_Ok_inv {A B} (m : M A) (k : A → M B) s b s' :
  bind m k s = (Ok b, s') → ∃ a s1, m s = (Ok a, s1) ∧ k a s1 = (Ok b, s').
Proof. unfold bind. destruct (m s) as [[a|e] s1]; [eauto|done]. Qed.

Lemma for_each_Ok_inv {A} (body : A → M unit) l : ∀ s s',
  for_each body l s = (Ok tt, s') →
  Forall (λ x, ∃ s1 s2, body x s1 = (Ok tt, s2)) l.
Proof.
  induction l as [|x l IH]; intros s s' Hrun; [constructor|].
  rewrite for_each_cons in Hrun.
  apply bind_Ok_inv in Hrun as ([] & s1 & Hx & Hl).
  constructor; [eauto|by eapply IH].
Qed.

Section Returning.
Context (slugify : string → string) (registered : string → bool).
Context (hooks_filter_fn : string → value → Node.heap → addr → value).
Context (render : value → string → value).

(** A round of the loop over the files that returns has found its file
    loadable, when it is one that the loop accepts. *)
Lemma file_round_readable d e s s' :
  file_loop_body slugify registered d e s = (Ok tt, s') →
  match e with EFile _ _ _ => readable registered e | _ => True end.
Proof.
  destruct e as [dstem lst|fstem fsuffix content|ostem]; try done.
  simpl. intros Hrun Hacc. apply andb_true_iff in Hacc as [Hdot Hreg].
  apply negb_true_iff in Hdot. rewrite Hdot, Hreg in Hrun. simpl in Hrun.
  unfold parse_node_file in Hrun.
  apply bind_Ok_inv in Hrun as (f & s1 & _ & Hrun).
  apply bind_Ok_inv in Hrun as (tm & s2 & Hload & _).
  destruct content; [done|]. by vm_compute in Hload.
Qed.

(** A round of the loop over the subdirectories that returns has been
    able to list its directory and all that is below it. *)
Lemma dir_round_readable e : ∀ d s s',
  dir_loop_body slugify registered d e s = (Ok tt, s') →
  match e with EDir _ _ => readable registered e | _ => True end.
Proof.
  induction e as [dstem|dstem es IH|fstem fsuffix content|ostem]
    using Entry_nested_ind; intros d s s'; try done.
  - rewrite dir_loop_body_EDir. intros Hrun.
    apply bind_Ok_inv in Hrun as (c & s1 & _ & Hrun).
    do 4 apply bind_Ok_inv in Hrun as ([] & ? & _ & Hrun).
    unfold parse_node_directory, iterdir in Hrun.
    apply bind_Ok_inv in Hrun as (? & ? & Hrun & _).
    apply bind_Ok_inv in Hrun as (? & ? & _ & Hrun). done.
  - rewrite dir_loop_body_EDir. intros Hrun.
    apply bind_Ok_inv in Hrun as (c & s1 & _ & Hrun).
    do 4 apply bind_Ok_inv in Hrun as ([] & ? & _ & Hrun).
    unfold parse_node_directory in Hrun.
    apply bind_Ok_inv in Hrun as (es1 & ? & Hes1 & Hrun).
    assert (es1 = es) as ->.
    { unfold iterdir in Hes1. apply bind_Ok_inv in Hes1 as (? & ? & _ & Hes1).
      by injection Hes1 as ->. }
    apply bind_Ok_inv in Hrun as ([] & ? & Hdirs & Hrun).
    apply bind_Ok_inv in Hrun as (? & ? & _ & Hfiles).
    apply for_each_Ok_inv in Hdirs. apply for_each_Ok_inv in Hfiles.
    apply readable_listing. apply Forall_forall. intros e He.
    rewrite Forall_forall in IH, Hdirs, Hfiles.
    destruct (Hdirs e He) as (sa & sb & Hd). destruct (Hfiles e He) as (sc & sd & Hf).
    specialize (IH e He c sa sb Hd). apply file_round_readable in Hf.
    by destruct e.
Qed.

(** X17: the first [root()] of a process returns only when the source
    directory can be read: when it has returned, the source directory
    and every directory below it could be listed, and every file that
    the builder accepts (no dotfile, a registered extension) could be
    loaded.  So an unreadable directory, or an unreadable accepted
    file, anywhere in the source tree keeps [root()] from returning;
    files that the builder skips may be unreadable. *)
Theorem root_returns_only_if_source_readable src r s :
  root slugify registered hooks_filter_fn render src start = (Ok r, s) →
  ∃ es, src = Some es ∧ Forall (readable registered) es.
Proof.
  intros Hrun. rewrite root_start in Hrun.
  destruct (parse_node_directory slugify registered 0 src boot)
    as [[[]|e] s1] eqn:Hparse; [|done].
  unfold parse_node_directory in Hparse.
  apply bind_Ok_inv in Hparse as (es & ? & Hes & Hparse).
  assert (src = Some es) as ->.
  { unfold iterdir in Hes. apply bind_Ok_inv in Hes as (? & ? & _ & Hes).
    destruct src; [|done]. by injection Hes as ->. }
  exists es. split; [done|].
  apply bind_Ok_inv in Hparse as ([] & ? & Hdirs & Hparse).
  apply bind_Ok_inv in Hparse as (? & ? & _ & Hfiles).
  apply for_each_Ok_inv in Hdirs. apply for_each_Ok_inv in Hfiles.
  apply Forall_forall. intros e He. rewrite Forall_forall in Hdirs, Hfiles.
  destruct (Hdirs e He) as (sa & sb & Hd). destruct (Hfiles e He) as (sc & sd & Hf).
  apply dir_round_readable in Hd. apply file_round_readable in Hf.
  by destruct e.
Qed.

End Returning.

(** ** The further properties at work on the demo directory *)

Lemma demo_post_in_tree : in_tree (heap demo_state) 5.
Proof.
  apply (descend_in_tree (heap demo_state) ["blog"; "2023"; "post"]).
  by vm_compute.
Qed.

Lemma node_of_path_witness :
  cache demo_state = Some 0 ∧
  ∃ sl, Node.path (heap demo_state) 5 = Some sl ∧
        node sl demo_state = (Ok (Some 5), demo_state).
Proof.
  split; [by vm_compute|].
  apply (node_of_path demo_state 5).
  - apply demo_heap_wf.
  - by vm_compute.
  - apply demo_post_in_tree.
Defined.

Lemma node_returns_tree_node_or_none_witness :
  cache demo_state = Some 0 ∧
  ∃ o, node ["blog"; "2024"] demo_state = (Ok o, demo_state) ∧
    (∀ a, o = Some a → in_tree (heap demo_state) a) ∧
    (o = None → ∀ sl', node (["blog"; "2024"] ++ sl') demo_state
                       = (Ok None, demo_state)).
Proof.
  split; [by vm_compute|].
  apply (node_returns_tree_node_or_none demo_state ["blog"; "2024"]).
  - apply demo_heap_wf.
  - by vm_compute.
Defined.

Lemma node_path_unique_witness :
  node ["blog"; "2023"] demo_state = (Ok (Some 4), demo_state) ∧
  ["blog"; "2023"] = ["blog"; "2023"].
Proof.
  split; [by vm_compute|].
  apply (node_path_unique demo_state ["blog"; "2023"] ["blog"; "2023"] 4).
  - apply demo_heap_wf.
  - by vm_compute.
  - by vm_compute.
  - by vm_compute.
Defined.

Lemma getitem_contains_get_witness :
  ∃ n, heap demo_state !! 0 = Some n ∧
  ∃ b, contains (heap demo_state) 0 "template" = Some b ∧
    (b = true →
       ∃ v, getitem 0 "template" demo_state = (Ok v, demo_state) ∧
            Node.get (heap demo_state) 0 "template" VNone = Some v) ∧
    (b = false →
       getitem 0 "template" demo_state = (Raise KeyError, demo_state) ∧
       Node.get (heap demo_state) 0 "template" VNone = Some VNone).
Proof.
  destruct (heap demo_state !! 0) as [n|] eqn:Hn; [|by vm_compute in Hn].
  exists n. split; [done|].
  by apply (getitem_contains_get demo_state 0 n "template" VNone).
Defined.

Lemma setitem_getitem_witness :
  heap boot !! 0 = Some Node.new ∧
  ∃ s', setitem 0 "title" (VStr "Home") boot = (Ok tt, s') ∧
    getitem 0 "title" s' = (Ok (VStr "Home"), s') ∧
    (∀ b k d, (b, k) ≠ (0, "title") →
       Node.get (heap s') b k d = Node.get (heap boot) b k d) ∧
    links (heap s') = links (heap boot).
Proof.
  split; [reflexivity|].
  apply (setitem_getitem boot 0 Node.new "title" (VStr "Home")). reflexivity.
Defined.

Lemma has_children_childlist_witness :
  ∃ n, heap demo_state !! 0 = Some n ∧
  ∃ l, Node.childlist (heap demo_state) 0 = Some l ∧
    length l = length (Node.children n) ∧
    Node.has_children (heap demo_state) 0 = Some (bool_decide (l ≠ [])).
Proof.
  destruct (heap demo_state !! 0) as [n|] eqn:Hn; [|by vm_compute in Hn].
  exists n. split; [done|].
  by apply (has_children_childlist (heap demo_state) 0 n demo_heap_wf).
Defined.

Lemma nodes_have_text_and_html_witness :
  demo_root demo_src start = (Ok 0, demo_state) ∧
  ∀ a n, heap demo_state !! a = Some n →
    ∃ t h, getitem a "text" demo_state = (Ok t, demo_state) ∧
           getitem a "html" demo_state = (Ok h, demo_state).
Proof.
  split; [by vm_compute|].
  apply (nodes_have_text_and_html id demo_registered demo_filter demo_render
           demo_src (Ok 0) demo_state).
  by vm_compute.
Defined.

Lemma root_call_counts_witness :
  demo_root demo_src start = (Ok 0, demo_state) ∧
  scans demo_state = 2 * S (sum_list_with n_dirs demo_entries) ∧
  loads demo_state = sum_list_with (n_files demo_registered) demo_entries.
Proof.
  split; [by vm_compute|].
  apply (root_call_counts id demo_registered demo_filter demo_render
           demo_entries 0 demo_state).
  by vm_compute.
Defined.

Lemma root_children_slugs_witness :
  demo_root demo_src start = (Ok 0, demo_state) ∧
  ((∃ c, node ["blog"] demo_state = (Ok (Some c), demo_state))
   ↔ "blog" ∈ child_slugs id demo_registered demo_entries).
Proof.
  split; [by vm_compute|].
  apply (root_children_slugs id demo_registered demo_filter demo_render
           demo_entries 0 demo_state "blog").
  by vm_compute.
Defined.

Lemma walk_calls_bottom_up_witness :
  0 < length (heap demo_state) ∧
  ∃ L s',
    walk (length (heap demo_state)) (hooks_event "visit") 0 demo_state = (Ok tt, s') ∧
    for_each (hooks_event "visit") L demo_state = (Ok tt, s') ∧
    NoDup L ∧
    (∀ x, x ∈ L ↔ rtc (child_of (heap demo_state)) 0 x) ∧
    (∀ N D, N ∈ L → descendant (heap demo_state) N D →
       ∃ l1 l2 l3, L = l1 ++ D :: l2 ++ N :: l3).
Proof.
  split; [vm_compute; lia|].
  apply (walk_calls_bottom_up (hooks_event "visit") demo_state 0).
  - apply demo_heap_wf.
  - vm_compute; lia.
  - intros b s1 H. eexists. split; [reflexivity|]. exact H.
Defined.

Lemma file_makes_or_reuses_child_witness :
  heap boot !! 0 = Some Node.new ∧ id "about" ≠ "index" ∧
  ∃ s' f nf nd',
    parse_node_file id 0 "about" ".md"
      (Some ("About us", {["title" := VStr "About"]})) boot = (Ok tt, s') ∧
    heap s' !! 0 = Some nd' ∧ heap s' !! f = Some nf ∧
    PyDict.get "about" (Node.children nd') = Some f ∧
    Node.parent nf = Some 0 ∧ Node.stem nf = "about" ∧
    Node.ext nf = "md" ∧ f = 1.
Proof.
  split; [reflexivity|]. split; [discriminate|].
  destruct (file_makes_or_reuses_child id 0 "about" ".md" "About us"
              {["title" := VStr "About"]} boot Node.new)
    as (s' & f & nf & nd' & Hrun & _ & _ & Hd & Hf & Hget & Hp & _ & Hst & He
        & _ & _ & _ & Hnew).
  - apply demo_builder_pre.
  - reflexivity.
  - discriminate.
  - exists s', f, nf, nd'. split_and!; try done. apply Hnew.
Defined.

Lemma unreadable_file_leaves_blank_child_witness :
  heap boot !! 0 = Some Node.new ∧ id "about" ≠ "index" ∧
  PyDict.get (id "about") (Node.children Node.new) = None ∧
  ∃ s',
    parse_node_file id 0 "about" ".md" None boot = (Raise OSError, s') ∧
    heap_wf (heap s') ∧ loads s' = S (loads boot) ∧
    length (heap s') = S (length (heap boot)) ∧
    heap s' !! 0 =
      Some (Node.with_children (λ cs, cs ++ [(id "about", length (heap boot))])
              Node.new) ∧
    heap s' !! length (heap boot) = Some (linked (id "about") "about" 0 Node.new) ∧
    in_tree (heap s') (length (heap boot)) ∧
    (∀ a, a < length (heap boot) → a ≠ 0 → heap s' !! a = heap boot !! a).
Proof.
  split; [reflexivity|]. split; [discriminate|]. split; [reflexivity|].
  apply (unreadable_file_leaves_blank_child id 0 "about" ".md" boot Node.new).
  - apply demo_builder_pre.
  - reflexivity.
  - discriminate.
  - reflexivity.
Defined.

Lemma init_filters_and_renders_each_node_witness :
  0 < length (heap demo_state) ∧
  ∃ s', init demo_filter demo_render (length (heap demo_state)) 0 demo_state
        = (Ok 0, s') ∧
    (∀ b, ¬ rtc (child_of (heap demo_state)) 0 b →
          heap s' !! b = heap demo_state !! b).
Proof.
  split; [vm_compute; lia|].
  destruct (init_filters_and_renders_each_node demo_filter demo_render 0 demo_state)
    as (s' & Hrun & Hout & _).
  - apply demo_heap_wf.
  - vm_compute; lia.
  - exists s'. split; [exact Hrun|exact Hout].
Defined.

Lemma str_prints_subtree_in_pre_order_witness :
  3 < length (heap demo_state) ∧
  pre_order (length (heap demo_state)) (heap demo_state) 3 = [3; 4; 5] ∧
  str (length (heap demo_state)) (heap demo_state) 3 1
    = Some (String.concat newline
              (str_node_line (heap demo_state) 3 1
                 <$> pre_order (length (heap demo_state)) (heap demo_state) 3)).
Proof.
  split; [vm_compute; lia|]. split; [by vm_compute|].
  apply (str_prints_subtree_in_pre_order (heap demo_state) 3 1).
  - apply demo_heap_wf.
  - vm_compute; lia.
Defined.

(** The demo directory holds a dotfile and a file without a registered
    extension; both are skipped. *)
Lemma root_returns_only_if_source_readable_witness :
  demo_root demo_src start = (Ok 0, demo_state) ∧
  ∃ es, demo_src = Some es ∧ Forall (readable demo_registered) es.
Proof.
  split; [by vm_compute|].
  apply (root_returns_only_if_source_readable id demo_registered demo_filter
           demo_render demo_src 0 demo_state).
  by vm_compute.
Defined.
